(** * Space shooter: the game loop of [src/components/space-shooter-game.tsx]

    A shallow embedding of the component's world state, of [updateGame],
    [initStars], [initEnemies] and the restart handler, and the properties
    of the specification checked against them.

    Numbers.  A JavaScript [number] is an IEEE 754 double; it is modelled
    by the rational ([Q]) it stands for.  Every coordinate of the player,
    the enemies and the bullets is an integer or a half-integer (an enemy
    bullet starts at [x + 25/2 - 2]), far below 2^53, so the arithmetic of
    the source is exact on them and is written without rounding.  The stars
    hold arbitrary fractions of [Math.random()]: each operation on them is
    followed by [fl], the rounding of the exact result to the nearest
    double.  The counters of the HUD (score, level, lives) and
    [Date.now()] are integers ([Z]).

    Effects.  The objects of [gameObjectsRef] are mutated in place by the
    source; here each loop threads the mutated values explicitly.
    [Math.random()] is an oracle [nat -> Q] read at an increasing index.
    [setGameState] with an updater function is applied to the session state
    in call order, and the state a frame has set is the state the next
    frame and the next key handler read. *)

From Stdlib Require Import ZArith QArith Qround Qpower Qreduction.
From Stdlib Require Import List String Ascii Bool Lia Lqa.
From Stdlib Require Import DecimalString DecimalZ.
Import ListNotations.

Open Scope Q_scope.

(** ** Data model (lines 5-52) *)

Record GameObject := mkGameObject {
  x : Q;
  y : Q;
  width : Q;
  height : Q;
  active : bool
}.

(** [lastShot] is absent from the TypeScript interface but written by
    [updateGame]; [None] is JavaScript's [undefined]. *)
Record Player := mkPlayer {
  player_obj :> GameObject;
  player_speed : Q;
  lastShot : option Z
}.

Record Enemy := mkEnemy {
  enemy_obj :> GameObject;
  enemy_speed : Q;
  direction : Q
}.

Record Bullet := mkBullet {
  bullet_obj :> GameObject;
  bullet_speed : Q;
  isPlayerBullet : bool
}.

Record Star := mkStar {
  star_x : Q;
  star_y : Q;
  star_speed : Q;
  brightness : Q
}.

Record GameState := mkGameState {
  score : Z;
  level : Z;
  lives : Z;
  gameOver : bool;
  paused : bool
}.

Record GameObjects := mkGameObjects {
  player : Player;
  enemies : list Enemy;
  bullets : list Bullet;
  stars : list Star
}.

Definition CANVAS_WIDTH : Q := 800.
Definition CANVAS_HEIGHT : Q := 600.
Definition ENEMY_ROWS : nat := 5.
Definition ENEMY_COLS : nat := 10.

(** ** Comparisons and field updates *)

Definition Qltb (a b : Q) : bool := negb (Qle_bool b a).
Definition Qleb (a b : Q) : bool := Qle_bool a b.

Definition num (n : nat) : Q := inject_Z (Z.of_nat n).

(** ** Rounding to a double

    A finite double is [m * 2^c] with [|m| < 2^53] and [-1074 <= c]; the
    result of an operation is the double nearest to the exact result, the
    one with the even [m] when two are equally near.  Overflow to
    [Infinity] is left out: no number of the component comes near 2^1024. *)

(** The integer part of the binary logarithm of a positive rational. *)
Definition ilog2 (q : Q) : Z :=
  let k := (Z.log2 (Qnum q) - Z.log2 (Zpos (Qden q)))%Z in
  if Qle_bool (2 ^ k) q then k else (k - 1)%Z.

(** The nearest integer, the even one at a tie. *)
Definition rne (q : Q) : Z :=
  let f := Qfloor q in
  let r := q - inject_Z f in
  if Qltb r (1 # 2) then f
  else if Qltb (1 # 2) r then (f + 1)%Z
  else if Z.even f then f else (f + 1)%Z.

(** The exponent of the last place: 53 significant bits, and the fixed
    exponent of the subnormal numbers below 2^-1022. *)
Definition ulpExp (q : Q) : Z := Z.max (ilog2 q - 52) (-1074).

Definition flpos (q : Q) : Q :=
  let c := ulpExp q in
  Qred (inject_Z (rne (q * 2 ^ (- c))) * 2 ^ c).

Definition fl (q : Q) : Q :=
  match Qnum q with
  | Z0 => 0
  | Zpos _ => flpos q
  | Zneg _ => - flpos (- q)
  end.

Arguments fl : simpl never.

Definition set_x (o : GameObject) (v : Q) : GameObject :=
  mkGameObject v (y o) (width o) (height o) (active o).
Definition set_y (o : GameObject) (v : Q) : GameObject :=
  mkGameObject (x o) v (width o) (height o) (active o).
Definition set_active (o : GameObject) (v : bool) : GameObject :=
  mkGameObject (x o) (y o) (width o) (height o) v.

Definition player_with (p : Player) (o : GameObject) : Player :=
  mkPlayer o (player_speed p) (lastShot p).
Definition enemy_with (e : Enemy) (o : GameObject) : Enemy :=
  mkEnemy o (enemy_speed e) (direction e).
Definition bullet_with (b : Bullet) (o : GameObject) : Bullet :=
  mkBullet o (bullet_speed b) (isPlayerBullet b).

(** [keysRef.current] is a [Set<string>] of key codes. *)
Definition has (keys : list string) (code : string) : bool :=
  existsb (String.eqb code) keys.
Definition add (keys : list string) (code : string) : list string :=
  if has keys code then keys else keys ++ [code].
Definition delete (keys : list string) (code : string) : list string :=
  filter (fun k => negb (String.eqb code k)) keys.

(** ** Initial values (lines 39-52) *)

Definition initialGameState : GameState := mkGameState 0 1 3 false false.

Definition initialPlayer : Player :=
  mkPlayer (mkGameObject 400 550 30 20 true) 5 None.

(** ** initStars (lines 60-71): four draws per star, in field order.
    The literals 0.8 and 0.2 are the doubles nearest to 4/5 and 1/5. *)

Definition initStars (rnd : nat -> Q) : list Star :=
  map (fun i : nat =>
         mkStar (fl (rnd (4 * i)%nat * CANVAS_WIDTH))
                (fl (rnd (4 * i + 1)%nat * CANVAS_HEIGHT))
                (fl (fl (rnd (4 * i + 2)%nat * 2) + (1 # 2)))
                (fl (fl (rnd (4 * i + 3)%nat * fl (8 # 10)) + fl (2 # 10))))
      (seq 0 100).

(** ** initEnemies (lines 74-95) *)

Definition startX : Q := 100.
Definition startY : Q := 50.
Definition spacingX : Q := 60.
Definition spacingY : Q := 50.

Definition newEnemy (row col : nat) : Enemy :=
  mkEnemy (mkGameObject (startX + num col * spacingX)
                        (startY + num row * spacingY)
                        25 20 true)
          1 1.

Definition initEnemies : list Enemy :=
  flat_map (fun row => map (newEnemy row) (seq 0 ENEMY_COLS)) (seq 0 ENEMY_ROWS).

Arguments initStars : simpl never.
Arguments initEnemies : simpl never.

(** ** updateGame, step by step (lines 117-267) *)

(** Lines 123-129.  [n] is the index of the next unread random draw.  The
    test reads the rounded sum that [star.y += star.speed] has stored. *)
Definition updateStar (rnd : nat -> Q) (n : nat) (s : Star) : Star * nat :=
  let y1 := fl (star_y s + star_speed s) in
  if Qltb CANVAS_HEIGHT y1
  then (mkStar (fl (rnd n * CANVAS_WIDTH)) 0 (star_speed s) (brightness s), S n)
  else (mkStar (star_x s) y1 (star_speed s) (brightness s), n).

Fixpoint updateStars (rnd : nat -> Q) (n : nat) (ss : list Star)
  : list Star * nat :=
  match ss with
  | [] => ([], n)
  | s :: rest =>
      let (s', n') := updateStar rnd n s in
      let (rest', n'') := updateStars rnd n' rest in
      (s' :: rest', n'')
  end.

(** Lines 131-143: four independent tests, each on the position left by
    the previous one. *)
Definition moveLeft (keys : list string) (p : Player) : Player :=
  if has keys "ArrowLeft" && Qltb 0 (x p)
  then player_with p (set_x p (x p - player_speed p)) else p.
Definition moveRight (keys : list string) (p : Player) : Player :=
  if has keys "ArrowRight" && Qltb (x p) (CANVAS_WIDTH - width p)
  then player_with p (set_x p (x p + player_speed p)) else p.
Definition moveUp (keys : list string) (p : Player) : Player :=
  if has keys "ArrowUp" && Qltb (CANVAS_HEIGHT / 2) (y p)
  then player_with p (set_y p (y p - player_speed p)) else p.
Definition moveDownKey (keys : list string) (p : Player) : Player :=
  if has keys "ArrowDown" && Qltb (y p) (CANVAS_HEIGHT - height p)
  then player_with p (set_y p (y p + player_speed p)) else p.

Definition movePlayer (keys : list string) (p : Player) : Player :=
  moveDownKey keys (moveUp keys (moveRight keys (moveLeft keys p))).

(** Lines 146-160.  [!player.lastShot] holds for [undefined] and for the
    number 0. *)
Definition cooldownOver (now : Z) (p : Player) : bool :=
  match lastShot p with
  | None => true
  | Some t => (t =? 0)%Z || (200 <? now - t)%Z
  end.

Definition playerBullet (p : Player) : Bullet :=
  mkBullet (mkGameObject (x p + width p / 2 - 2) (y p) 4 10 true) 8 true.

Definition shoot (keys : list string) (now : Z) (p : Player) (bs : list Bullet)
  : Player * list Bullet :=
  if has keys "Space" && cooldownOver now p
  then (mkPlayer p (player_speed p) (Some now), bs ++ [playerBullet p])
  else (p, bs).

(** Lines 163-171. *)
Definition updateBullet (b : Bullet) : Bullet :=
  if isPlayerBullet b then
    let y1 := y b - bullet_speed b in
    bullet_with b (mkGameObject (x b) y1 (width b) (height b)
                                (if Qltb y1 0 then false else active b))
  else
    let y1 := y b + bullet_speed b in
    bullet_with b (mkGameObject (x b) y1 (width b) (height b)
                                (if Qltb CANVAS_HEIGHT y1 then false else active b)).

(** Lines 174-192. *)
Definition advance (e : Enemy) : Enemy :=
  if active e
  then enemy_with e (set_x e (x e + enemy_speed e * direction e))
  else e.

Definition atBoundary (e : Enemy) : bool :=
  active e && (Qleb (x e) 0 || Qleb (CANVAS_WIDTH - width e) (x e)).

Definition descend (e : Enemy) : Enemy :=
  if active e
  then mkEnemy (set_y e (y e + 20)) (enemy_speed e) (direction e * -1)
  else e.

Definition updateEnemies (es : list Enemy) : list Enemy :=
  let es1 := map advance es in
  let moveDown := existsb atBoundary es1 in
  if moveDown then map descend es1 else es1.

(** Lines 195-209.  [Math.random()] lies in [0, 1), so the chosen index
    is in range; outside that contract the source would throw on
    [shooter.x], and nothing is pushed here.  The product of
    [shooterIndex] is taken exactly: rounding it to a double can move the
    index to the next active enemy (0.3333333333333333 * 3 is 1 in
    doubles) but not out of range ([rounded_index_in_range]), and the
    statements on enemy fire do not say which active enemy is picked. *)
Definition enemyBullet (shooter : Enemy) : Bullet :=
  mkBullet (mkGameObject (x shooter + width shooter / 2 - 2)
                         (y shooter + height shooter) 4 8 true)
           3 false.

Definition shooterIndex (r : Q) (len : nat) : Z := Qfloor (r * num len).

Definition pick {A : Type} (l : list A) (i : Z) : option A :=
  if (i <? 0)%Z then None else nth_error l (Z.to_nat i).

Definition enemyShoot (rnd : nat -> Q) (n : nat) (es : list Enemy)
  (bs : list Bullet) : list Bullet :=
  if Qltb (rnd n) (2 # 100) then
    let activeEnemies := filter (fun e : Enemy => active e) es in
    if (0 <? List.length activeEnemies)%nat then
      match pick activeEnemies (shooterIndex (rnd (S n)) (List.length activeEnemies)) with
      | Some shooter => bs ++ [enemyBullet shooter]
      | None => bs
      end
    else bs
  else bs.

(** Lines 212-249. *)
Definition overlaps (a b : GameObject) : bool :=
  Qltb (x a) (x b + width b) && Qltb (x b) (x a + width a) &&
  Qltb (y a) (y b + height b) && Qltb (y b) (y a + height a).

Definition addScore (gs : GameState) : GameState :=
  mkGameState (score gs + 10) (level gs) (lives gs) (gameOver gs) (paused gs).

Definition loseLife (gs : GameState) : GameState :=
  let newLives := (lives gs - 1)%Z in
  mkGameState (score gs) (level gs) newLives (newLives <=? 0)%Z (paused gs).

Definition deactivateEnemy (e : Enemy) : Enemy := enemy_with e (set_active e false).
Definition deactivateBullet (b : Bullet) : Bullet := bullet_with b (set_active b false).

(** The body of the inner [enemies.forEach] for one enemy. *)
Definition hitEnemy (b : Bullet) (gs : GameState) (e : Enemy)
  : Enemy * Bullet * GameState :=
  if active e && overlaps b e
  then (deactivateEnemy e, deactivateBullet b, addScore gs)
  else (e, b, gs).

Fixpoint hitEnemies (b : Bullet) (gs : GameState) (es : list Enemy)
  : list Enemy * Bullet * GameState :=
  match es with
  | [] => ([], b, gs)
  | e :: rest =>
      let '(e', b', gs') := hitEnemy b gs e in
      let '(rest', b'', gs'') := hitEnemies b' gs' rest in
      (e' :: rest', b'', gs'')
  end.

(** The body of the outer [bullets.forEach] for one bullet. *)
Definition collideBullet (p : Player) (es : list Enemy) (gs : GameState)
  (b : Bullet) : Bullet * list Enemy * GameState :=
  if negb (active b) then (b, es, gs)
  else if isPlayerBullet b then
    let '(es', b', gs') := hitEnemies b gs es in (b', es', gs')
  else if overlaps b p then (deactivateBullet b, es, loseLife gs)
  else (b, es, gs).

Fixpoint collide (p : Player) (es : list Enemy) (gs : GameState)
  (bs : list Bullet) : list Bullet * list Enemy * GameState :=
  match bs with
  | [] => ([], es, gs)
  | b :: rest =>
      let '(b', es', gs') := collideBullet p es gs b in
      let '(rest', es'', gs'') := collide p es' gs' rest in
      (b' :: rest', es'', gs'')
  end.

(** Lines 255-259. *)
Definition waveCleared (es : list Enemy) : bool :=
  (List.length (filter (fun e : Enemy => active e) es) =? 0)%nat.

Definition nextLevel (gs : GameState) : GameState :=
  mkGameState (score gs) (level gs + 1) (lives gs) (gameOver gs) (paused gs).

(** Lines 262-266. *)
Definition breached (p : Player) (e : Enemy) : bool :=
  active e && Qleb (y p) (y e + height e).

Definition setGameOver (gs : GameState) : GameState :=
  mkGameState (score gs) (level gs) (lives gs) true (paused gs).

Definition lossCheck (p : Player) (es : list Enemy) (gs : GameState) : GameState :=
  fold_left (fun g e => if breached p e then setGameOver g else g) es gs.

(** The world of one component instance: React state and the mutable ref. *)
Record Game := mkGame {
  gameState : GameState;
  gameObjects : GameObjects
}.

(** The world at collision time: steps 1-6 of a frame. *)
Definition beforeCollision (keys : list string) (now : Z) (rnd : nat -> Q)
  (o : GameObjects) : GameObjects :=
  let (stars1, n) := updateStars rnd 0 (stars o) in
  let p1 := movePlayer keys (player o) in
  let (p2, bs2) := shoot keys now p1 (bullets o) in
  let bs3 := map updateBullet bs2 in
  let es4 := updateEnemies (enemies o) in
  let bs5 := enemyShoot rnd n es4 bs3 in
  mkGameObjects p2 es4 bs5 stars1.

(** Collision, clean-up, wave-clear and loss check.  The loss check reads
    the local [enemies] array of the frame, not the wave [initEnemies] has
    just stored in the ref. *)
Definition afterCollision (gs : GameState) (o : GameObjects) : Game :=
  let '(bs6, es6, gs6) := collide (player o) (enemies o) gs (bullets o) in
  let bs7 := filter (fun b : Bullet => active b) bs6 in
  let cleared := waveCleared es6 in
  let gs8 := if cleared then nextLevel gs6 else gs6 in
  let es8 := if cleared then initEnemies else es6 in
  let gs9 := lossCheck (player o) es6 gs8 in
  mkGame gs9 (mkGameObjects (player o) es8 bs7 (stars o)).

Definition updateGame (keys : list string) (now : Z) (rnd : nat -> Q)
  (g : Game) : Game :=
  if gameOver (gameState g) || paused (gameState g) then g
  else afterCollision (gameState g)
         (beforeCollision keys now rnd (gameObjects g)).

(** ** The restart handler (lines 371-396) *)

Definition handleRestart (code : string) (g : Game) : Game :=
  if String.eqb code "KeyR" && gameOver (gameState g)
  then mkGame initialGameState
              (mkGameObjects initialPlayer initEnemies []
                             (stars (gameObjects g)))
  else g.

(** ** The component as a transition system *)

Record Session := mkSession {
  game : Game;
  keysRef : list string
}.

Inductive Event :=
| KeyDown (code : string)
| KeyUp (code : string)
| Frame (now : Z) (rnd : nat -> Q).

(** Mount: the initial state, then [initStars] and [initEnemies]. *)
Definition mount (rnd : nat -> Q) : Session :=
  mkSession
    (mkGame initialGameState
            (mkGameObjects initialPlayer initEnemies [] (initStars rnd)))
    [].

Definition step (s : Session) (ev : Event) : Session :=
  match ev with
  | KeyDown code => mkSession (handleRestart code (game s)) (add (keysRef s) code)
  | KeyUp code => mkSession (game s) (delete (keysRef s) code)
  | Frame now rnd => mkSession (updateGame (keysRef s) now rnd (game s)) (keysRef s)
  end.

Definition run (s : Session) (evs : list Event) : Session := fold_left step evs s.

Inductive reachable : Session -> Prop :=
| reach_mount : forall rnd, reachable (mount rnd)
| reach_step : forall s ev, reachable s -> reachable (step s ev).

(** ** Predicates used by the statements *)

Definition activeCount (es : list Enemy) : nat :=
  List.length (filter (fun e : Enemy => active e) es).

(** The player stands on the 5-unit lattice of its moves, inside the
    lower half of the playfield. *)
Definition PlayerOK (p : Player) : Prop :=
  width p = 30 /\ height p = 20 /\ player_speed p = 5 /\
  exists i j : Z,
    (0 <= i <= 154)%Z /\ (60 <= j <= 116)%Z /\
    x p == 5 * inject_Z i /\ y p == 5 * inject_Z j.

(** Two enemies of one wave keep the spacing of the grid. *)
Definition apart (a b : Enemy) : Prop :=
  active a = true -> active b = true ->
  x a + 60 <= x b \/ x b + 60 <= x a \/ y a + 50 <= y b \/ y b + 50 <= y a.

Definition uniform (d : Q) (e : Enemy) : Prop :=
  active e = true ->
  width e = 25 /\ height e = 20 /\ enemy_speed e = 1 /\ direction e == d.

Definition WaveOK (es : list Enemy) : Prop :=
  ForallOrdPairs apart es /\ exists d, Forall (uniform d) es.

Definition BulletOK (b : Bullet) : Prop :=
  isPlayerBullet b = true -> width b = 4 /\ height b = 10.

Definition WorldOK (g : Game) : Prop :=
  WaveOK (enemies (gameObjects g)) /\ Forall BulletOK (bullets (gameObjects g)).

(** The test of the inner loop, and what it does to the enemy. *)
Definition hitTest (b : Bullet) (e : Enemy) : bool := active e && overlaps b e.

(** Some active player bullet of [bs] overlaps [e]. *)
Definition shotAt (bs : list Bullet) (e : Enemy) : bool :=
  existsb (fun b : Bullet => active b && isPlayerBullet b && overlaps b e) bs.

Definition mark (bs : list Bullet) (e : Enemy) : Enemy :=
  if active e && shotAt bs e then deactivateEnemy e else e.

(** An active enemy bullet of [bs] overlaps the player. *)
Definition strikes (p : Player) (b : Bullet) : bool :=
  active b && negb (isPlayerBullet b) && overlaps b p.

(** Decidable form of [apart] on a whole list. *)
Definition apartb (a b : Enemy) : bool :=
  Qleb (x a + 60) (x b) || Qleb (x b + 60) (x a) ||
  Qleb (y a + 50) (y b) || Qleb (y b + 50) (y a).

Fixpoint pairwiseb (es : list Enemy) : bool :=
  match es with
  | [] => true
  | e :: rest => forallb (apartb e) rest && pairwiseb rest
  end.

(** The state in which the collision loop reaches the bullet that follows
    [pre]. *)
Definition turnOf (p : Player) (es : list Enemy) (gs : GameState)
  (pre : list Bullet) : list Enemy * GameState :=
  let '(_, es', gs') := collide p es gs pre in (es', gs').

(** The enemies as the collision loop leaves them. *)
Definition enemiesAfterCollision (gs : GameState) (o : GameObjects) : list Enemy :=
  snd (fst (collide (player o) (enemies o) gs (bullets o))).

(** Some active enemy stands on a side boundary once advanced. *)
Definition reachesBoundary (es : list Enemy) : Prop :=
  exists e, In e es /\ active e = true /\
    (x e + enemy_speed e * direction e <= 0 \/
     CANVAS_WIDTH - width e <= x e + enemy_speed e * direction e).

(** ** Scenarios *)

(** A frame in which no enemy fires, and one in which the active enemy of
    index [idx] (of 50) fires. *)
Definition tick (now : Z) : Event := Frame now (fun _ => 1 # 2).
Definition fire (idx : Z) : Event :=
  Frame 0 (fun n => match n with O => 0 | _ => (2 * idx + 1) # 100 end).

(** Four enemy shots timed so that the first reaches the idle player in
    frame 92 and the other three together in frame 143. *)
Definition barrage : list Event :=
  [fire 45; fire 15] ++ repeat (tick 0) 15 ++ [fire 25] ++
  repeat (tick 0) 33 ++ [fire 44] ++ repeat (tick 0) 91.

(** Two player shots, one frame apart while the ship climbs, that enter
    the box of the same enemy in the frame that follows. *)
Definition volley : list Event :=
  [KeyDown "ArrowLeft"; tick 0; tick 0; tick 0; tick 0; KeyUp "ArrowLeft";
   KeyDown "ArrowUp"; KeyDown "Space"; tick 1000; tick 2000;
   KeyUp "Space"; KeyUp "ArrowUp"] ++ repeat (tick 0) 32.

(** One enemy left, and a player bullet that reaches it in the next frame. *)
Definition lastEnemy : Game :=
  mkGame (mkGameState 490 1 3 false false)
         (mkGameObjects initialPlayer
            [mkEnemy (mkGameObject 100 50 25 20 false) 1 1;
             mkEnemy (mkGameObject 160 50 25 20 true) 1 1]
            [mkBullet (mkGameObject 170 75 4 10 true) 8 true]
            []).

(** A wave whose rightmost enemy is one step from the right boundary. *)
Definition waveAtEdge : GameObjects :=
  mkGameObjects initialPlayer
    [mkEnemy (mkGameObject 234 50 25 20 true) 1 1;
     mkEnemy (mkGameObject 774 50 25 20 true) 1 1]
    [] [].

(** One life left, and an enemy bullet that reaches the player in the
    next frame. *)
Definition lastLife : Game :=
  mkGame (mkGameState 70 1 1 false false)
         (mkGameObjects initialPlayer
            [mkEnemy (mkGameObject 100 50 25 20 true) 1 1]
            [mkBullet (mkGameObject 410 540 4 8 true) 3 false]
            []).

(** A session that has ended. *)
Definition endedSession : Session :=
  mkSession (mkGame (mkGameState 120 2 0 true false) waveAtEdge)
            ["ArrowLeft"%string].

(** One bullet across two enemies: a world no run from mount produces. *)
Definition twoInOne : GameObjects :=
  mkGameObjects initialPlayer
    [mkEnemy (mkGameObject 100 50 25 20 true) 1 1;
     mkEnemy (mkGameObject 102 55 25 20 true) 1 1]
    [mkBullet (mkGameObject 110 60 4 10 true) 8 true]
    [].

(** ** render (lines 270-345)

    The 2D context is a record of the three attributes the source sets;
    a call of [fillRect] or [fillText] is recorded with the attributes it
    is drawn with.  The colour of a star, the template
    [rgba(255, 255, 255, ${star.brightness})], keeps its alpha as a number
    ([White]); every other colour is the string of the source.  The
    counters are integers; [toString] prints them in decimal, which is
    what [Number.prototype.toString] does for an integer of magnitude
    below 10^21 (from there on JavaScript prints an exponent, which is not
    modelled: statements about the printed digits carry that bound). *)

Inductive Style :=
| Css (colour : string)
| White (alpha : Q).

Record Context2D := mkContext2D {
  fillStyle : Style;
  font : string;
  textAlign : string
}.

Inductive Draw :=
| FillRect (style : Style) (rx ry rw rh : Q)
| FillText (style : Style) (fnt align text : string) (tx ty : Q).

(** A piece of drawing code: it may change the context and it issues
    calls, in order. *)
Definition Paint : Type := Context2D -> Context2D * list Draw.

Definition done : Paint := fun c => (c, []).

Definition seqP (a b : Paint) : Paint :=
  fun c => let (c1, d1) := a c in
           let (c2, d2) := b c1 in
           (c2, d1 ++ d2).

Notation "a ;; b" := (seqP a b) (at level 61, right associativity).

Definition setFillStyle (st : Style) : Paint :=
  fun c => (mkContext2D st (font c) (textAlign c), []).
Definition setFont (f : string) : Paint :=
  fun c => (mkContext2D (fillStyle c) f (textAlign c), []).
Definition setTextAlign (a : string) : Paint :=
  fun c => (mkContext2D (fillStyle c) (font c) a, []).
Definition fillRect (rx ry rw rh : Q) : Paint :=
  fun c => (c, [FillRect (fillStyle c) rx ry rw rh]).
Definition fillText (text : string) (tx ty : Q) : Paint :=
  fun c => (c, [FillText (fillStyle c) (font c) (textAlign c) text tx ty]).

Definition when (b : bool) (p : Paint) : Paint := if b then p else done.

Fixpoint forEach {A : Type} (f : A -> Paint) (l : list A) : Paint :=
  match l with
  | [] => done
  | a :: rest => f a ;; forEach f rest
  end.

Definition toString (n : Z) : string := NilZero.string_of_int (Z.to_int n).

Fixpoint copies (n : nat) (c : ascii) : string :=
  match n with
  | O => EmptyString
  | S m => String c (copies m c)
  end.

(** [s.padStart(n, c)] for a one-character filler. *)
Definition padStart (n : nat) (c : ascii) (s : string) : string :=
  (copies (n - String.length s) c ++ s)%string.

Definition drawStar (s : Star) : Paint :=
  setFillStyle (White (brightness s)) ;; fillRect (star_x s) (star_y s) 1 1.

Definition drawPlayer (p : Player) : Paint :=
  when (active p)
    (setFillStyle (Css "#00ff00") ;;
     fillRect (x p) (y p) (width p) (height p) ;;
     setFillStyle (Css "#ffffff") ;;
     fillRect (x p + 12) (y p - 5) 6 8 ;;
     fillRect (x p + 5) (y p + 15) 8 3 ;;
     fillRect (x p + 17) (y p + 15) 8 3).

Definition drawEnemy (e : Enemy) : Paint :=
  when (active e)
    (setFillStyle (Css "#ff4444") ;;
     fillRect (x e) (y e) (width e) (height e) ;;
     setFillStyle (Css "#ffffff") ;;
     fillRect (x e + 8) (y e + 5) 9 4 ;;
     fillRect (x e + 3) (y e + 12) 6 3 ;;
     fillRect (x e + 16) (y e + 12) 6 3).

Definition drawBullet (b : Bullet) : Paint :=
  when (active b)
    (setFillStyle (Css (if isPlayerBullet b then "#00ffff" else "#ffff00")) ;;
     fillRect (x b) (y b) (width b) (height b)).

Definition levelLabel (gs : GameState) : string :=
  ("LEVEL: " ++ padStart 2 "0" (toString (level gs)))%string.

Definition drawUI (gs : GameState) : Paint :=
  setFillStyle (Css "#ffffff") ;;
  setFont "20px monospace" ;;
  fillText ("SCORE: " ++ toString (score gs))%string 20 30 ;;
  fillText (levelLabel gs) (CANVAS_WIDTH - 120) 30 ;;
  fillText ("LIVES: " ++ toString (lives gs))%string 20 (CANVAS_HEIGHT - 20).

Definition drawGameOver (gs : GameState) : Paint :=
  when (gameOver gs)
    (setFillStyle (Css "rgba(0, 0, 0, 0.8)") ;;
     fillRect 0 0 CANVAS_WIDTH CANVAS_HEIGHT ;;
     setFillStyle (Css "#ff0000") ;;
     setFont "48px monospace" ;;
     setTextAlign "center" ;;
     fillText "GAME OVER" (CANVAS_WIDTH / 2) (CANVAS_HEIGHT / 2) ;;
     setFillStyle (Css "#ffffff") ;;
     setFont "24px monospace" ;;
     fillText ("Final Score: " ++ toString (score gs))%string
              (CANVAS_WIDTH / 2) (CANVAS_HEIGHT / 2 + 50) ;;
     fillText "Press R to Restart" (CANVAS_WIDTH / 2) (CANVAS_HEIGHT / 2 + 100) ;;
     setTextAlign "left").

Definition render (gs : GameState) (o : GameObjects) : Paint :=
  setFillStyle (Css "#000011") ;;
  fillRect 0 0 CANVAS_WIDTH CANVAS_HEIGHT ;;
  forEach drawStar (stars o) ;;
  drawPlayer (player o) ;;
  forEach drawEnemy (enemies o) ;;
  forEach drawBullet (bullets o) ;;
  drawUI gs ;;
  drawGameOver gs.

(** Lines 271-275: nothing is drawn without a canvas ([None]) or without
    its 2D context ([Some None]). *)
Definition renderOn (canvas : option (option Context2D)) (gs : GameState)
  (o : GameObjects) : option (Context2D * list Draw) :=
  match canvas with
  | Some (Some ctx) => Some (render gs o ctx)
  | _ => None
  end.

(** ** The game loop (lines 348-362)

    [gameLoop] calls [updateGame] and then [render].  Both are the
    closures of the same React render: [render] draws the objects of the
    ref, which the update has just mutated, with the [gameState] the
    closure was created with, the one the frame started from. *)
Definition gameLoop (s : Session) (now : Z) (rnd : nat -> Q)
  (canvas : option (option Context2D))
  : Session * option (Context2D * list Draw) :=
  let s' := step s (Frame now rnd) in
  (s', renderOn canvas (gameState (game s)) (gameObjects (game s'))).

(** ** Further predicates *)

(** [Math.random()] returns a number in [0, 1). *)
Definition fair (rnd : nat -> Q) : Prop := forall n, 0 <= rnd n /\ rnd n < 1.

(** A double in [0, 1), as [Math.random()] returns them; the largest is
    [maxDraw], 1 - 2^-53. *)
Definition unitDouble (r : Q) : Prop := fl r == r /\ 0 <= r /\ r < 1.

Definition maxDraw : Q := 1 - (1 # 9007199254740992).

Definition fairDraws (rnd : nat -> Q) : Prop := forall n, unitDouble (rnd n).

Definition fairEvent (ev : Event) : Prop :=
  match ev with
  | Frame _ rnd => fairDraws rnd
  | _ => True
  end.

Definition StarOK (s : Star) : Prop :=
  0 <= star_x s /\ star_x s < CANVAS_WIDTH /\
  0 <= star_y s /\ star_y s <= CANVAS_HEIGHT /\
  1 # 2 <= star_speed s /\ star_speed s <= 5 # 2 /\
  1 # 5 <= brightness s /\ brightness s <= 1.

(** What the star step does to one star: it falls by its speed, the sum
    rounded, or, when that passes the bottom edge, it is put back at the
    top edge with an x inside the canvas. *)
Definition starMoved (s s' : Star) : Prop :=
  star_speed s' = star_speed s /\ brightness s' = brightness s /\
  let y1 := fl (star_y s + star_speed s) in
  (y1 <= CANVAS_HEIGHT /\ star_y s' = y1 /\ star_x s' = star_x s) \/
  (CANVAS_HEIGHT < y1 /\ star_y s' = 0 /\
   0 <= star_x s' /\ star_x s' < CANVAS_WIDTH).

(** A star half a unit above the bottom edge whose speed is the double
    that follows 0.5. *)
Definition edgeStar : Star :=
  mkStar 0 (1199 # 2) (4503599627370497 # 9007199254740992) 1.

(** Whether [code] is held after an event, given whether it was before. *)
Definition keyAfter (code : string) (held : bool) (ev : Event) : bool :=
  match ev with
  | KeyDown c => if String.eqb c code then true else held
  | KeyUp c => if String.eqb c code then false else held
  | Frame _ _ => held
  end.

(** A stored bullet: active, of the size and speed of its owner, and not
    past the edge it flies to. *)
Definition BulletTidy (b : Bullet) : Prop :=
  active b = true /\ width b = 4 /\
  if isPlayerBullet b
  then height b = 10 /\ bullet_speed b = 8 /\ 0 <= y b
  else height b = 8 /\ bullet_speed b = 3 /\ y b <= CANVAS_HEIGHT.

(** A bullet during a frame: as [BulletTidy], but it may be inactive. *)
Definition BulletFlying (b : Bullet) : Prop :=
  width b = 4 /\
  if isPlayerBullet b
  then height b = 10 /\ bullet_speed b = 8 /\ (active b = true -> 0 <= y b)
  else height b = 8 /\ bullet_speed b = 3 /\
       (active b = true -> y b <= CANVAS_HEIGHT).

(** An active enemy of a wave that moves in direction [d]: on integer
    coordinates, inside the playfield, and short of the boundary it moves
    to. *)
Definition InField (d : Q) (e : Enemy) : Prop :=
  active e = true ->
  width e = 25 /\ enemy_speed e = 1 /\ direction e == d /\
  (exists k : Z, x e == inject_Z k) /\
  0 <= x e /\ x e <= 775 /\ 50 <= y e /\
  (d == 1 -> x e <= 774) /\ (d == -1 -> 1 <= x e).

Definition WaveInField (es : list Enemy) : Prop :=
  exists d, (d == 1 \/ d == -1) /\ Forall (InField d) es.

(** A piece of drawing code that issues rectangles only and leaves the
    font and the text alignment of the context alone. *)
Definition Quiet (p : Paint) : Prop :=
  forall c, font (fst (p c)) = font c /\
            textAlign (fst (p c)) = textAlign c /\
            Forall (fun d => match d with FillRect _ _ _ _ _ => True | _ => False end)
                   (snd (p c)).

(** The three texts of the HUD, drawn with alignment [align]. *)
Definition hudDraws (gs : GameState) (align : string) : list Draw :=
  [FillText (Css "#ffffff") "20px monospace" align
            ("SCORE: " ++ toString (score gs))%string 20 30;
   FillText (Css "#ffffff") "20px monospace" align
            (levelLabel gs) (CANVAS_WIDTH - 120) 30;
   FillText (Css "#ffffff") "20px monospace" align
            ("LIVES: " ++ toString (lives gs))%string 20 (CANVAS_HEIGHT - 20)].

(** The dimming rectangle and the three centred texts of the overlay. *)
Definition overlayDraws (gs : GameState) : list Draw :=
  [FillRect (Css "rgba(0, 0, 0, 0.8)") 0 0 CANVAS_WIDTH CANVAS_HEIGHT;
   FillText (Css "#ff0000") "48px monospace" "center" "GAME OVER"
            (CANVAS_WIDTH / 2) (CANVAS_HEIGHT / 2);
   FillText (Css "#ffffff") "24px monospace" "center"
            ("Final Score: " ++ toString (score gs))%string
            (CANVAS_WIDTH / 2) (CANVAS_HEIGHT / 2 + 50);
   FillText (Css "#ffffff") "24px monospace" "center" "Press R to Restart"
            (CANVAS_WIDTH / 2) (CANVAS_HEIGHT / 2 + 100)].

(** The rectangles of the world, in drawing order: background, stars,
    player, enemies, bullets. *)
Definition starDraw (s : Star) : Draw :=
  FillRect (White (brightness s)) (star_x s) (star_y s) 1 1.

Definition playerDraws (p : Player) : list Draw :=
  if active p
  then [FillRect (Css "#00ff00") (x p) (y p) (width p) (height p);
        FillRect (Css "#ffffff") (x p + 12) (y p - 5) 6 8;
        FillRect (Css "#ffffff") (x p + 5) (y p + 15) 8 3;
        FillRect (Css "#ffffff") (x p + 17) (y p + 15) 8 3]
  else [].

Definition enemyDraws (e : Enemy) : list Draw :=
  if active e
  then [FillRect (Css "#ff4444") (x e) (y e) (width e) (height e);
        FillRect (Css "#ffffff") (x e + 8) (y e + 5) 9 4;
        FillRect (Css "#ffffff") (x e + 3) (y e + 12) 6 3;
        FillRect (Css "#ffffff") (x e + 16) (y e + 12) 6 3]
  else [].

Definition bulletDraws (b : Bullet) : list Draw :=
  if active b
  then [FillRect (Css (if isPlayerBullet b then "#00ffff" else "#ffff00"))
                 (x b) (y b) (width b) (height b)]
  else [].

Definition worldDraws (o : GameObjects) : list Draw :=
  FillRect (Css "#000011") 0 0 CANVAS_WIDTH CANVAS_HEIGHT
  :: map starDraw (stars o) ++ playerDraws (player o)
  ++ flat_map enemyDraws (enemies o) ++ flat_map bulletDraws (bullets o).

Definition isRect (d : Draw) : bool :=
  match d with FillRect _ _ _ _ _ => true | FillText _ _ _ _ _ _ => false end.

Definition isText (d : Draw) : bool := negb (isRect d).

(** * Properties *)

(** ** Comparisons *)

Lemma Qltb_lt (a b : Q) : Qltb a b = true <-> a < b.
Proof.
  unfold Qltb. rewrite negb_true_iff, <- not_true_iff_false, Qle_bool_iff.
  split; [apply Qnot_le_lt | apply Qlt_not_le].
Qed.

Lemma Qleb_le (a b : Q) : Qleb a b = true <-> a <= b.
Proof. apply Qle_bool_iff. Qed.

Lemma overlaps_spec (a b : GameObject) :
  overlaps a b = true <->
  x a < x b + width b /\ x a + width a > x b /\
  y a < y b + height b /\ y a + height a > y b.
Proof.
  unfold overlaps. rewrite !andb_true_iff, !Qltb_lt. tauto.
Qed.

(** The index [Math.floor(Math.random() * length)] is in range, so the
    shooter of [enemyShoot] is always defined. *)
Lemma shooter_in_range {A : Type} (l : list A) (r : Q) :
  0 <= r -> r < 1 -> l <> [] ->
  exists a, pick l (shooterIndex r (List.length l)) = Some a.
Proof.
  intros H0 H1 Hl. unfold pick, shooterIndex, num.
  set (len := Z.of_nat (List.length l)).
  assert (Hlen : (0 < len)%Z).
  { unfold len. destruct l; [congruence | cbn [List.length]; lia]. }
  assert (Hq : 0 < inject_Z len).
  { change 0 with (inject_Z 0). now rewrite <- Zlt_Qlt. }
  assert (Hlo : (0 <= Qfloor (r * inject_Z len))%Z).
  { change 0%Z with (Qfloor 0). apply Qfloor_resp_le.
    apply Qmult_le_0_compat; [assumption | now apply Qlt_le_weak]. }
  assert (Hhi : (Qfloor (r * inject_Z len) < len)%Z).
  { rewrite Zlt_Qlt.
    apply Qle_lt_trans with (r * inject_Z len); [apply Qfloor_le|].
    rewrite <- (Qmult_1_l (inject_Z len)) at 2.
    now apply Qmult_lt_compat_r. }
  destruct (Z.ltb_spec (Qfloor (r * inject_Z len)) 0) as [L | _]; [lia|].
  destruct (nth_error l (Z.to_nat (Qfloor (r * inject_Z len)))) as [a|] eqn:E.
  - now exists a.
  - apply nth_error_None in E. unfold len in *. lia.
Qed.

(** ** Runs *)

Lemma reachable_run (s : Session) (evs : list Event) :
  reachable s -> reachable (run s evs).
Proof.
  revert s. induction evs as [|ev evs IH]; intros s Hs; simpl.
  - exact Hs.
  - apply IH. now constructor.
Qed.

Lemma reachable_ind_inv (P : Session -> Prop) :
  (forall rnd, P (mount rnd)) ->
  (forall s ev, P s -> P (step s ev)) ->
  forall s, reachable s -> P s.
Proof. intros H0 HS s Hr. induction Hr; auto. Qed.

Create HintDb game.

(** ** The two halves of a frame *)

Ltac open_frame :=
  unfold beforeCollision, afterCollision;
  repeat match goal with
         | |- context [updateStars ?r ?n ?ss] =>
             destruct (updateStars r n ss) as [? ?]
         | |- context [shoot ?k ?t ?p ?bs] =>
             destruct (shoot k t p bs) as [? ?]
         | |- context [collide ?p ?es ?gs ?bs] =>
             destruct (collide p es gs bs) as [[? ?] ?]
         end.

Section Frame.

Variables (keys : list string) (now : Z) (rnd : nat -> Q).
Variables (gs : GameState) (o : GameObjects).

Lemma beforeCollision_stars :
  stars (beforeCollision keys now rnd o) = fst (updateStars rnd 0 (stars o)).
Proof.
  unfold beforeCollision.
  destruct (updateStars rnd 0 (stars o)) as [ss n].
  destruct (shoot keys now (movePlayer keys (player o)) (bullets o)).
  reflexivity.
Qed.

Lemma beforeCollision_enemies :
  enemies (beforeCollision keys now rnd o) = updateEnemies (enemies o).
Proof. open_frame. reflexivity. Qed.

Lemma beforeCollision_player :
  player (beforeCollision keys now rnd o)
  = fst (shoot keys now (movePlayer keys (player o)) (bullets o)).
Proof.
  unfold beforeCollision.
  destruct (updateStars rnd 0 (stars o)) as [ss n].
  destruct (shoot keys now (movePlayer keys (player o)) (bullets o)).
  reflexivity.
Qed.

Lemma afterCollision_stars :
  stars (gameObjects (afterCollision gs o)) = stars o.
Proof. open_frame. reflexivity. Qed.

Lemma afterCollision_player :
  player (gameObjects (afterCollision gs o)) = player o.
Proof. open_frame. reflexivity. Qed.

End Frame.

(** ** Game over and pause (C9) *)

Lemma updateGame_halted keys now rnd (g : Game) :
  gameOver (gameState g) = true \/ paused (gameState g) = true ->
  updateGame keys now rnd g = g.
Proof.
  intros H. unfold updateGame.
  destruct H as [-> | ->]; [reflexivity | now rewrite orb_true_r].
Qed.

Lemma handleRestart_other (code : string) (g : Game) :
  code <> "KeyR"%string -> handleRestart code g = g.
Proof.
  intros H. unfold handleRestart.
  apply String.eqb_neq in H. now rewrite H.
Qed.

Lemma step_game_over_stays (s : Session) (ev : Event) :
  gameOver (gameState (game s)) = true ->
  ev <> KeyDown "KeyR" ->
  game (step s ev) = game s.
Proof.
  intros Hgo Hev. destruct ev as [code | code | now rnd]; simpl.
  - apply handleRestart_other. intros ->. now apply Hev.
  - reflexivity.
  - apply updateGame_halted. now left.
Qed.

(** C9.  While the game is over or paused a frame changes nothing at all;
    and from a game-over state every run of events without the restart key
    leaves the world and the session state as they were: only the restart
    key-down can bring game-over back to false. *)
Theorem game_over_terminal (s : Session) :
  gameOver (gameState (game s)) = true \/ paused (gameState (game s)) = true ->
  (forall now rnd, step s (Frame now rnd) = s) /\
  (gameOver (gameState (game s)) = true ->
   forall evs, ~ In (KeyDown "KeyR") evs -> game (run s evs) = game s) /\
  (gameOver (gameState (game s)) = true ->
   forall ev, gameOver (gameState (game (step s ev))) = false ->
              ev = KeyDown "KeyR").
Proof.
  intros H. split; [|split].
  - intros now rnd. destruct s as [g ks]; simpl in *.
    now rewrite updateGame_halted.
  - intros Hgo evs. revert s Hgo H.
    induction evs as [|ev evs IH]; intros s Hgo _ Hnot; [reflexivity|].
    simpl in *.
    assert (Hs : game (step s ev) = game s).
    { apply step_game_over_stays; [assumption|]. intros ->. apply Hnot. now left. }
    rewrite IH.
    + exact Hs.
    + now rewrite Hs.
    + left. now rewrite Hs.
    + intros Hin. apply Hnot. now right.
  - intros Hgo ev Hev.
    destruct ev as [code | code | now rnd]; simpl in Hev.
    + destruct (String.eqb_spec code "KeyR") as [-> | Hne]; [reflexivity|].
      rewrite handleRestart_other in Hev by assumption. congruence.
    + congruence.
    + rewrite updateGame_halted in Hev by now left. congruence.
Qed.

Lemma game_over_terminal_witness :
  step endedSession (Frame 7 (fun _ => 0)) = endedSession.
Proof.
  apply (game_over_terminal endedSession). left. reflexivity.
Defined.

(** ** Restart (C7, C10) *)



Lemma handleRestart_stars (code : string) (g : Game) :
  stars (gameObjects (handleRestart code g)) = stars (gameObjects g).
Proof.
  unfold handleRestart.
  destruct (String.eqb code "KeyR" && gameOver (gameState g)); reflexivity.
Qed.

Lemma updateStars_fixed rnd (ss : list Star) : forall n,
  map star_speed (fst (updateStars rnd n ss)) = map star_speed ss /\
  map brightness (fst (updateStars rnd n ss)) = map brightness ss.
Proof.
  induction ss as [|s rest IH]; intros n; simpl; [split; reflexivity|].
  unfold updateStar.
  destruct (Qltb CANVAS_HEIGHT (fl (star_y s + star_speed s))).
  - destruct (updateStars rnd (S n) rest) as [rest' n''] eqn:E.
    specialize (IH (S n)). rewrite E in IH. simpl in *.
    destruct IH as [-> ->]. split; reflexivity.
  - destruct (updateStars rnd n rest) as [rest' n''] eqn:E.
    specialize (IH n). rewrite E in IH. simpl in *.
    destruct IH as [-> ->]. split; reflexivity.
Qed.

Lemma step_stars_fixed (s : Session) (ev : Event) :
  map star_speed (stars (gameObjects (game (step s ev))))
  = map star_speed (stars (gameObjects (game s))) /\
  map brightness (stars (gameObjects (game (step s ev))))
  = map brightness (stars (gameObjects (game s))).
Proof.
  destruct ev as [code | code | now rnd]; simpl.
  - now rewrite handleRestart_stars.
  - split; reflexivity.
  - unfold updateGame.
    destruct (gameOver (gameState (game s)) || paused (gameState (game s)));
      [split; reflexivity|].
    rewrite afterCollision_stars, beforeCollision_stars.
    apply updateStars_fixed.
Qed.

(** C10.  A key-down, the restart key included, leaves the array of stars
    exactly as it was; and in every run from mount the stars are the 100
    of [initStars], with the speed and brightness they were generated
    with: no event generates stars again. *)
Theorem restart_keeps_stars :
  (forall (s : Session) (code : string),
     stars (gameObjects (game (step s (KeyDown code))))
     = stars (gameObjects (game s))) /\
  (forall rnd (evs : list Event),
     let ss := stars (gameObjects (game (run (mount rnd) evs))) in
     List.length ss = 100%nat /\
     map star_speed ss = map star_speed (initStars rnd) /\
     map brightness ss = map brightness (initStars rnd)).
Proof.
  split.
  - intros s code. simpl. apply handleRestart_stars.
  - intros rnd evs.
    assert (H : forall s,
               map star_speed (stars (gameObjects (game (run s evs))))
               = map star_speed (stars (gameObjects (game s))) /\
               map brightness (stars (gameObjects (game (run s evs))))
               = map brightness (stars (gameObjects (game s)))).
    { induction evs as [|ev evs IH]; intros s; simpl; [split; reflexivity|].
      destruct (IH (step s ev)) as [-> ->]. apply step_stars_fixed. }
    destruct (H (mount rnd)) as [H1 H2].
    change (stars (gameObjects (game (mount rnd)))) with (initStars rnd) in H1, H2.
    cbv zeta. split; [|split]; try assumption.
    apply (f_equal (@List.length Q)) in H1.
    rewrite !length_map in H1. rewrite H1.
    unfold initStars. rewrite length_map. apply length_seq.
Qed.

(** ** What each loop leaves alone *)

Lemma hitEnemies_state (b : Bullet) (gs : GameState) (es : list Enemy) :
  let '(es', b', gs') := hitEnemies b gs es in
  level gs' = level gs /\ lives gs' = lives gs /\
  gameOver gs' = gameOver gs /\ paused gs' = paused gs /\
  List.length es' = List.length es.
Proof.
  revert b gs. induction es as [|e rest IH]; intros b gs; simpl.
  - now repeat split.
  - unfold hitEnemy.
    destruct (active e && overlaps b e).
    + specialize (IH (deactivateBullet b) (addScore gs)).
      destruct (hitEnemies (deactivateBullet b) (addScore gs) rest) as [[rest' b''] gs''].
      simpl in *. intuition congruence.
    + specialize (IH b gs).
      destruct (hitEnemies b gs rest) as [[rest' b''] gs''].
      simpl in *. intuition congruence.
Qed.

Lemma collideBullet_state (p : Player) (es : list Enemy) (gs : GameState) (b : Bullet) :
  let '(b', es', gs') := collideBullet p es gs b in
  level gs' = level gs /\ paused gs' = paused gs /\
  List.length es' = List.length es /\
  (lives gs' <= lives gs)%Z /\
  (lives gs' = lives gs -> gameOver gs' = gameOver gs) /\
  (lives gs' < lives gs -> gameOver gs' = (lives gs' <=? 0)%Z)%Z.
Proof.
  unfold collideBullet.
  destruct (negb (active b)); [repeat split; intros; (reflexivity || lia)|].
  destruct (isPlayerBullet b).
  - pose proof (hitEnemies_state b gs es) as H.
    destruct (hitEnemies b gs es) as [[es' b'] gs'].
    destruct H as (H1 & H2 & H3 & H4 & H5).
    repeat split; intros; try assumption; try congruence; lia.
  - destruct (overlaps b p); simpl; repeat split; intros; try reflexivity; lia.
Qed.

Lemma collide_state (p : Player) (bs : list Bullet) : forall es gs,
  let '(bs', es', gs') := collide p es gs bs in
  level gs' = level gs /\ paused gs' = paused gs /\
  List.length es' = List.length es /\
  (lives gs' <= lives gs)%Z /\
  (lives gs' = lives gs -> gameOver gs' = gameOver gs) /\
  (lives gs' < lives gs -> gameOver gs' = (lives gs' <=? 0)%Z)%Z.
Proof.
  induction bs as [|b rest IH]; intros es gs; simpl.
  - repeat split; intros; (reflexivity || lia).
  - pose proof (collideBullet_state p es gs b) as H.
    destruct (collideBullet p es gs b) as [[b' es1] gs1].
    specialize (IH es1 gs1).
    destruct (collide p es1 gs1 rest) as [[rest' es2] gs2].
    destruct H as (H1 & H2 & H3 & H4 & H5 & H6).
    destruct IH as (I1 & I2 & I3 & I4 & I5 & I6).
    repeat split; try congruence; try lia.
    + intros E. assert (lives gs1 = lives gs)%Z by lia.
      assert (lives gs2 = lives gs1)%Z by lia.
      rewrite I5, H5; auto.
    + intros L. destruct (Z.eq_dec (lives gs2) (lives gs1)) as [E|N].
      * rewrite I5 by assumption. rewrite E. apply H6. lia.
      * apply I6. lia.
Qed.

Lemma lossCheck_state (p : Player) (es : list Enemy) : forall gs,
  score (lossCheck p es gs) = score gs /\
  level (lossCheck p es gs) = level gs /\
  lives (lossCheck p es gs) = lives gs /\
  paused (lossCheck p es gs) = paused gs /\
  (gameOver gs = true -> gameOver (lossCheck p es gs) = true).
Proof.
  unfold lossCheck.
  induction es as [|e rest IH]; intros gs; simpl; [now repeat split|].
  destruct (breached p e).
  - destruct (IH (setGameOver gs)) as (H1 & H2 & H3 & H4 & H5).
    simpl in *. repeat split; auto.
  - apply IH.
Qed.

(** ** Wave generation and wave clear (C4) *)

Lemma initEnemies_layout :
  List.length initEnemies = 50%nat /\
  Forall (fun e : Enemy => active e = true) initEnemies /\
  forall row col : nat, (row < 5)%nat -> (col < 10)%nat ->
    nth_error initEnemies (row * 10 + col)
    = Some (mkEnemy (mkGameObject (inject_Z (100 + 60 * Z.of_nat col))
                                  (inject_Z (50 + 50 * Z.of_nat row))
                                  25 20 true) 1 1).
Proof.
  split; [reflexivity|]. split.
  - vm_compute. repeat constructor.
  - intros row col Hr Hc.
    do 5 (destruct row as [|row]; [
      do 10 (destruct col as [|col]; [vm_compute; reflexivity|]); lia |]).
    lia.
Qed.

(** C4.  In a frame whose collision loop leaves no active enemy the level
    grows by exactly 1 and the wave is replaced by the 50 enemies of the
    5 x 10 grid, all active, enemy (row, col) at x = 100 + 60 col,
    y = 50 + 50 row, 25 x 20, speed 1, direction 1: a constant list that
    does not depend on the wave just cleared. *)
Theorem wave_clear_respawns keys now rnd (g : Game) :
  gameOver (gameState g) = false -> paused (gameState g) = false ->
  activeCount (enemiesAfterCollision (gameState g)
                 (beforeCollision keys now rnd (gameObjects g))) = 0%nat ->
  let g' := updateGame keys now rnd g in
  level (gameState g') = (level (gameState g) + 1)%Z /\
  enemies (gameObjects g') = initEnemies /\
  List.length (enemies (gameObjects g')) = 50%nat /\
  Forall (fun e : Enemy => active e = true) (enemies (gameObjects g')) /\
  forall row col : nat, (row < 5)%nat -> (col < 10)%nat ->
    nth_error (enemies (gameObjects g')) (row * 10 + col)
    = Some (mkEnemy (mkGameObject (inject_Z (100 + 60 * Z.of_nat col))
                                  (inject_Z (50 + 50 * Z.of_nat row))
                                  25 20 true) 1 1).
Proof.
  intros Hgo Hp Hclear g'. subst g'.
  unfold updateGame. rewrite Hgo, Hp. simpl.
  set (o := beforeCollision keys now rnd (gameObjects g)) in *.
  unfold afterCollision, enemiesAfterCollision in *.
  pose proof (collide_state (player o) (bullets o) (enemies o) (gameState g)) as Hst.
  destruct (collide (player o) (enemies o) (gameState g) (bullets o))
    as [[bs6 es6] gs6].
  simpl in Hclear. unfold waveCleared. fold (activeCount es6).
  rewrite Hclear. simpl.
  destruct Hst as (Hl & _).
  destruct (lossCheck_state (player o) es6 (nextLevel gs6)) as (_ & -> & _).
  simpl. rewrite Hl.
  split; [reflexivity|]. split; [reflexivity|].
  exact initEnemies_layout.
Qed.

Lemma wave_clear_respawns_witness :
  level (gameState (updateGame [] 0 (fun _ => 1 # 2) lastEnemy)) = 2%Z.
Proof.
  refine (proj1 (wave_clear_respawns [] 0 (fun _ => 1 # 2) lastEnemy _ _ _));
    vm_compute; reflexivity.
Defined.

(** ** The synchronised wave (C6) *)

Lemma atBoundary_advance (es : list Enemy) :
  existsb atBoundary (map advance es) = true <-> reachesBoundary es.
Proof.
  rewrite existsb_exists. unfold reachesBoundary. split.
  - intros (e' & Hin & Hb). apply in_map_iff in Hin.
    destruct Hin as (e & <- & Hin). exists e. split; [assumption|].
    unfold atBoundary, advance in Hb.
    destruct (active e) eqn:Ha; simpl in Hb.
    + rewrite Ha in Hb. simpl in Hb.
      apply orb_true_iff in Hb. rewrite !Qleb_le in Hb. now split.
    + rewrite Ha in Hb. discriminate.
  - intros (e & Hin & Ha & Hb). exists (advance e).
    split; [now apply in_map|].
    unfold atBoundary, advance. rewrite Ha. simpl. rewrite Ha. simpl.
    apply orb_true_iff. now rewrite !Qleb_le.
Qed.

(** C6.  In the enemy step of a frame, if some active enemy stands on a
    side boundary after its horizontal advance (x <= 0 or x >= 800 - width)
    then every active enemy has its direction negated and its y increased
    by exactly 20; otherwise no enemy changes direction or y.  Inactive
    enemies are never touched. *)
Theorem wave_turns_together keys now rnd (o : GameObjects) :
  forall (i : nat) (e : Enemy), nth_error (enemies o) i = Some e ->
  exists e', nth_error (enemies (beforeCollision keys now rnd o)) i = Some e' /\
    (reachesBoundary (enemies o) -> active e = true ->
       direction e' == - direction e /\ y e' == y e + 20 /\
       active e' = true) /\
    (~ reachesBoundary (enemies o) ->
       direction e' = direction e /\ y e' = y e) /\
    (active e = false -> e' = e).
Proof.
  intros i e Hi. rewrite beforeCollision_enemies. unfold updateEnemies.
  destruct (existsb atBoundary (map advance (enemies o))) eqn:Hb.
  - apply atBoundary_advance in Hb.
    exists (descend (advance e)). split.
    { rewrite !nth_error_map, Hi. reflexivity. }
    split; [|split].
    + intros _ Ha. unfold descend, advance. rewrite Ha. simpl. rewrite Ha. simpl.
      split; [ring | split; [reflexivity | exact Ha]].
    + intros Hn. contradiction.
    + intros Ha. unfold descend, advance. rewrite Ha. now rewrite Ha.
  - assert (Hn : ~ reachesBoundary (enemies o)).
    { intros H. apply atBoundary_advance in H. congruence. }
    exists (advance e). split.
    { rewrite nth_error_map, Hi. reflexivity. }
    split; [|split].
    + intros H. contradiction.
    + intros _. unfold advance. destruct (active e); split; reflexivity.
    + intros Ha. unfold advance. now rewrite Ha.
Qed.

Lemma wave_turns_together_witness :
  exists e', nth_error (enemies (beforeCollision [] 0 (fun _ => 1 # 2) waveAtEdge)) 0
             = Some e' /\ direction e' == - (1) /\ y e' == 70.
Proof.
  destruct (wave_turns_together [] 0 (fun _ => 1 # 2) waveAtEdge 0
              (mkEnemy (mkGameObject 234 50 25 20 true) 1 1) eq_refl)
    as (e' & He & Hturn & _).
  exists e'. split; [exact He|].
  destruct Hturn as (Hd & Hy & _).
  - exists (mkEnemy (mkGameObject 774 50 25 20 true) 1 1).
    split; [right; left; reflexivity|]. split; [reflexivity|].
    right. vm_compute. discriminate.
  - reflexivity.
  - split; [exact Hd | exact Hy].
Defined.

(** ** The player stays in its box (C2) *)

Lemma inject_Z_shift (i k : Z) : inject_Z (i + k) == inject_Z i + inject_Z k.
Proof. rewrite inject_Z_plus. reflexivity. Qed.

Lemma lattice_pos (i : Z) (q : Q) : q == 5 * inject_Z i -> 0 < q -> (0 < i)%Z.
Proof.
  intros E H. rewrite E in H.
  rewrite Zlt_Qlt. change (inject_Z 0) with 0. lra.
Qed.

Lemma lattice_lt (i k : Z) (q : Q) :
  q == 5 * inject_Z i -> q < 5 * inject_Z k -> (i < k)%Z.
Proof.
  intros E H. rewrite E in H. rewrite Zlt_Qlt. lra.
Qed.

Lemma lattice_gt (i k : Z) (q : Q) :
  q == 5 * inject_Z i -> 5 * inject_Z k < q -> (k < i)%Z.
Proof.
  intros E H. rewrite E in H. rewrite Zlt_Qlt. lra.
Qed.

Lemma lattice_step (i k : Z) (q : Q) :
  q == 5 * inject_Z i -> q + 5 * inject_Z k == 5 * inject_Z (i + k).
Proof. intros E. rewrite inject_Z_shift, E. ring. Qed.

Lemma PlayerOK_initial : PlayerOK initialPlayer.
Proof.
  unfold PlayerOK. do 3 (split; [reflexivity|]).
  exists 80%Z, 110%Z. repeat split; try lia; reflexivity.
Qed.

Lemma PlayerOK_moveLeft keys (p : Player) : PlayerOK p -> PlayerOK (moveLeft keys p).
Proof.
  intros HP. pose proof HP as (Hw & Hh & Hs & i & j & Hi & Hj & Hx & Hy). unfold moveLeft.
  destruct (has keys "ArrowLeft" && Qltb 0 (x p)) eqn:E; [|exact HP].
  apply andb_true_iff in E. destruct E as [_ E]. apply Qltb_lt in E.
  pose proof (lattice_pos _ _ Hx E).
  unfold PlayerOK. simpl. do 3 (split; [assumption|]).
  exists (i + -1)%Z, j. repeat split; try lia; try assumption.
  rewrite Hs, <- (lattice_step i (-1) _ Hx). simpl. ring.
Qed.

Lemma PlayerOK_moveRight keys (p : Player) : PlayerOK p -> PlayerOK (moveRight keys p).
Proof.
  intros HP. pose proof HP as (Hw & Hh & Hs & i & j & Hi & Hj & Hx & Hy). unfold moveRight.
  destruct (has keys "ArrowRight" && Qltb (x p) (CANVAS_WIDTH - width p)) eqn:E;
    [|exact HP].
  apply andb_true_iff in E. destruct E as [_ E]. apply Qltb_lt in E.
  rewrite Hw in E. unfold CANVAS_WIDTH in E.
  assert (i < 154)%Z by (apply (lattice_lt i 154 _ Hx); unfold inject_Z; lra).
  unfold PlayerOK. simpl. do 3 (split; [assumption|]).
  exists (i + 1)%Z, j. repeat split; try lia; try assumption.
  rewrite Hs, <- (lattice_step i 1 _ Hx). simpl. ring.
Qed.

Lemma PlayerOK_moveUp keys (p : Player) : PlayerOK p -> PlayerOK (moveUp keys p).
Proof.
  intros HP. pose proof HP as (Hw & Hh & Hs & i & j & Hi & Hj & Hx & Hy). unfold moveUp.
  destruct (has keys "ArrowUp" && Qltb (CANVAS_HEIGHT / 2) (y p)) eqn:E;
    [|exact HP].
  apply andb_true_iff in E. destruct E as [_ E]. apply Qltb_lt in E.
  assert (E300 : CANVAS_HEIGHT / 2 == 300) by reflexivity.
  rewrite E300 in E.
  assert (60 < j)%Z by (apply (lattice_gt j 60 _ Hy); unfold inject_Z; lra).
  unfold PlayerOK. simpl. do 3 (split; [assumption|]).
  exists i, (j + -1)%Z. repeat split; try lia; try assumption.
  rewrite Hs, <- (lattice_step j (-1) _ Hy). simpl. ring.
Qed.

Lemma PlayerOK_moveDownKey keys (p : Player) :
  PlayerOK p -> PlayerOK (moveDownKey keys p).
Proof.
  intros HP. pose proof HP as (Hw & Hh & Hs & i & j & Hi & Hj & Hx & Hy). unfold moveDownKey.
  destruct (has keys "ArrowDown" && Qltb (y p) (CANVAS_HEIGHT - height p)) eqn:E;
    [|exact HP].
  apply andb_true_iff in E. destruct E as [_ E]. apply Qltb_lt in E.
  rewrite Hh in E. unfold CANVAS_HEIGHT in E.
  assert (j < 116)%Z by (apply (lattice_lt j 116 _ Hy); unfold inject_Z; lra).
  unfold PlayerOK. simpl. do 3 (split; [assumption|]).
  exists i, (j + 1)%Z. repeat split; try lia; try assumption.
  rewrite Hs, <- (lattice_step j 1 _ Hy). simpl. ring.
Qed.

#[local] Hint Resolve PlayerOK_initial PlayerOK_moveLeft PlayerOK_moveRight
  PlayerOK_moveUp PlayerOK_moveDownKey : game.

Lemma PlayerOK_movePlayer keys (p : Player) : PlayerOK p -> PlayerOK (movePlayer keys p).
Proof. intros H. unfold movePlayer. auto with game. Qed.

Lemma shoot_player keys now (p : Player) (bs : list Bullet) :
  player_obj (fst (shoot keys now p bs)) = player_obj p /\
  player_speed (fst (shoot keys now p bs)) = player_speed p.
Proof.
  unfold shoot. destruct (has keys "Space" && cooldownOver now p); now split.
Qed.

Lemma PlayerOK_obj (p q : Player) :
  player_obj q = player_obj p -> player_speed q = player_speed p ->
  PlayerOK p -> PlayerOK q.
Proof. unfold PlayerOK. intros -> ->. trivial. Qed.

Lemma PlayerOK_updateGame keys now rnd (g : Game) :
  PlayerOK (player (gameObjects g)) ->
  PlayerOK (player (gameObjects (updateGame keys now rnd g))).
Proof.
  intros H. unfold updateGame.
  destruct (gameOver (gameState g) || paused (gameState g)); [assumption|].
  rewrite afterCollision_player, beforeCollision_player.
  destruct (shoot_player keys now (movePlayer keys (player (gameObjects g)))
              (bullets (gameObjects g))) as [Ho Hs].
  apply (PlayerOK_obj _ _ Ho Hs). now apply PlayerOK_movePlayer.
Qed.

Lemma PlayerOK_handleRestart (code : string) (g : Game) :
  PlayerOK (player (gameObjects g)) ->
  PlayerOK (player (gameObjects (handleRestart code g))).
Proof.
  intros H. unfold handleRestart.
  destruct (String.eqb code "KeyR" && gameOver (gameState g)); [|assumption].
  apply PlayerOK_initial.
Qed.

#[local] Hint Resolve PlayerOK_handleRestart PlayerOK_updateGame : game.

Lemma PlayerOK_reachable (s : Session) :
  reachable s -> PlayerOK (player (gameObjects (game s))).
Proof.
  revert s. apply reachable_ind_inv.
  - intros rnd. apply PlayerOK_initial.
  - intros s [code | code | now rnd] H; simpl; auto with game.
Qed.

(** C2.  In every state reached from mount by key events and frames
    (any keys held, any clock, any random draws, restarts included) the
    player's x lies in [0, 800 - 30] and its y in [300, 600 - 20]. *)
Theorem player_in_bounds (s : Session) :
  reachable s ->
  let p := player (gameObjects (game s)) in
  0 <= x p /\ x p <= 800 - 30 /\ 300 <= y p /\ y p <= 600 - 20.
Proof.
  intros Hr p. subst p.
  destruct (PlayerOK_reachable s Hr) as (_ & _ & _ & i & j & Hi & Hj & Hx & Hy).
  rewrite Hx, Hy.
  assert (inject_Z 0 <= inject_Z i) by (rewrite <- Zle_Qle; lia).
  assert (inject_Z i <= inject_Z 154) by (rewrite <- Zle_Qle; lia).
  assert (inject_Z 60 <= inject_Z j) by (rewrite <- Zle_Qle; lia).
  assert (inject_Z j <= inject_Z 116) by (rewrite <- Zle_Qle; lia).
  change (inject_Z 0) with 0 in *. change (inject_Z 154) with 154 in *.
  change (inject_Z 60) with 60 in *. change (inject_Z 116) with 116 in *.
  repeat split; lra.
Qed.

Lemma player_in_bounds_witness :
  let p := player (gameObjects (game (run (mount (fun _ => 0)) volley))) in
  0 <= x p /\ x p <= 800 - 30 /\ 300 <= y p /\ y p <= 600 - 20.
Proof.
  apply (player_in_bounds (run (mount (fun _ => 0)) volley)).
  apply reachable_run. constructor.
Defined.

(** ** The fire cooldown (C8) *)

Lemma shoot_blocked keys now (p : Player) (bs : list Bullet) (t : Z) :
  lastShot p = Some t -> t <> 0%Z -> (now - t <= 200)%Z ->
  shoot keys now p bs = (p, bs).
Proof.
  intros Hl Ht Hd. unfold shoot, cooldownOver. rewrite Hl.
  apply Z.eqb_neq in Ht. rewrite Ht.
  assert (H : (200 <? now - t)%Z = false) by (apply Z.ltb_ge; lia).
  rewrite H. now rewrite andb_false_r.
Qed.

Lemma shoot_fires keys now (p : Player) (bs : list Bullet) :
  has keys "Space" = true -> cooldownOver now p = true ->
  shoot keys now p bs
  = (mkPlayer p (player_speed p) (Some now), bs ++ [playerBullet p]).
Proof. intros Hk Hc. unfold shoot. now rewrite Hk, Hc. Qed.

Lemma movePlayer_lastShot keys (p : Player) :
  lastShot (movePlayer keys p) = lastShot p.
Proof.
  unfold movePlayer, moveDownKey, moveUp, moveRight, moveLeft.
  repeat match goal with
         | |- context [if ?c then _ else _] => destruct c
         end; reflexivity.
Qed.

Lemma updateBullet_owner (b : Bullet) :
  isPlayerBullet (updateBullet b) = isPlayerBullet b.
Proof. unfold updateBullet. now destruct (isPlayerBullet b) eqn:E; cbn. Qed.

Lemma playerBullets_advance (bs : list Bullet) :
  filter isPlayerBullet (map updateBullet bs)
  = map updateBullet (filter isPlayerBullet bs).
Proof.
  induction bs as [|b rest IH]; [reflexivity|].
  cbn [map filter]. rewrite updateBullet_owner, IH.
  now destruct (isPlayerBullet b).
Qed.

Lemma playerBullets_enemyShoot rnd n (es : list Enemy) (bs : list Bullet) :
  filter isPlayerBullet (enemyShoot rnd n es bs) = filter isPlayerBullet bs.
Proof.
  unfold enemyShoot.
  destruct (Qltb (rnd n) (2 # 100)); [|reflexivity].
  destruct (0 <? _)%nat; [|reflexivity].
  destruct (pick _ _) as [shooter|]; [|reflexivity].
  rewrite filter_app. cbn. apply app_nil_r.
Qed.

(** C8: the code breaks the sentence of the specification at one clock
    reading.  The test [!player.lastShot] is meant for a player that has
    not fired yet, but it also holds for the timestamp 0: with the fire key
    held, a bullet is spawned in a frame in which [Date.now()] is 0, and a
    second one in the next frame, 100 ms later, although the recorded
    timestamp is only 100 ms old. *)
Lemma epoch_shot_ignores_cooldown :
  let s1 := run (mount (fun _ => 0)) [KeyDown "Space"; tick 0] in
  let s2 := step s1 (tick 100) in
  has (keysRef s1) "Space" = true /\
  lastShot (player (gameObjects (game s1))) = Some 0%Z /\
  (100 - 0 <= 200)%Z /\
  List.length (bullets (gameObjects (game s1))) = 1%nat /\
  List.length (bullets (gameObjects (game s2))) = 2%nat.
Proof. vm_compute. repeat split; discriminate. Qed.

(** X21.  Away from the timestamp 0 the cooldown works as the
    specification says.  With a non-zero last-shot timestamp at most 200 ms
    old the firing step spawns nothing, whatever keys are held, and the
    player bullets of the frame at collision time are the old ones,
    advanced.  Two firing steps with the fire key held, the first by a
    player that has not fired yet or fired more than 200 ms before, at a
    non-zero clock reading, and the second at most 200 ms later, add
    exactly one bullet between them: an active player bullet, 4 wide,
    whose centre is the player's horizontal midpoint and whose y is the
    player's top edge. *)
Theorem fire_cooldown :
  (forall keys now (p : Player) (bs : list Bullet) (t : Z),
     lastShot p = Some t -> t <> 0%Z -> (now - t <= 200)%Z ->
     shoot keys now p bs = (p, bs)) /\
  (forall keys now rnd (o : GameObjects) (t : Z),
     lastShot (player o) = Some t -> t <> 0%Z -> (now - t <= 200)%Z ->
     filter isPlayerBullet (bullets (beforeCollision keys now rnd o))
     = map updateBullet (filter isPlayerBullet (bullets o))) /\
  (forall keys1 keys2 now1 now2 (p : Player) (bs : list Bullet),
     has keys1 "Space" = true -> has keys2 "Space" = true ->
     (lastShot p = None \/
      exists t, lastShot p = Some t /\ (200 < now1 - t)%Z) ->
     now1 <> 0%Z -> (now2 - now1 <= 200)%Z ->
     let (p1, bs1) := shoot keys1 now1 p bs in
     let (p2, bs2) := shoot keys2 now2 p1 bs1 in
     let b := playerBullet p in
     bs2 = bs ++ [b] /\ p2 = p1 /\ player_obj p1 = player_obj p /\
     lastShot p1 = Some now1 /\
     isPlayerBullet b = true /\ active b = true /\ width b = 4 /\
     x b + width b / 2 == x p + width p / 2 /\ y b = y p).
Proof.
  split; [|split].
  - exact shoot_blocked.
  - intros keys now rnd o t Hl Ht Hd. unfold beforeCollision.
    destruct (updateStars rnd 0 (stars o)) as [ss n].
    rewrite (shoot_blocked keys now (movePlayer keys (player o)) _ t)
      by (try rewrite movePlayer_lastShot; assumption).
    cbn [bullets].
    now rewrite playerBullets_enemyShoot, playerBullets_advance.
  - intros keys1 keys2 now1 now2 p bs Hk1 Hk2 Hfree Hn Hd.
    assert (Hc : cooldownOver now1 p = true).
    { unfold cooldownOver. destruct Hfree as [-> | (t & -> & Ht)]; [reflexivity|].
      apply orb_true_iff. right. now apply Z.ltb_lt. }
    rewrite (shoot_fires keys1 now1 p bs Hk1 Hc).
    rewrite (shoot_blocked keys2 now2 (mkPlayer p (player_speed p) (Some now1))
               _ now1 eq_refl Hn Hd).
    cbv zeta. repeat split; try reflexivity.
    simpl. field.
Qed.

Lemma fire_cooldown_witness :
  (let (p1, bs1) := shoot ["Space"%string] 1000 initialPlayer [] in
   let (p2, bs2) := shoot ["Space"%string] 1150 p1 bs1 in
   let b := playerBullet initialPlayer in
   bs2 = [] ++ [b] /\ p2 = p1 /\ player_obj p1 = player_obj initialPlayer /\
   lastShot p1 = Some 1000%Z /\
   isPlayerBullet b = true /\ active b = true /\ width b = 4 /\
   x b + width b / 2 == x initialPlayer + width initialPlayer / 2 /\
   y b = y initialPlayer) /\
  shoot ["Space"%string] 1150 (mkPlayer initialPlayer 5 (Some 1000%Z)) []
  = (mkPlayer initialPlayer 5 (Some 1000%Z), []).
Proof.
  split.
  - apply (proj2 (proj2 fire_cooldown) ["Space"%string] ["Space"%string]
             1000%Z 1150%Z initialPlayer []);
      [reflexivity | reflexivity | left; reflexivity | discriminate
      | vm_compute; discriminate].
  - apply (proj1 fire_cooldown ["Space"%string] 1150%Z _ [] 1000%Z);
      [reflexivity | discriminate | vm_compute; discriminate].
Defined.

(** ** Lives and game over (C3) *)

Lemma afterCollision_gameState (gs : GameState) (o : GameObjects) :
  let gs' := gameState (afterCollision gs o) in
  (lives gs' <= lives gs)%Z /\
  (lives gs' < lives gs -> lives gs' <= 0 -> gameOver gs' = true)%Z /\
  paused gs' = paused gs.
Proof.
  intros gs'. subst gs'. unfold afterCollision.
  pose proof (collide_state (player o) (bullets o) (enemies o) gs) as Hst.
  destruct (collide (player o) (enemies o) gs (bullets o)) as [[bs6 es6] gs6].
  destruct Hst as (_ & Hp & _ & Hle & _ & Hlt). simpl.
  set (gs8 := if waveCleared es6 then nextLevel gs6 else gs6).
  assert (H8 : lives gs8 = lives gs6 /\ gameOver gs8 = gameOver gs6
               /\ paused gs8 = paused gs6).
  { unfold gs8. destruct (waveCleared es6); now repeat split. }
  destruct H8 as (H8l & H8g & H8p).
  destruct (lossCheck_state (player o) es6 gs8) as (_ & _ & Hl & Hpa & Hgo).
  rewrite Hl, Hpa, H8l, H8p. repeat split; try assumption.
  intros Hdec Hz. apply Hgo. rewrite H8g, (Hlt Hdec).
  now apply Z.leb_le.
Qed.

Lemma lives_guard_reachable (s : Session) :
  reachable s ->
  (lives (gameState (game s)) <= 3)%Z /\
  paused (gameState (game s)) = false /\
  ((lives (gameState (game s)) <= 0)%Z -> gameOver (gameState (game s)) = true).
Proof.
  revert s. apply reachable_ind_inv.
  - intros rnd. simpl. repeat split; lia.
  - intros s [code | code | now rnd] (H3 & Hp & Hz); simpl.
    + unfold handleRestart.
      destruct (String.eqb code "KeyR" && gameOver (gameState (game s)));
        simpl; repeat split; auto; lia.
    + now repeat split.
    + unfold updateGame.
      destruct (gameOver (gameState (game s))) eqn:Hgo; simpl;
        [now repeat split|].
      rewrite Hp.
      destruct (afterCollision_gameState (gameState (game s))
                  (beforeCollision (keysRef s) now rnd (gameObjects (game s))))
        as (Hle & Hdec & Hpa).
      repeat split.
      * lia.
      * congruence.
      * intros Hneg. apply Hdec; [|assumption].
        destruct (Z_le_gt_dec (lives (gameState (game s))) 0) as [L|G];
          [|lia].
        apply Hz in L. congruence.
Qed.

(** C3: the sentence of the specification fails.  After 142 frames of the
    run [barrage] the idle player has 2 lives left and three enemy bullets
    stand 3 units above the reach of its box; the next frame moves each of
    them onto the player, and the counter ends at -1. *)
Lemma lives_negative_reachable :
  let s := run (mount (fun _ => 0)) (firstn 142 barrage) in
  let s' := step s (tick 0) in
  reachable s /\ reachable s' /\
  gameState (game s) = mkGameState 0 1 2 false false /\
  keysRef s = [] /\
  player_obj (player (gameObjects (game s))) = mkGameObject 400 550 30 20 true /\
  bullets (gameObjects (game s))
  = [mkBullet (mkGameObject (825 # 2) 540 4 8 true) 3 false;
     mkBullet (mkGameObject (857 # 2) 542 4 8 true) 3 false;
     mkBullet (mkGameObject (805 # 2) 540 4 8 true) 3 false] /\
  gameState (game s') = mkGameState 0 1 (-1) true false /\
  (lives (gameState (game s')) < 0)%Z.
Proof.
  cbv zeta. split; [|split].
  - apply reachable_run. apply reach_mount.
  - apply reach_step. apply reachable_run. apply reach_mount.
  - vm_compute. repeat split.
Qed.

(** C3 (amended).  In every frame in which the lives counter is decremented
    to 0 or below, game-over is true at the end of that frame; and in every
    reachable state the counter is at most 3 and is positive unless the
    game is over. *)
Theorem lives_exhausted_ends_game :
  (forall keys now rnd (g : Game),
     let g' := updateGame keys now rnd g in
     (lives (gameState g') < lives (gameState g))%Z ->
     (lives (gameState g') <= 0)%Z ->
     gameOver (gameState g') = true) /\
  (forall s : Session, reachable s ->
     (lives (gameState (game s)) <= 3)%Z /\
     ((lives (gameState (game s)) <= 0)%Z ->
      gameOver (gameState (game s)) = true)).
Proof.
  split.
  - intros keys now rnd g g'. subst g'. unfold updateGame.
    destruct (gameOver (gameState g) || paused (gameState g)); [lia|].
    apply afterCollision_gameState.
  - intros s Hr. destruct (lives_guard_reachable s Hr) as (H3 & _ & Hz).
    now split.
Qed.

Lemma lives_exhausted_ends_game_witness :
  gameOver (gameState (updateGame [] 0 (fun _ => 1 # 2) lastLife)) = true.
Proof.
  apply (proj1 lives_exhausted_ends_game [] 0%Z (fun _ => 1 # 2) lastLife);
    vm_compute; [reflexivity | discriminate].
Defined.

(** ** Collision resolution (C5, C1) *)

Lemma deactivateEnemy_inactive (e : Enemy) : active (deactivateEnemy e) = false.
Proof. reflexivity. Qed.

Lemma hitEnemy_hit (b : Bullet) (gs : GameState) (e : Enemy) :
  active e = true -> overlaps b e = true ->
  hitEnemy b gs e = (deactivateEnemy e, deactivateBullet b, addScore gs).
Proof. intros Ha Ho. unfold hitEnemy. now rewrite Ha, Ho. Qed.

Lemma hitEnemy_miss (b : Bullet) (gs : GameState) (e : Enemy) :
  overlaps b e = false -> hitEnemy b gs e = (e, b, gs).
Proof. intros Ho. unfold hitEnemy. now rewrite Ho, andb_false_r. Qed.

Lemma activeCount_cons (e : Enemy) (es : list Enemy) :
  activeCount (e :: es) = ((if active e then 1 else 0) + activeCount es)%nat.
Proof. unfold activeCount. simpl. now destruct (active e). Qed.

(** The inner loop: every enemy passing the test is deactivated, the
    bullet is deactivated if any does, and 10 is scored for each. *)
Lemma hitEnemies_spec (es : list Enemy) : forall (b : Bullet) (gs : GameState),
  let '(es', b', gs') := hitEnemies b gs es in
  es' = map (fun e => if hitTest b e then deactivateEnemy e else e) es /\
  b' = (if existsb (hitTest b) es then deactivateBullet b else b) /\
  score gs' = (score gs + 10 * Z.of_nat (List.length (filter (hitTest b) es)))%Z /\
  activeCount es = (activeCount es' + List.length (filter (hitTest b) es))%nat.
Proof.
  induction es as [|e rest IH]; intros b gs.
  - simpl. repeat split. lia.
  - cbn [hitEnemies map existsb filter]. unfold hitEnemy. fold (hitTest b e).
    destruct (hitTest b e) eqn:Ht.
    + specialize (IH (deactivateBullet b) (addScore gs)).
      destruct (hitEnemies (deactivateBullet b) (addScore gs) rest)
        as [[rest' b''] gs''].
      destruct IH as (I1 & I2 & I3 & I4).
      change (hitTest (deactivateBullet b)) with (hitTest b) in *.
      rewrite !activeCount_cons. cbn [orb List.length].
      unfold hitTest in Ht. apply andb_true_iff in Ht. destruct Ht as [Ha _].
      rewrite Ha. simpl activeCount. repeat split.
      * now rewrite I1.
      * rewrite I2. now destruct (existsb (hitTest b) rest).
      * rewrite I3. unfold addScore. cbn [score]. rewrite Nat2Z.inj_succ. lia.
      * rewrite I4, deactivateEnemy_inactive. lia.
    + specialize (IH b gs).
      destruct (hitEnemies b gs rest) as [[rest' b''] gs''].
      destruct IH as (I1 & I2 & I3 & I4).
      rewrite !activeCount_cons. cbn [orb]. repeat split.
      * now rewrite I1.
      * exact I2.
      * exact I3.
      * rewrite I4. lia.
Qed.

Lemma mark_nil (e : Enemy) : mark [] e = e.
Proof. unfold mark. simpl. now rewrite andb_false_r. Qed.

Lemma mark_cons (b : Bullet) (bs : list Bullet) (e : Enemy) :
  mark bs (if active b && isPlayerBullet b && hitTest b e
           then deactivateEnemy e else e)
  = mark (b :: bs) e.
Proof.
  unfold mark, hitTest. cbn [shotAt existsb].
  destruct (active e) eqn:Ha; cbn [andb].
  - destruct (active b && isPlayerBullet b) eqn:Hb; cbn [andb orb].
    + destruct (overlaps b e) eqn:Ho; cbn [andb orb].
      * reflexivity.
      * now rewrite Ha.
    + now rewrite Ha.
  - rewrite !andb_false_r. now rewrite Ha.
Qed.

Lemma collideBullet_enemies (p : Player) (es : list Enemy) (gs : GameState)
  (b : Bullet) :
  snd (fst (collideBullet p es gs b)) = map (mark [b]) es.
Proof.
  unfold collideBullet.
  assert (Hid : forall f : Enemy -> Enemy, (forall e, f e = e) -> es = map f es).
  { intros f Hf. rewrite (map_ext f (fun e => e)) by assumption. now rewrite map_id. }
  destruct (active b) eqn:Ha; cbn [negb].
  - destruct (isPlayerBullet b) eqn:Hp.
    + pose proof (hitEnemies_spec es b gs) as H.
      destruct (hitEnemies b gs es) as [[es' b'] gs'].
      destruct H as (-> & _). cbn [fst snd].
      apply map_ext. intros e. rewrite <- (mark_cons b [] e), Ha, Hp. cbn [andb].
      now rewrite mark_nil.
    + assert (He : forall e, mark [b] e = e).
      { intros e. unfold mark. cbn. rewrite Ha, Hp. cbn.
        now rewrite andb_false_r. }
      destruct (overlaps b p); cbn [fst snd]; now apply Hid.
  - cbn [fst snd]. apply Hid. intros e. unfold mark. cbn. rewrite Ha. cbn.
    now rewrite andb_false_r.
Qed.

Lemma collide_enemies (p : Player) (bs : list Bullet) : forall es gs,
  snd (fst (collide p es gs bs)) = map (mark bs) es.
Proof.
  induction bs as [|b rest IH]; intros es gs; cbn [collide].
  - cbn [fst snd]. rewrite (map_ext (mark []) (fun e => e)) by apply mark_nil.
    now rewrite map_id.
  - pose proof (collideBullet_enemies p es gs b) as Hb.
    destruct (collideBullet p es gs b) as [[b' es1] gs1]. cbn [fst snd] in Hb.
    specialize (IH es1 gs1).
    destruct (collide p es1 gs1 rest) as [[rest' es2] gs2]. cbn [fst snd] in *.
    rewrite IH, Hb, map_map. apply map_ext. intros e.
    rewrite <- (mark_cons b rest e).
    f_equal. rewrite <- (mark_cons b [] e), mark_nil. reflexivity.
Qed.

Lemma collide_app (p : Player) (pre post : list Bullet) : forall es gs,
  collide p es gs (pre ++ post)
  = let '(pre', es1, gs1) := collide p es gs pre in
    let '(post', es2, gs2) := collide p es1 gs1 post in
    (pre' ++ post', es2, gs2).
Proof.
  induction pre as [|b pre IH]; intros es gs; cbn [collide app].
  - now destruct (collide p es gs post) as [[post' es2] gs2].
  - destruct (collideBullet p es gs b) as [[b' es1] gs1].
    rewrite IH.
    destruct (collide p es1 gs1 pre) as [[pre' es2] gs2].
    now destruct (collide p es2 gs2 post) as [[post' es3] gs3].
Qed.

Lemma collide_length (p : Player) (bs : list Bullet) : forall es gs,
  List.length (fst (fst (collide p es gs bs))) = List.length bs.
Proof.
  induction bs as [|b rest IH]; intros es gs; cbn [collide]; [reflexivity|].
  destruct (collideBullet p es gs b) as [[b' es1] gs1].
  specialize (IH es1 gs1).
  destruct (collide p es1 gs1 rest) as [[rest' es2] gs2].
  cbn [fst] in *. simpl. now rewrite IH.
Qed.

(** The bullet that follows [pre] meets the enemies marked by [pre]. *)
Lemma collide_turn (p : Player) (pre post : list Bullet) (b : Bullet)
  (es : list Enemy) (gs : GameState) :
  exists gs_k,
    turnOf p es gs pre = (map (mark pre) es, gs_k) /\
    nth_error (fst (fst (collide p es gs (pre ++ b :: post)))) (List.length pre)
    = Some (fst (fst (collideBullet p (map (mark pre) es) gs_k b))).
Proof.
  unfold turnOf. rewrite collide_app.
  pose proof (collide_enemies p pre es gs) as He.
  pose proof (collide_length p pre es gs) as Hl.
  destruct (collide p es gs pre) as [[pre' es1] gs1]. cbn [fst snd] in *.
  subst es1. exists gs1. split; [reflexivity|].
  cbn [collide].
  destruct (collideBullet p (map (mark pre) es) gs1 b) as [[b' es2] gs2].
  destruct (collide p es2 gs2 post) as [[post' es3] gs3]. cbn [fst].
  rewrite nth_error_app2 by lia. rewrite Hl, Nat.sub_diag. reflexivity.
Qed.

Lemma hitEnemies_none (es : list Enemy) (b : Bullet) (gs : GameState) :
  (forall e, In e es -> hitTest b e = false) ->
  hitEnemies b gs es = (es, b, gs).
Proof.
  induction es as [|e rest IH]; intros H; cbn [hitEnemies]; [reflexivity|].
  unfold hitEnemy. fold (hitTest b e).
  rewrite (H e) by now left.
  rewrite IH; [reflexivity|]. intros e' He'. apply H. now right.
Qed.

Lemma collideBullet_account (p : Player) (es : list Enemy) (gs : GameState)
  (b : Bullet) :
  let '(b', es', gs') := collideBullet p es gs b in
  score gs' = (score gs + 10 * (Z.of_nat (activeCount es) - Z.of_nat (activeCount es')))%Z /\
  lives gs' = (lives gs - (if strikes p b then 1 else 0))%Z.
Proof.
  unfold collideBullet, strikes.
  destruct (active b); cbn [negb andb]; [|cbv beta iota; split; lia].
  destruct (isPlayerBullet b); cbn [negb andb].
  - pose proof (hitEnemies_spec es b gs) as H.
    pose proof (hitEnemies_state b gs es) as H'.
    destruct (hitEnemies b gs es) as [[es' b'] gs'].
    destruct H as (_ & _ & Hs & Hc). destruct H' as (_ & Hl & _).
    split; lia.
  - destruct (overlaps b p); cbv beta iota; unfold loseLife; cbn [score lives];
      split; lia.
Qed.

Lemma collide_account (p : Player) (bs : list Bullet) : forall es gs,
  let '(bs', es', gs') := collide p es gs bs in
  score gs' = (score gs + 10 * (Z.of_nat (activeCount es) - Z.of_nat (activeCount es')))%Z /\
  lives gs' = (lives gs - Z.of_nat (List.length (filter (strikes p) bs)))%Z.
Proof.
  induction bs as [|b rest IH]; intros es gs; cbn [collide filter].
  - cbn [List.length]. split; lia.
  - pose proof (collideBullet_account p es gs b) as Hb.
    destruct (collideBullet p es gs b) as [[b' es1] gs1].
    specialize (IH es1 gs1).
    destruct (collide p es1 gs1 rest) as [[rest' es2] gs2].
    destruct Hb as [Hs Hl]. destruct IH as [Is Il].
    destruct (strikes p b); cbn [List.length]; try rewrite Nat2Z.inj_succ;
      split; lia.
Qed.

Lemma mark_box (bs : list Bullet) (e : Enemy) (b : Bullet) :
  overlaps b (mark bs e) = overlaps b e /\
  (active (mark bs e) = true -> active e = true /\ mark bs e = e /\ shotAt bs e = false).
Proof.
  unfold mark. destruct (active e) eqn:Ha; cbn [andb].
  - destruct (shotAt bs e); split; try reflexivity.
    + discriminate.
    + now repeat split.
  - split; [reflexivity|]. congruence.
Qed.

(** C5: the sentence of the specification fails.  In the frame that follows the run
    [volley], two active player bullets overlap the same active enemy at
    collision time.  The first deactivates it; the second is left active
    and stays in the bullet list, and 10 is scored once. *)
Lemma second_bullet_survives :
  let s := run (mount (fun _ => 0)) volley in
  let o := beforeCollision (keysRef s) 0 (fun _ => 1 # 2) (gameObjects (game s)) in
  let g' := game (step s (tick 0)) in
  let b1 := mkBullet (mkGameObject (786 # 2) 265 4 10 true) 8 true in
  let b2 := mkBullet (mkGameObject (786 # 2) 268 4 10 true) 8 true in
  let e := mkEnemy (mkGameObject 379 250 25 20 true) 1 1 in
  reachable s /\
  gameState (game s) = mkGameState 0 1 3 false false /\
  bullets o = [b1; b2] /\ nth_error (enemies o) 44 = Some e /\
  overlaps b1 e = true /\ overlaps b2 e = true /\
  gameState g' = mkGameState 10 1 3 false false /\
  bullets (gameObjects g') = [b2] /\
  nth_error (enemies (gameObjects g')) 44 = Some (deactivateEnemy e).
Proof.
  cbv zeta. split; [apply reachable_run; constructor|].
  vm_compute. repeat split.
Qed.

(** A bullet leaves its turn as it was or deactivated. *)
Lemma collideBullet_bullet (p : Player) (es : list Enemy) (gs : GameState)
  (b : Bullet) :
  fst (fst (collideBullet p es gs b)) = b \/
  fst (fst (collideBullet p es gs b)) = deactivateBullet b.
Proof.
  unfold collideBullet.
  destruct (negb (active b)); [now left|].
  destruct (isPlayerBullet b).
  - pose proof (hitEnemies_spec es b gs) as H.
    destruct (hitEnemies b gs es) as [[es' b'] gs'].
    destruct H as (_ & -> & _). cbn [fst].
    destruct (existsb (hitTest b) es); auto.
  - destruct (overlaps b p); cbn [fst]; auto.
Qed.

(** A bullet whose active targets have all been shot by the bullets of
    [pre] finds no enemy left to hit when its turn comes. *)
Lemma spent_targets (pre : list Bullet) (b : Bullet) (es : list Enemy) :
  (forall e, In e es -> active e = true -> overlaps b e = true ->
             shotAt pre e = true) ->
  forall e', In e' (map (mark pre) es) -> hitTest b e' = false.
Proof.
  intros H e' He'. apply in_map_iff in He'. destruct He' as (e & <- & Hin).
  unfold hitTest. destruct (mark_box pre e b) as [Hbox Hact]. rewrite Hbox.
  destruct (active (mark pre e)) eqn:Ha; [|reflexivity].
  destruct (Hact eq_refl) as (Hae & _ & Hs). cbn [andb].
  destruct (overlaps b e) eqn:Ho; [|reflexivity].
  rewrite (H e Hin Hae Ho) in Hs. discriminate.
Qed.

(** C5 (amended).  The test of one bullet against one enemy deactivates
    both and adds exactly 10 when the enemy is active and the boxes
    overlap, and changes nothing when the boxes do not overlap or when the
    enemy is inactive; an enemy bullet that does not overlap the player
    changes nothing.  For a whole pass: every enemy that is active and
    overlapped by an active player bullet ends inactive, every enemy
    overlapped by none is unchanged, the score grows by 10 per enemy
    deactivated, the lives drop by one per active enemy bullet on the
    player.  Every bullet leaves the pass either as it was or deactivated:
    a bullet that overlaps no active target is unchanged; an active player
    bullet is deactivated when it overlaps an active enemy that no earlier
    bullet of the pass overlaps; and a player bullet all of whose active
    targets are overlapped by earlier active player bullets of the pass
    is unchanged, so it stays active, and its turn changes neither the
    enemies nor the score (an enemy shot earlier in the pass stops no
    second bullet). *)
Theorem collision_pairs :
  (forall (b : Bullet) (gs : GameState) (e : Enemy),
     active e = true -> overlaps b e = true ->
     hitEnemy b gs e = (deactivateEnemy e, deactivateBullet b, addScore gs) /\
     active (deactivateEnemy e) = false /\ active (deactivateBullet b) = false /\
     score (addScore gs) = (score gs + 10)%Z /\
     lives (addScore gs) = lives gs) /\
  (forall (b : Bullet) (gs : GameState) (e : Enemy),
     overlaps b e = false -> hitEnemy b gs e = (e, b, gs)) /\
  (forall (p : Player) (es : list Enemy) (gs : GameState) (b : Bullet),
     isPlayerBullet b = false -> overlaps b p = false ->
     collideBullet p es gs b = (b, es, gs)) /\
  (forall (p : Player) (es : list Enemy) (gs : GameState) (bs : list Bullet),
     let '(bs', es', gs') := collide p es gs bs in
     (forall (j : nat) (e : Enemy), nth_error es j = Some e ->
        exists e', nth_error es' j = Some e' /\
          (active e = true -> shotAt bs e = true -> active e' = false) /\
          (shotAt bs e = false -> e' = e)) /\
     score gs' = (score gs + 10 * (Z.of_nat (activeCount es)
                                   - Z.of_nat (activeCount es')))%Z /\
     lives gs' = (lives gs - Z.of_nat (List.length (filter (strikes p) bs)))%Z /\
     (forall (pre post : list Bullet) (b : Bullet), bs = pre ++ b :: post ->
        exists b', nth_error bs' (List.length pre) = Some b' /\
          (isPlayerBullet b = true ->
           (forall e, In e es -> active e = true -> overlaps b e = false) ->
           b' = b) /\
          (isPlayerBullet b = false -> overlaps b p = false -> b' = b) /\
          (active b = true -> isPlayerBullet b = true ->
           forall e, In e es -> active e = true -> overlaps b e = true ->
                     shotAt pre e = false -> active b' = false) /\
          (isPlayerBullet b = true ->
           (forall e, In e es -> active e = true -> overlaps b e = true ->
                      shotAt pre e = true) ->
           b' = b) /\
          (active b = true -> isPlayerBullet b = false ->
           overlaps b p = true -> active b' = false) /\
          (b' = b \/ b' = deactivateBullet b))) /\
  (forall (b : Bullet) (gs : GameState) (e : Enemy),
     active e = false -> hitEnemy b gs e = (e, b, gs)) /\
  (forall (p : Player) (es : list Enemy) (gs : GameState)
          (pre : list Bullet) (b : Bullet),
     isPlayerBullet b = true ->
     (forall e, In e es -> active e = true -> overlaps b e = true ->
                shotAt pre e = true) ->
     let '(es_k, gs_k) := turnOf p es gs pre in
     collideBullet p es_k gs_k b = (b, es_k, gs_k)).
Proof.
  split; [|split; [|split; [|split; [|split]]]].
  - intros b gs e Ha Ho. now rewrite hitEnemy_hit.
  - intros b gs e Ho. now apply hitEnemy_miss.
  - intros p es gs b Hp Ho. unfold collideBullet.
    rewrite Hp, Ho. now destruct (negb (active b)).
  - intros p es gs bs.
    pose proof (collide_enemies p bs es gs) as He.
    pose proof (collide_account p bs es gs) as Hacc.
    assert (Hturn : forall pre post b, bs = pre ++ b :: post ->
              exists gs_k,
                nth_error (fst (fst (collide p es gs bs))) (List.length pre)
                = Some (fst (fst (collideBullet p (map (mark pre) es) gs_k b)))).
    { intros pre post b ->.
      destruct (collide_turn p pre post b es gs) as (gs_k & _ & H).
      now exists gs_k. }
    destruct (collide p es gs bs) as [[bs' es'] gs']. cbn [fst snd] in *.
    destruct Hacc as [Hs Hl].
    split; [|split; [exact Hs | split; [exact Hl|]]].
    + intros j e Hj. exists (mark bs e). subst es'.
      rewrite nth_error_map, Hj. split; [reflexivity|].
      unfold mark. split.
      * intros -> ->. reflexivity.
      * intros ->. now rewrite andb_false_r.
    + intros pre post b Hbs.
      destruct (Hturn pre post b Hbs) as (gs_k & Hn).
      eexists. split; [exact Hn|].
      split; [|split; [|split; [|split; [|split]]]].
      * intros Hp Hno. unfold collideBullet. rewrite Hp.
        destruct (negb (active b)); [reflexivity|].
        rewrite hitEnemies_none; [reflexivity|].
        apply spent_targets. intros e Hin Hae Ho.
        rewrite (Hno e Hin Hae) in Ho. discriminate.
      * intros Hp Ho. unfold collideBullet. rewrite Hp, Ho.
        now destruct (negb (active b)).
      * intros Ha Hp e Hin Hae Ho Hpre. unfold collideBullet.
        rewrite Ha, Hp. cbn [negb].
        pose proof (hitEnemies_spec (map (mark pre) es) b gs_k) as Hsp.
        destruct (hitEnemies b gs_k (map (mark pre) es)) as [[es2 b2] gs2].
        destruct Hsp as (_ & -> & _). cbn [fst].
        assert (Hex : existsb (hitTest b) (map (mark pre) es) = true).
        { apply existsb_exists. exists e. split.
          - apply in_map_iff. exists e. split; [|assumption].
            unfold mark. now rewrite Hpre, andb_false_r.
          - unfold hitTest. now rewrite Hae, Ho. }
        rewrite Hex. reflexivity.
      * intros Hp Hspent. unfold collideBullet. rewrite Hp.
        destruct (negb (active b)); [reflexivity|].
        rewrite hitEnemies_none; [reflexivity|].
        now apply spent_targets.
      * intros Ha Hp Ho. unfold collideBullet. rewrite Ha, Hp, Ho. reflexivity.
      * apply collideBullet_bullet.
  - intros b gs e Ha. unfold hitEnemy. now rewrite Ha.
  - intros p es gs pre b Hp Hspent.
    destruct (collide_turn p pre [] b es gs) as (gs_k & -> & _).
    unfold collideBullet. rewrite Hp.
    destruct (negb (active b)); [reflexivity|].
    rewrite hitEnemies_none; [reflexivity|].
    now apply spent_targets.
Qed.

Lemma collision_pairs_witness :
  hitEnemy (mkBullet (mkGameObject 110 60 4 10 true) 8 true)
           initialGameState
           (mkEnemy (mkGameObject 100 50 25 20 true) 1 1)
  = (mkEnemy (mkGameObject 100 50 25 20 false) 1 1,
     mkBullet (mkGameObject 110 60 4 10 false) 8 true,
     mkGameState 10 1 3 false false) /\
  (let b1 := mkBullet (mkGameObject (786 # 2) 265 4 10 true) 8 true in
   let b2 := mkBullet (mkGameObject (786 # 2) 268 4 10 true) 8 true in
   let e := mkEnemy (mkGameObject 379 250 25 20 true) 1 1 in
   let '(es_k, gs_k) := turnOf initialPlayer [e] initialGameState [b1] in
   collideBullet initialPlayer es_k gs_k b2 = (b2, es_k, gs_k)).
Proof.
  split.
  - apply (proj1 collision_pairs
             (mkBullet (mkGameObject 110 60 4 10 true) 8 true)
             initialGameState
             (mkEnemy (mkGameObject 100 50 25 20 true) 1 1));
      reflexivity.
  - cbv zeta.
    apply (proj2 (proj2 (proj2 (proj2 (proj2 collision_pairs))))
             initialPlayer
             [mkEnemy (mkGameObject 379 250 25 20 true) 1 1]
             initialGameState
             [mkBullet (mkGameObject (786 # 2) 265 4 10 true) 8 true]
             (mkBullet (mkGameObject (786 # 2) 268 4 10 true) 8 true)).
    + reflexivity.
    + intros e [<- | []] _ _. reflexivity.
Defined.

(** ** The wave keeps its spacing (C1) *)

Lemma apartb_sound (a b : Enemy) : apartb a b = true -> apart a b.
Proof.
  unfold apartb, apart. rewrite !orb_true_iff, !Qleb_le. tauto.
Qed.

Lemma pairwiseb_sound (es : list Enemy) :
  pairwiseb es = true -> ForallOrdPairs apart es.
Proof.
  induction es as [|e rest IH]; intros H; [constructor|].
  cbn [pairwiseb] in H. apply andb_true_iff in H. destruct H as [H1 H2].
  constructor; [|now apply IH].
  apply Forall_forall. intros e' He'. apply apartb_sound.
  rewrite forallb_forall in H1. now apply H1.
Qed.

Lemma uniform_newEnemy (row col : nat) : uniform 1 (newEnemy row col).
Proof. intros _. now repeat split. Qed.

Lemma WaveOK_initEnemies : WaveOK initEnemies.
Proof.
  split.
  - apply pairwiseb_sound. vm_compute. reflexivity.
  - exists 1. unfold initEnemies. apply Forall_flat_map, Forall_forall.
    intros row _. apply Forall_map, Forall_forall. intros col _.
    apply uniform_newEnemy.
Qed.

Lemma pairs_map {A : Type} (R R' : A -> A -> Prop) (P : A -> Prop)
  (f : A -> A) (l : list A) :
  Forall P l ->
  (forall a b, P a -> P b -> R a b -> R' (f a) (f b)) ->
  ForallOrdPairs R l -> ForallOrdPairs R' (map f l).
Proof.
  intros HP Hf H. induction H as [|a l Ha Hl IH]; [constructor|].
  inversion HP as [|? ? Pa Pl]; subst. cbn [map]. constructor.
  - apply Forall_map. rewrite Forall_forall in *.
    intros b Hb. apply Hf; auto.
  - now apply IH.
Qed.

Lemma uniform_advance (d : Q) (e : Enemy) : uniform d e -> uniform d (advance e).
Proof.
  unfold uniform, advance. destruct (active e) eqn:Ha; [|congruence].
  cbn. rewrite Ha. auto.
Qed.

Lemma uniform_descend (d : Q) (e : Enemy) :
  uniform d e -> uniform (d * -1) (descend e).
Proof.
  unfold uniform, descend. destruct (active e) eqn:Ha; [|congruence].
  cbn. rewrite Ha. intros H _. destruct (H eq_refl) as (Hw & Hh & Hs & Hd).
  repeat split; try assumption. now rewrite Hd.
Qed.

Lemma apart_advance (d : Q) (a b : Enemy) :
  uniform d a -> uniform d b -> apart a b -> apart (advance a) (advance b).
Proof.
  unfold uniform, apart, advance. intros Ua Ub H.
  destruct (active a) eqn:Ha; [|intros; congruence].
  destruct (active b) eqn:Hb; [|cbn; intros; congruence].
  cbn. rewrite Ha, Hb. intros _ _.
  destruct (Ua eq_refl) as (_ & _ & Hsa & Hda).
  destruct (Ub eq_refl) as (_ & _ & Hsb & Hdb).
  rewrite Hsa, Hsb.
  destruct (H eq_refl eq_refl) as [H1 | [H1 | [H1 | H1]]];
    [left | right; left | right; right; left | right; right; right]; lra.
Qed.

Lemma apart_descend (a b : Enemy) : apart a b -> apart (descend a) (descend b).
Proof.
  unfold apart, descend. intros H.
  destruct (active a) eqn:Ha; [|intros; congruence].
  destruct (active b) eqn:Hb; [|cbn; intros; congruence].
  cbn. rewrite Ha, Hb. intros _ _.
  destruct (H eq_refl eq_refl) as [H1 | [H1 | [H1 | H1]]];
    [left | right; left | right; right; left | right; right; right]; lra.
Qed.

Lemma WaveOK_updateEnemies (es : list Enemy) : WaveOK es -> WaveOK (updateEnemies es).
Proof.
  intros [Hp (d & Hu)]. unfold updateEnemies.
  assert (Hp1 : ForallOrdPairs apart (map advance es)).
  { exact (pairs_map apart apart (uniform d) advance es Hu (apart_advance d) Hp). }
  assert (Hu1 : Forall (uniform d) (map advance es)).
  { apply Forall_map. revert Hu. apply Forall_impl. apply uniform_advance. }
  destruct (existsb atBoundary (map advance es)).
  - split.
    + apply (pairs_map apart apart (fun _ => True)); [| |exact Hp1].
      * apply Forall_forall. trivial.
      * intros a b _ _. apply apart_descend.
    + exists (d * -1). apply Forall_map. revert Hu1. apply Forall_impl.
      apply uniform_descend.
  - split; [assumption | now exists d].
Qed.

Lemma WaveOK_mark (bs : list Bullet) (es : list Enemy) :
  WaveOK es -> WaveOK (map (mark bs) es).
Proof.
  intros [Hp (d & Hu)]. split.
  - apply (pairs_map apart apart (fun _ => True)); [| |exact Hp].
    + apply Forall_forall. trivial.
    + intros a b _ _ H Ha Hb.
      destruct (mark_box bs a (mkBullet a 0 true)) as [_ Ma].
      destruct (mark_box bs b (mkBullet a 0 true)) as [_ Mb].
      destruct (Ma Ha) as (Ha' & -> & _). destruct (Mb Hb) as (Hb' & -> & _).
      now apply H.
  - exists d. apply Forall_map. revert Hu. apply Forall_impl.
    intros e He Ha.
    destruct (mark_box bs e (mkBullet e 0 true)) as [_ Me].
    destruct (Me Ha) as (Ha' & -> & _). now apply He.
Qed.

Lemma filter_none {A : Type} (f : A -> bool) (l : list A) :
  (forall a, In a l -> f a = false) -> filter f l = [].
Proof.
  induction l as [|a l IH]; intros H; [reflexivity|].
  cbn [filter]. rewrite (H a) by now left.
  apply IH. intros a' Ha'. apply H. now right.
Qed.

(** A 4 x 10 bullet cannot overlap two enemies that keep the spacing. *)
Lemma no_double_overlap (d : Q) (b : Bullet) (a c : Enemy) :
  width b = 4 -> height b = 10 ->
  uniform d a -> uniform d c -> apart a c ->
  hitTest b a = true -> hitTest b c = true -> False.
Proof.
  unfold hitTest. intros Hw Hh Ua Uc Hap Ha Hc.
  apply andb_true_iff in Ha. destruct Ha as [Ha Hoa].
  apply andb_true_iff in Hc. destruct Hc as [Hc Hoc].
  apply overlaps_spec in Hoa. apply overlaps_spec in Hoc.
  destruct (Ua Ha) as (Hwa & Hha & _). destruct (Uc Hc) as (Hwc & Hhc & _).
  rewrite Hw, Hh, Hwa, Hha in Hoa. rewrite Hw, Hh, Hwc, Hhc in Hoc.
  destruct (Hap Ha Hc) as [H | [H | [H | H]]]; lra.
Qed.

Lemma one_hit (b : Bullet) (es : list Enemy) :
  width b = 4 -> height b = 10 -> WaveOK es ->
  (List.length (filter (hitTest b) es) <= 1)%nat.
Proof.
  intros Hw Hh [Hp (d & Hu)].
  induction Hp as [|e rest He Hrest IH]; [cbn; lia|].
  inversion Hu as [|? ? Ue Ur]; subst.
  cbn [filter]. destruct (hitTest b e) eqn:Ht; [|now apply IH].
  rewrite filter_none; [cbn; lia|].
  intros c Hc. destruct (hitTest b c) eqn:Htc; [|reflexivity].
  exfalso. rewrite Forall_forall in He, Ur.
  exact (no_double_overlap d b e c Hw Hh Ue (Ur c Hc) (He c Hc) Ht Htc).
Qed.

(** ** Bullets keep their size *)

Lemma BulletOK_updateBullet (b : Bullet) : BulletOK b -> BulletOK (updateBullet b).
Proof.
  unfold BulletOK, updateBullet.
  destruct (isPlayerBullet b) eqn:Hp; cbn; rewrite Hp; auto.
Qed.

Lemma BulletOK_deactivate (b : Bullet) : BulletOK b -> BulletOK (deactivateBullet b).
Proof. unfold BulletOK. cbn. auto. Qed.

Lemma BulletOK_collide (p : Player) (bs : list Bullet) : forall es gs,
  Forall BulletOK bs -> Forall BulletOK (fst (fst (collide p es gs bs))).
Proof.
  induction bs as [|b rest IH]; intros es gs H; cbn [collide]; [constructor|].
  inversion H as [|? ? Hb Hrest]; subst.
  pose proof (collideBullet_bullet p es gs b) as Hb'.
  destruct (collideBullet p es gs b) as [[b' es1] gs1]. cbn [fst] in Hb'.
  specialize (IH es1 gs1 Hrest).
  destruct (collide p es1 gs1 rest) as [[rest' es2] gs2]. cbn [fst] in *.
  constructor; [|assumption].
  destruct Hb' as [-> | ->]; auto using BulletOK_deactivate.
Qed.

Lemma BulletOK_beforeCollision keys now rnd (o : GameObjects) :
  Forall BulletOK (bullets o) ->
  Forall BulletOK (bullets (beforeCollision keys now rnd o)).
Proof.
  intros H. unfold beforeCollision.
  destruct (updateStars rnd 0 (stars o)) as [ss n].
  assert (H2 : Forall BulletOK
                 (snd (shoot keys now (movePlayer keys (player o)) (bullets o)))).
  { unfold shoot.
    destruct (has keys "Space" && cooldownOver now (movePlayer keys (player o)));
      cbn [snd]; [|assumption].
    apply Forall_app. split; [assumption|].
    constructor; [|constructor]. intros _. now split. }
  destruct (shoot keys now (movePlayer keys (player o)) (bullets o)) as [p2 bs2].
  cbn [snd bullets] in *.
  assert (H3 : Forall BulletOK (map updateBullet bs2)).
  { apply Forall_map. revert H2. apply Forall_impl. apply BulletOK_updateBullet. }
  unfold enemyShoot.
  destruct (Qltb (rnd n) (2 # 100)); [|assumption].
  destruct (0 <? _)%nat; [|assumption].
  destruct (pick _ _) as [shooter|]; [|assumption].
  apply Forall_app. split; [assumption|].
  constructor; [|constructor]. intros Hp. discriminate.
Qed.

Lemma afterCollision_objects (gs : GameState) (o : GameObjects) :
  let es6 := map (mark (bullets o)) (enemies o) in
  enemies (gameObjects (afterCollision gs o))
  = (if waveCleared es6 then initEnemies else es6) /\
  bullets (gameObjects (afterCollision gs o))
  = filter (fun b : Bullet => active b)
      (fst (fst (collide (player o) (enemies o) gs (bullets o)))).
Proof.
  unfold afterCollision.
  pose proof (collide_enemies (player o) (bullets o) (enemies o) gs) as He.
  destruct (collide (player o) (enemies o) gs (bullets o)) as [[bs6 es6] gs6].
  cbn [fst snd] in *. subst es6. cbn. split; reflexivity.
Qed.

#[local] Hint Resolve WaveOK_initEnemies WaveOK_updateEnemies WaveOK_mark
  BulletOK_collide BulletOK_beforeCollision : game.

Lemma WorldOK_reachable (s : Session) : reachable s -> WorldOK (game s).
Proof.
  revert s. apply reachable_ind_inv.
  - intros rnd. split; [auto with game | constructor].
  - intros s [code | code | now rnd] [Hw Hb]; cbn [step game].
    + unfold handleRestart.
      destruct (String.eqb code "KeyR" && gameOver (gameState (game s)));
        [|now split].
      split; [auto with game | constructor].
    + now split.
    + unfold updateGame.
      destruct (gameOver (gameState (game s)) || paused (gameState (game s)));
        [now split|].
      set (o := beforeCollision (keysRef s) now rnd (gameObjects (game s))).
      destruct (afterCollision_objects (gameState (game s)) o) as [He Hbs].
      split.
      * rewrite He. clear He. unfold o. rewrite beforeCollision_enemies.
        destruct (waveCleared _); auto with game.
      * rewrite Hbs. apply Forall_forall. intros b Hin.
        apply filter_In in Hin. destruct Hin as [Hin _].
        revert b Hin. apply Forall_forall. unfold o. auto with game.
Qed.

(** The design note of the specification on the inner loop: it has no exit
    after the first hit.  On [twoInOne], a world outside [WorldOK] that no
    run from mount produces, the one bullet deactivates both enemies and
    scores 20; the property below therefore rests on the geometry of the
    wave, not on the loop. *)
Lemma piercing_bullet :
  let o := twoInOne in
  exists (b : Bullet) (e1 e2 : Enemy),
    bullets o = [b] /\ enemies o = [e1; e2] /\
    active b = true /\ isPlayerBullet b = true /\
    active e1 = true /\ overlaps b e1 = true /\
    active e2 = true /\ overlaps b e2 = true /\
    let '(b', es', gs') := collideBullet (player o) (enemies o) initialGameState b in
    activeCount (enemies o) = 2%nat /\ activeCount es' = 0%nat /\
    score gs' = (score initialGameState + 20)%Z.
Proof.
  cbv zeta. do 3 eexists. do 2 (split; [reflexivity|]).
  vm_compute. repeat split.
Qed.

(** C1.  In every frame of a session (any state reached from mount by key
    events, frames and restarts), when the collision loop reaches a bullet,
    that bullet deactivates at most one enemy and adds at most 10 to the
    score (exactly 10 per enemy it deactivates).  Its box never overlaps
    several active enemies at once: the active enemies of a wave keep the
    60 x 50 spacing of the grid and a player bullet is 4 x 10. *)
Theorem one_hit_per_bullet (s : Session) (now : Z) (rnd : nat -> Q)
  (pre post : list Bullet) (b : Bullet) :
  reachable s ->
  let o := beforeCollision (keysRef s) now rnd (gameObjects (game s)) in
  bullets o = pre ++ b :: post ->
  let '(es_k, gs_k) := turnOf (player o) (enemies o) (gameState (game s)) pre in
  let '(b', es', gs') := collideBullet (player o) es_k gs_k b in
  (isPlayerBullet b = true ->
   (List.length (filter (hitTest b) es_k) <= 1)%nat) /\
  (activeCount es' <= activeCount es_k <= activeCount es' + 1)%nat /\
  (score gs_k <= score gs' <= score gs_k + 10)%Z /\
  score gs' = (score gs_k + 10 * (Z.of_nat (activeCount es_k)
                                  - Z.of_nat (activeCount es')))%Z.
Proof.
  intros Hr o Hbs.
  destruct (WorldOK_reachable s Hr) as [Hw Hb].
  assert (Hw4 : WaveOK (enemies o)).
  { unfold o. rewrite beforeCollision_enemies. now apply WaveOK_updateEnemies. }
  assert (Hb5 : BulletOK b).
  { pose proof (BulletOK_beforeCollision (keysRef s) now rnd _ Hb) as H.
    fold o in H. rewrite Hbs in H. apply Forall_app in H.
    destruct H as [_ H]. now inversion H. }
  destruct (collide_turn (player o) pre post b (enemies o) (gameState (game s)))
    as (gs_k & -> & _).
  assert (Hwk : WaveOK (map (mark pre) (enemies o))) by now apply WaveOK_mark.
  set (es_k := map (mark pre) (enemies o)) in *.
  pose proof (collideBullet_account (player o) es_k gs_k b) as Hacc.
  unfold collideBullet in *.
  destruct (negb (active b)).
  { destruct Hacc as [Hs _]. split; [|lia].
    intros Hp. destruct (Hb5 Hp). now apply one_hit. }
  destruct (isPlayerBullet b) eqn:Hp.
  - destruct (Hb5 Hp) as [Hw' Hh'].
    pose proof (one_hit b es_k Hw' Hh' Hwk) as H1.
    pose proof (hitEnemies_spec es_k b gs_k) as Hsp.
    destruct (hitEnemies b gs_k es_k) as [[es' b'] gs'].
    destruct Hsp as (_ & _ & Hs & Hc). destruct Hacc as [Hs' _].
    split; [auto|]. lia.
  - destruct (overlaps b (player o)); destruct Hacc as [Hs _];
      (split; [discriminate|]); unfold loseLife; cbn [score] in *; lia.
Qed.

Lemma one_hit_per_bullet_witness :
  let s := run (mount (fun _ => 0)) volley in
  let o := beforeCollision (keysRef s) 0 (fun _ => 1 # 2) (gameObjects (game s)) in
  let b := mkBullet (mkGameObject (786 # 2) 265 4 10 true) 8 true in
  let '(es_k, gs_k) := turnOf (player o) (enemies o) (gameState (game s)) [] in
  let '(b', es', gs') := collideBullet (player o) es_k gs_k b in
  (isPlayerBullet b = true ->
   (List.length (filter (hitTest b) es_k) <= 1)%nat) /\
  (activeCount es' <= activeCount es_k <= activeCount es' + 1)%nat /\
  (score gs_k <= score gs' <= score gs_k + 10)%Z /\
  score gs' = (score gs_k + 10 * (Z.of_nat (activeCount es_k)
                                  - Z.of_nat (activeCount es')))%Z.
Proof.
  apply (one_hit_per_bullet (run (mount (fun _ => 0)) volley) 0 (fun _ => 1 # 2)
           [] [mkBullet (mkGameObject (786 # 2) 268 4 10 true) 8 true]
           (mkBullet (mkGameObject (786 # 2) 265 4 10 true) 8 true)).
  - apply reachable_run. constructor.
  - vm_compute. reflexivity.
Defined.

(** * Further properties of the component *)

(** ** The held keys (lines 98-114) *)

Lemma has_app (keys1 keys2 : list string) (c : string) :
  has (keys1 ++ keys2) c = has keys1 c || has keys2 c.
Proof. unfold has. apply existsb_app. Qed.

Lemma has_add (keys : list string) (code c : string) :
  has (add keys code) c = (if String.eqb code c then true else has keys c).
Proof.
  unfold add. destruct (has keys code) eqn:Hk.
  - destruct (String.eqb_spec code c) as [-> | _]; [assumption | reflexivity].
  - rewrite has_app. unfold has at 2. cbn [existsb]. rewrite orb_false_r.
    rewrite (String.eqb_sym c code).
    destruct (String.eqb code c); [apply orb_true_r | apply orb_false_r].
Qed.

Lemma has_delete (keys : list string) (code c : string) :
  has (delete keys code) c = (if String.eqb code c then false else has keys c).
Proof.
  unfold delete, has. induction keys as [|k rest IH]; cbn [filter existsb].
  - now destruct (String.eqb code c).
  - destruct (String.eqb_spec code k) as [-> | Hk]; cbn [negb existsb].
    + rewrite IH. rewrite (String.eqb_sym c k).
      now destruct (String.eqb k c).
    + rewrite IH. destruct (String.eqb_spec code c) as [-> | Hc].
      * apply String.eqb_neq in Hk. now rewrite Hk.
      * reflexivity.
Qed.

Lemma step_keys (s : Session) (ev : Event) (c : string) :
  has (keysRef (step s ev)) c = keyAfter c (has (keysRef s) c) ev.
Proof.
  destruct ev as [code | code | now rnd]; cbn [step keysRef keyAfter].
  - apply has_add.
  - apply has_delete.
  - reflexivity.
Qed.

(** X1.  After any run of events a key code is held exactly when its last
    key event in the run is a key-down (or, with no event for it, when it
    was held before); frames never change the held keys. *)
Theorem held_keys_follow_events (s : Session) (evs : list Event) (c : string) :
  has (keysRef (run s evs)) c = fold_left (keyAfter c) evs (has (keysRef s) c).
Proof.
  unfold run. revert s.
  induction evs as [|ev evs IH]; intros s; cbn [fold_left]; [reflexivity|].
  now rewrite IH, step_keys.
Qed.

(** ** Rounding to a double *)

Lemma pow2_pos (k : Z) : 0 < 2 ^ k.
Proof. apply Qpower_0_lt. reflexivity. Qed.

Lemma pow2_add (a b : Z) : 2 ^ (a + b) == 2 ^ a * 2 ^ b.
Proof. apply Qpower_plus. discriminate. Qed.

Lemma pow2_le (a b : Z) : (a <= b)%Z -> 2 ^ a <= 2 ^ b.
Proof. intros H. apply Qpower_le_compat_l; [assumption | discriminate]. Qed.

Lemma pow2_lt_inv (a b : Z) : 2 ^ a < 2 ^ b -> (a < b)%Z.
Proof. intros H. apply (Qpower_lt_compat_l_inv 2); [assumption | reflexivity]. Qed.

Lemma pow2_Z (k : Z) : (0 <= k)%Z -> 2 ^ k == inject_Z (2 ^ k).
Proof. intros H. now rewrite Zpower_Qpower. Qed.

Lemma pow2_cancel (k : Z) : 2 ^ (- k) * 2 ^ k == 1.
Proof. rewrite <- pow2_add. now replace (- k + k)%Z with 0%Z by lia. Qed.

Lemma pow2_succ (k : Z) : 2 ^ (k + 1) == 2 * 2 ^ k.
Proof. rewrite pow2_add. change (2 ^ 1) with 2. ring. Qed.

Lemma ilog2_spec (q : Q) :
  0 < q -> 2 ^ ilog2 q <= q /\ q < 2 ^ (ilog2 q + 1).
Proof.
  intros Hq. destruct q as [n d].
  assert (Hn : (0 < n)%Z).
  { unfold Qlt in Hq. cbn in Hq. lia. }
  unfold ilog2. cbn [Qnum Qden].
  set (ln := Z.log2 n). set (ld := Z.log2 (Zpos d)).
  destruct (Z.log2_spec n Hn) as [Hn1 Hn2]. fold ln in Hn1, Hn2.
  destruct (Z.log2_spec (Zpos d) eq_refl) as [Hd1 Hd2]. fold ld in Hd1, Hd2.
  assert (Hln : (0 <= ln)%Z) by apply Z.log2_nonneg.
  assert (Hld : (0 <= ld)%Z) by apply Z.log2_nonneg.
  rewrite Z.pow_succ_r in Hn2, Hd2 by assumption.
  assert (Hk : 2 ^ (ln - ld) * inject_Z (2 ^ ld) == inject_Z (2 ^ ln)).
  { rewrite <- !pow2_Z by assumption. rewrite <- pow2_add.
    now replace (ln - ld + ld)%Z with ln by lia. }
  pose proof (pow2_succ (ln - ld)) as Hup.
  pose proof (pow2_succ (ln - ld - 1)) as Hdn.
  replace (ln - ld - 1 + 1)%Z with (ln - ld)%Z in Hdn by lia.
  set (P := 2 ^ (ln - ld)) in *.
  assert (HP : 0 < P) by apply pow2_pos.
  set (A := inject_Z (2 ^ ln)) in *. set (B := inject_Z (2 ^ ld)) in *.
  set (N := inject_Z n). set (D := inject_Z (Zpos d)).
  assert (HA : A <= N /\ N < 2 * A).
  { unfold A, N. split.
    - now rewrite <- Zle_Qle.
    - change 2 with (inject_Z 2). rewrite <- inject_Z_mult, <- Zlt_Qlt. lia. }
  assert (HB : B <= D /\ D < 2 * B /\ 0 < B).
  { unfold B, D. repeat split.
    - now rewrite <- Zle_Qle.
    - change 2 with (inject_Z 2). rewrite <- inject_Z_mult, <- Zlt_Qlt. lia.
    - change 0 with (inject_Z 0). rewrite <- Zlt_Qlt. lia. }
  assert (Hqd : (n # d) * D == N).
  { unfold D, N. rewrite (Qmake_Qdiv n d). field. discriminate. }
  set (q := n # d) in *.
  assert (Hub : q < 2 * P).
  { apply (Qmult_lt_r _ _ D); [lra|]. rewrite Hqd.
    assert (P * B <= P * D) by (apply Qmult_le_l; lra).
    nra. }
  assert (Hlb : P <= 2 * q).
  { apply (Qmult_le_r _ _ B); [lra|].
    assert (q * D < q * (2 * B)) by (apply Qmult_lt_l; lra).
    nra. }
  destruct (Qle_bool P q) eqn:E.
  - apply Qle_bool_iff in E. split; [exact E|]. now rewrite Hup.
  - assert (HPq : q < P).
    { apply Qnot_le_lt. intros H. apply Qle_bool_iff in H. congruence. }
    split; [lra|]. replace (ln - ld - 1 + 1)%Z with (ln - ld)%Z by lia. exact HPq.
Qed.

Lemma ilog2_mono (a b : Q) : 0 < a -> a <= b -> (ilog2 a <= ilog2 b)%Z.
Proof.
  intros Ha Hab.
  destruct (ilog2_spec a Ha) as [La _].
  destruct (ilog2_spec b) as [_ Ub]; [lra|].
  assert (H : (ilog2 a < ilog2 b + 1)%Z) by (apply pow2_lt_inv; lra).
  lia.
Qed.

Lemma rne_bounds (q : Q) : (Qfloor q <= rne q <= Qfloor q + 1)%Z.
Proof.
  unfold rne. cbv zeta.
  destruct (Qltb _ _); [lia|]. destruct (Qltb _ _); [lia|].
  destruct (Z.even _); lia.
Qed.

Lemma rne_Z (z : Z) : rne (inject_Z z) = z.
Proof.
  unfold rne. cbv zeta. rewrite Qfloor_Z.
  assert (H : Qltb (inject_Z z - inject_Z z) (1 # 2) = true).
  { apply Qltb_lt. lra. }
  now rewrite H.
Qed.

Lemma rne_mono (a b : Q) : a <= b -> (rne a <= rne b)%Z.
Proof.
  intros Hab.
  pose proof (Qfloor_resp_le a b Hab) as Hf.
  destruct (Z.eq_dec (Qfloor a) (Qfloor b)) as [E | N].
  - unfold rne. cbv zeta. rewrite E. set (f := Qfloor b).
    destruct (Qltb (a - inject_Z f) (1 # 2)) eqn:A1.
    + clear A1. destruct (Qltb (b - inject_Z f) (1 # 2)); [lia|].
      destruct (Qltb (1 # 2) (b - inject_Z f)); [lia|].
      destruct (Z.even f); lia.
    + assert (Ha : ~ a - inject_Z f < 1 # 2).
      { intros H. apply Qltb_lt in H. congruence. }
      clear A1.
      destruct (Qltb (b - inject_Z f) (1 # 2)) eqn:B1.
      { apply Qltb_lt in B1. lra. }
      clear B1.
      destruct (Qltb (1 # 2) (a - inject_Z f)) eqn:A2.
      * apply Qltb_lt in A2.
        assert (B2 : Qltb (1 # 2) (b - inject_Z f) = true).
        { apply Qltb_lt. lra. }
        rewrite B2. lia.
      * clear A2. destruct (Qltb (1 # 2) (b - inject_Z f)); [|lia].
        destruct (Z.even f); lia.
  - pose proof (rne_bounds a). pose proof (rne_bounds b). lia.
Qed.

Lemma flpos_eq (q : Q) :
  flpos q == inject_Z (rne (q * 2 ^ (- ulpExp q))) * 2 ^ ulpExp q.
Proof. unfold flpos. apply Qred_correct. Qed.

Lemma scaled_le (c : Z) (a b : Q) :
  a <= b -> inject_Z (rne (a * 2 ^ (- c))) * 2 ^ c <= inject_Z (rne (b * 2 ^ (- c))) * 2 ^ c.
Proof.
  intros H. apply Qmult_le_compat_r; [|apply Qlt_le_weak, pow2_pos].
  rewrite <- Zle_Qle. apply rne_mono.
  apply Qmult_le_compat_r; [assumption | apply Qlt_le_weak, pow2_pos].
Qed.

Lemma flpos_mono (a b : Q) : 0 < a -> a <= b -> flpos a <= flpos b.
Proof.
  intros Ha Hab. assert (Hb : 0 < b) by lra.
  rewrite !flpos_eq.
  pose proof (ilog2_mono a b Ha Hab) as He.
  destruct (ilog2_spec a Ha) as [La Ua].
  destruct (ilog2_spec b Hb) as [Lb Ub].
  unfold ulpExp.
  set (ea := ilog2 a) in *. set (eb := ilog2 b) in *.
  set (ca := Z.max (ea - 52) (-1074)). set (cb := Z.max (eb - 52) (-1074)).
  destruct (Z.eq_dec ca cb) as [E | N].
  - rewrite E. now apply scaled_le.
  - assert (Hcb : cb = (eb - 52)%Z) by lia.
    assert (Hea : (ea + 1 <= eb)%Z) by lia.
    assert (Hk : (0 <= eb - ca)%Z) by lia.
    apply Qle_trans with (2 ^ eb).
    + assert (H1 : a * 2 ^ (- ca) <= inject_Z (2 ^ (eb - ca))).
      { rewrite <- pow2_Z by assumption.
        replace (eb - ca)%Z with (eb + - ca)%Z by lia. rewrite pow2_add.
        apply Qmult_le_compat_r; [|apply Qlt_le_weak, pow2_pos].
        apply Qle_trans with (2 ^ (ea + 1)); [lra | now apply pow2_le]. }
      apply rne_mono in H1. rewrite rne_Z in H1.
      rewrite Zle_Qle in H1. rewrite <- pow2_Z in H1 by assumption.
      apply Qle_trans with (2 ^ (eb - ca) * 2 ^ ca).
      * apply Qmult_le_compat_r; [assumption | apply Qlt_le_weak, pow2_pos].
      * rewrite <- pow2_add. replace (eb - ca + ca)%Z with eb by lia. apply Qle_refl.
    + assert (H1 : inject_Z (2 ^ 52) <= b * 2 ^ (- cb)).
      { rewrite <- pow2_Z by lia.
        replace 52%Z with (eb + - cb)%Z at 1 by lia. rewrite pow2_add.
        apply Qmult_le_compat_r; [assumption | apply Qlt_le_weak, pow2_pos]. }
      apply rne_mono in H1. rewrite rne_Z in H1.
      rewrite Zle_Qle in H1. rewrite <- pow2_Z in H1 by lia.
      apply Qle_trans with (2 ^ 52 * 2 ^ cb).
      * rewrite <- pow2_add. replace (52 + cb)%Z with eb by lia. apply Qle_refl.
      * apply Qmult_le_compat_r; [assumption | apply Qlt_le_weak, pow2_pos].
Qed.

Lemma flpos_pos (a : Q) : 0 < a -> 0 <= flpos a.
Proof.
  intros Ha. rewrite flpos_eq.
  apply Qmult_le_0_compat; [|apply Qlt_le_weak, pow2_pos].
  change 0 with (inject_Z 0). rewrite <- Zle_Qle.
  rewrite <- (rne_Z 0). apply rne_mono.
  apply Qmult_le_0_compat; [lra | apply Qlt_le_weak, pow2_pos].
Qed.

Lemma fl_pos (a : Q) : 0 < a -> fl a = flpos a.
Proof.
  intros Ha. unfold fl. destruct a as [[|n|n] d]; cbn [Qnum]; try reflexivity;
    unfold Qlt in Ha; cbn in Ha; lia.
Qed.

Lemma fl_zero (a : Q) : a == 0 -> fl a = 0.
Proof.
  intros Ha. unfold fl. destruct a as [[|n|n] d]; cbn [Qnum]; try reflexivity;
    unfold Qeq in Ha; cbn in Ha; lia.
Qed.

Lemma fl_mono (a b : Q) : 0 <= a -> a <= b -> fl a <= fl b.
Proof.
  intros Ha Hab.
  destruct (Qlt_le_dec 0 a) as [Hpos | Hz].
  - rewrite !fl_pos by lra. now apply flpos_mono.
  - rewrite (fl_zero a) by lra.
    destruct (Qlt_le_dec 0 b) as [Hb | Hb].
    + rewrite fl_pos by assumption. now apply flpos_pos.
    + rewrite (fl_zero b) by lra. apply Qle_refl.
Qed.

Lemma fl_between (lo q hi : Q) :
  0 <= lo -> lo <= q -> q <= hi -> fl lo <= fl q /\ fl q <= fl hi.
Proof. intros H0 H1 H2. split; apply fl_mono; lra. Qed.

Lemma fl_nonneg (q : Q) : 0 <= q -> 0 <= fl q.
Proof. intros H. change 0 with (fl 0) at 1. apply fl_mono; lra. Qed.

Lemma ilog2_unique (q : Q) (e : Z) :
  2 ^ e <= q -> q < 2 ^ (e + 1) -> ilog2 q = e.
Proof.
  intros L U. assert (Hq : 0 < q).
  { pose proof (pow2_pos e). lra. }
  destruct (ilog2_spec q Hq) as [L' U'].
  assert (ilog2 q < e + 1)%Z by (apply pow2_lt_inv; lra).
  assert (e < ilog2 q + 1)%Z by (apply pow2_lt_inv; lra).
  lia.
Qed.

(** No double lies strictly between [maxDraw] and 1. *)
Lemma unitDouble_max (r : Q) : unitDouble r -> r <= maxDraw.
Proof.
  intros (Hfl & H0 & H1). apply Qnot_lt_le. intros Hgt.
  unfold maxDraw in Hgt.
  assert (He : ilog2 r = (-1)%Z).
  { apply ilog2_unique.
    - change (2 ^ (-1)) with (1 # 2). lra.
    - change (2 ^ (-1 + 1)) with 1. exact H1. }
  rewrite fl_pos in Hfl by lra. rewrite flpos_eq in Hfl.
  unfold ulpExp in Hfl. rewrite He in Hfl.
  change (Z.max (-1 - 52) (-1074)) with (-53)%Z in Hfl.
  change (- -53)%Z with 53%Z in Hfl.
  assert (Hp : 2 ^ 53 == inject_Z 9007199254740992) by reflexivity.
  assert (Hm : 2 ^ (-53) == 1 # 9007199254740992) by reflexivity.
  set (x := r * 2 ^ 53) in *.
  assert (Hx : inject_Z 9007199254740991 < x /\ x < inject_Z 9007199254740992).
  { unfold x. rewrite Hp. unfold inject_Z. split; lra. }
  destruct Hx as [Hx1 Hx2].
  assert (Hf : Qfloor x = 9007199254740991%Z).
  { pose proof (Qfloor_resp_le _ _ (Qlt_le_weak _ _ Hx1)) as Hl.
    rewrite Qfloor_Z in Hl.
    pose proof (Qfloor_le x) as Hu.
    assert (Hu' : inject_Z (Qfloor x) < inject_Z 9007199254740992) by lra.
    rewrite <- Zlt_Qlt in Hu'. lia. }
  pose proof (rne_bounds x) as Hb. rewrite Hf in Hb.
  assert (Hc : rne x = 9007199254740991%Z \/ rne x = 9007199254740992%Z) by lia.
  destruct Hc as [Hc | Hc]; rewrite Hc, Hm in Hfl; unfold inject_Z in Hfl; lra.
Qed.

Lemma star_bounds :
  fl (maxDraw * 800) < 800 /\ fl (maxDraw * 600) < 600 /\
  fl (1 # 2) == 1 # 2 /\ fl (fl (maxDraw * 2) + (1 # 2)) == 5 # 2 /\
  1 # 5 <= fl (fl (2 # 10)) /\ fl (fl (maxDraw * fl (8 # 10)) + fl (2 # 10)) == 1 /\
  0 <= fl (2 # 10).
Proof. vm_compute. repeat split; discriminate. Qed.

(** The index [Math.floor(Math.random() * n)] as the source computes it,
    with the product rounded, is in range for the at most 50 enemies of a
    wave. *)
Lemma rounded_index_in_range (r : Q) (n : nat) :
  unitDouble r -> (1 <= n <= 50)%nat ->
  (0 <= Qfloor (fl (r * num n)) < Z.of_nat n)%Z.
Proof.
  intros Hr Hn. pose proof (unitDouble_max r Hr) as Hm.
  destruct Hr as (_ & H0 & _).
  assert (Hk : 0 <= num n).
  { unfold num. change 0 with (inject_Z 0). rewrite <- Zle_Qle. lia. }
  assert (Hp : 0 <= r * num n) by (apply Qmult_le_0_compat; assumption).
  assert (Hup : fl (r * num n) <= fl (maxDraw * num n)).
  { apply fl_mono; [assumption|]. now apply Qmult_le_compat_r. }
  assert (Hall : forallb (fun k => Qltb (fl (maxDraw * num k)) (num k)) (seq 1 50)
                 = true) by (vm_compute; reflexivity).
  rewrite forallb_forall in Hall.
  assert (Hlt : fl (maxDraw * num n) < num n).
  { apply Qltb_lt, Hall, in_seq. lia. }
  split.
  - rewrite <- (Qfloor_Z 0). apply Qfloor_resp_le. now apply fl_nonneg.
  - pose proof (Qfloor_le (fl (r * num n))) as Hf.
    assert (Hz : inject_Z (Qfloor (fl (r * num n))) < inject_Z (Z.of_nat n)).
    { unfold num in *. lra. }
    now rewrite <- Zlt_Qlt in Hz.
Qed.

(** ** The starfield (lines 60-71, 123-129) *)

Lemma fl_draw_scaled (r k : Q) :
  unitDouble r -> 0 <= k ->
  0 <= fl (r * k) /\ fl (r * k) <= fl (maxDraw * k).
Proof.
  intros Hr Hk. pose proof (unitDouble_max r Hr) as Hm.
  destruct Hr as (_ & H0 & _).
  assert (H1 : 0 <= r * k) by (apply Qmult_le_0_compat; assumption).
  assert (H2 : r * k <= maxDraw * k) by (apply Qmult_le_compat_r; assumption).
  split; [now apply fl_nonneg | apply fl_mono; assumption].
Qed.

(** X2.  With draws that are doubles in [0, 1), [initStars] makes 100
    stars, each on the canvas (0 <= x < 800, 0 <= y < 600), falling at a
    speed in [0.5, 2.5] and with a brightness in [0.2, 1].  The two upper
    bounds are reached: the largest draw, 1 - 2^-53, is such a double, and
    with it the rounded sums are exactly 2.5 and 1. *)
Theorem initStars_on_canvas (rnd : nat -> Q) :
  fairDraws rnd ->
  List.length (initStars rnd) = 100%nat /\
  Forall (fun s => StarOK s /\ star_y s < CANVAS_HEIGHT) (initStars rnd) /\
  fairDraws (fun _ => maxDraw) /\
  Forall (fun s => star_speed s == 5 # 2 /\ brightness s == 1)
         (initStars (fun _ => maxDraw)).
Proof.
  intros Hf. split; [|split; [|split]].
  - unfold initStars. rewrite length_map. apply length_seq.
  - unfold initStars. apply Forall_map, Forall_forall. intros i _.
    unfold StarOK, CANVAS_WIDTH, CANVAS_HEIGHT.
    cbn [star_x star_y star_speed brightness].
    destruct star_bounds as (B800 & B600 & Bh & Bs & Bl & Bb & Bc).
    destruct (fl_draw_scaled _ 800 (Hf (4 * i)%nat)) as [X0 X1]; [lra|].
    destruct (fl_draw_scaled _ 600 (Hf (4 * i + 1)%nat)) as [Y0 Y1]; [lra|].
    destruct (fl_draw_scaled _ 2 (Hf (4 * i + 2)%nat)) as [S0 S1]; [lra|].
    destruct (fl_draw_scaled _ (fl (8 # 10)) (Hf (4 * i + 3)%nat)) as [T0 T1];
      [apply fl_nonneg; lra|].
    destruct (fl_between (1 # 2) (fl (rnd (4 * i + 2)%nat * 2) + (1 # 2))
                (fl (maxDraw * 2) + (1 # 2))) as [S2 S3]; [lra | lra | lra |].
    destruct (fl_between (fl (2 # 10))
                (fl (rnd (4 * i + 3)%nat * fl (8 # 10)) + fl (2 # 10))
                (fl (maxDraw * fl (8 # 10)) + fl (2 # 10))) as [T2 T3];
      [lra | lra | lra |].
    repeat split; lra.
  - intros n. split; [reflexivity | split; [discriminate | reflexivity]].
  - apply Forall_forall. intros st Hst. unfold initStars in Hst.
    apply in_map_iff in Hst. destruct Hst as (i & <- & _).
    cbn [star_speed brightness].
    destruct star_bounds as (_ & _ & _ & Bs & _ & Bb & _). now split.
Qed.

Lemma initStars_on_canvas_witness :
  List.length (initStars (fun _ => 1 # 2)) = 100%nat /\
  Forall (fun s => StarOK s /\ star_y s < CANVAS_HEIGHT) (initStars (fun _ => 1 # 2)) /\
  fairDraws (fun _ => maxDraw) /\
  Forall (fun s => star_speed s == 5 # 2 /\ brightness s == 1)
         (initStars (fun _ => maxDraw)).
Proof.
  apply (initStars_on_canvas (fun _ => 1 # 2)).
  intros n. split; [reflexivity | split; [discriminate | reflexivity]].
Defined.

Lemma updateStar_moved rnd (n : nat) (s : Star) :
  fairDraws rnd -> starMoved s (fst (updateStar rnd n s)).
Proof.
  intros Hf. unfold updateStar, starMoved, CANVAS_WIDTH, CANVAS_HEIGHT. cbv zeta.
  destruct (Qltb 600 (fl (star_y s + star_speed s))) eqn:E;
    cbn [fst star_x star_y star_speed brightness];
    (split; [reflexivity|]); (split; [reflexivity|]).
  - right. apply Qltb_lt in E.
    destruct (fl_draw_scaled _ 800 (Hf n)) as [X0 X1]; [lra|].
    destruct star_bounds as (B800 & _).
    repeat split; try assumption; lra.
  - left. split; [|split; reflexivity].
    apply Qnot_lt_le. intros H. apply Qltb_lt in H. congruence.
Qed.

Lemma StarOK_moved (s s' : Star) :
  0 <= star_y s -> 0 <= star_speed s -> 0 <= star_x s /\ star_x s < CANVAS_WIDTH ->
  (1 # 2 <= star_speed s /\ star_speed s <= 5 # 2 /\
   1 # 5 <= brightness s /\ brightness s <= 1) ->
  starMoved s s' -> StarOK s'.
Proof.
  unfold starMoved, StarOK, CANVAS_WIDTH, CANVAS_HEIGHT.
  intros Hy Hs Hx Hr (-> & -> & Hm). cbv zeta in Hm.
  assert (H0 : 0 <= fl (star_y s + star_speed s)) by (apply fl_nonneg; lra).
  destruct Hm as [(H1 & -> & ->) | (H1 & -> & H2 & H3)]; repeat split; lra.
Qed.

Lemma StarOK_updateStar rnd (n : nat) (s : Star) :
  fairDraws rnd -> StarOK s -> StarOK (fst (updateStar rnd n s)).
Proof.
  intros Hf (Hx0 & Hx1 & Hy0 & Hy1 & Hs0 & Hs1 & Hb0 & Hb1).
  apply (StarOK_moved s);
    [lra | lra | split; assumption | repeat split; assumption
    | now apply updateStar_moved].
Qed.

Lemma StarOK_updateStars rnd (ss : list Star) : forall n,
  fairDraws rnd -> Forall StarOK ss -> Forall StarOK (fst (updateStars rnd n ss)).
Proof.
  induction ss as [|s rest IH]; intros n Hf H; cbn [updateStars]; [constructor|].
  inversion H as [|? ? Hs Hrest]; subst.
  pose proof (StarOK_updateStar rnd n s Hf Hs) as Hs'.
  destruct (updateStar rnd n s) as [s' n'].
  specialize (IH n' Hf Hrest).
  destruct (updateStars rnd n' rest) as [rest' n'']. cbn [fst] in *.
  now constructor.
Qed.

Lemma updateStars_moved rnd (ss : list Star) : forall n,
  fairDraws rnd -> Forall2 starMoved ss (fst (updateStars rnd n ss)).
Proof.
  induction ss as [|s rest IH]; intros n Hf; cbn [updateStars]; [constructor|].
  pose proof (updateStar_moved rnd n s Hf) as Hs.
  destruct (updateStar rnd n s) as [s' n'].
  specialize (IH n' Hf).
  destruct (updateStars rnd n' rest) as [rest' n'']. cbn [fst] in *.
  now constructor.
Qed.

Lemma StarOK_step (s : Session) (ev : Event) :
  fairEvent ev ->
  Forall StarOK (stars (gameObjects (game s))) ->
  Forall StarOK (stars (gameObjects (game (step s ev)))).
Proof.
  intros Hf H. destruct ev as [code | code | now rnd]; cbn [step game].
  - now rewrite handleRestart_stars.
  - assumption.
  - unfold updateGame.
    destruct (gameOver (gameState (game s)) || paused (gameState (game s)));
      [assumption|].
    rewrite afterCollision_stars, beforeCollision_stars.
    now apply StarOK_updateStars.
Qed.

(** X3.  When every draw of [Math.random()] is a double in [0, 1), the
    stars stay on the canvas in every state of a run from mount
    (0 <= x < 800 and 0 <= y <= 600) with their speed and brightness in
    range; and a frame of a running game moves each star as [starMoved]
    says: down by its speed, or, once the rounded sum has passed 600, back
    to y = 0 with an x inside the canvas. *)
Theorem stars_stay_on_canvas (rnd0 : nat -> Q) (evs : list Event) :
  fairDraws rnd0 -> Forall fairEvent evs ->
  let s := run (mount rnd0) evs in
  Forall StarOK (stars (gameObjects (game s))) /\
  forall now rnd, fairDraws rnd ->
    gameOver (gameState (game s)) = false ->
    paused (gameState (game s)) = false ->
    Forall2 starMoved (stars (gameObjects (game s)))
            (stars (gameObjects (game (step s (Frame now rnd))))).
Proof.
  intros H0 Hevs. cbv zeta. split.
  - assert (Hm : Forall StarOK (stars (gameObjects (game (mount rnd0))))).
    { destruct (initStars_on_canvas rnd0 H0) as (_ & H & _ & _).
      revert H. apply Forall_impl. tauto. }
    unfold run. revert Hm. generalize (mount rnd0).
    induction Hevs as [|ev evs Hev Hrest IH]; intros s Hs; cbn [fold_left];
      [assumption|].
    apply IH. now apply StarOK_step.
  - intros now rnd Hf Hg Hp. cbn [step game]. unfold updateGame.
    rewrite Hg, Hp. cbn [orb].
    rewrite afterCollision_stars, beforeCollision_stars.
    now apply updateStars_moved.
Qed.

Lemma stars_stay_on_canvas_witness :
  let s := run (mount (fun _ => 1 # 2)) [tick 0; tick 0] in
  Forall StarOK (stars (gameObjects (game s))) /\
  Forall2 starMoved (stars (gameObjects (game s)))
          (stars (gameObjects (game (step s (tick 0))))).
Proof.
  assert (Hf : fairDraws (fun _ => 1 # 2)).
  { intros n. split; [reflexivity | split; [discriminate | reflexivity]]. }
  destruct (stars_stay_on_canvas (fun _ => 1 # 2) [tick 0; tick 0] Hf) as [H1 H2].
  - constructor; [exact Hf | constructor; [exact Hf | constructor]].
  - split; [exact H1|]. apply H2; [exact Hf | reflexivity | reflexivity].
Defined.

Lemma updateStars_draws rnd (ss : list Star) (n : nat) :
  snd (updateStars rnd n ss)
  = (n + List.length
           (filter (fun s => Qltb CANVAS_HEIGHT (fl (star_y s + star_speed s))) ss))%nat /\
  List.length (fst (updateStars rnd n ss)) = List.length ss.
Proof.
  revert n. induction ss as [|s rest IH]; intros n; cbn [updateStars filter].
  - cbn. split; [lia | reflexivity].
  - unfold updateStar.
    destruct (Qltb CANVAS_HEIGHT (fl (star_y s + star_speed s))).
    + destruct (IH (S n)) as [I1 I2].
      destruct (updateStars rnd (S n) rest) as [rest' n'']. cbn [fst snd] in *.
      cbn [List.length]. split; lia.
    + destruct (IH n) as [I1 I2].
      destruct (updateStars rnd n rest) as [rest' n'']. cbn [fst snd] in *.
      cbn [List.length]. split; lia.
Qed.

(** X4.  The star step reads one random draw for each star whose rounded
    sum [y + speed] exceeds 600 and none for the others, and keeps the
    number of stars; the enemy-fire test of the frame reads the draws that
    follow them.  The test is on the rounded sum: [edgeStar], at y = 599.5
    with the speed that follows 0.5, has an exact sum above 600 but is
    stored at 600, stays, and reads no draw. *)
Theorem stars_consume_draws keys now rnd (o : GameObjects) :
  let k := List.length
             (filter (fun s => Qltb CANVAS_HEIGHT (fl (star_y s + star_speed s)))
                     (stars o)) in
  snd (updateStars rnd 0 (stars o)) = k /\
  List.length (stars (beforeCollision keys now rnd o)) = List.length (stars o) /\
  bullets (beforeCollision keys now rnd o)
  = enemyShoot rnd k (updateEnemies (enemies o))
      (map updateBullet
           (snd (shoot keys now (movePlayer keys (player o)) (bullets o)))) /\
  (CANVAS_HEIGHT < star_y edgeStar + star_speed edgeStar /\
   forall n, updateStar rnd n edgeStar
             = (mkStar 0 600 (star_speed edgeStar) 1, n)).
Proof.
  cbv zeta. destruct (updateStars_draws rnd (stars o) 0) as [Hn Hl].
  rewrite beforeCollision_stars. cbn [Nat.add] in Hn.
  split; [exact Hn | split; [exact Hl | split]].
  - unfold beforeCollision. rewrite <- Hn.
    destruct (updateStars rnd 0 (stars o)) as [ss n].
    destruct (shoot keys now (movePlayer keys (player o)) (bullets o)).
    reflexivity.
  - split; [reflexivity|]. intros n. vm_compute. reflexivity.
Qed.

(** ** Moving the player (lines 131-143) *)

Lemma moveLeft_spec keys (p : Player) :
  let q := moveLeft keys p in
  y q = y p /\ width q = width p /\ height q = height p /\
  player_speed q = player_speed p /\
  ((has keys "ArrowLeft" = true /\ 0 < x p /\ x q = x p - player_speed p) \/
   ((has keys "ArrowLeft" = false \/ x p <= 0) /\ x q = x p)).
Proof.
  unfold moveLeft. destruct (has keys "ArrowLeft"); cbn [andb].
  - destruct (Qltb 0 (x p)) eqn:E; cbn.
    + apply Qltb_lt in E. repeat split. now left.
    + repeat split. right. split; [|reflexivity]. right.
      apply Qnot_lt_le. intros H. apply Qltb_lt in H. congruence.
  - repeat split. right. now split; [left|].
Qed.

Lemma moveRight_spec keys (p : Player) :
  let q := moveRight keys p in
  y q = y p /\ width q = width p /\ height q = height p /\
  player_speed q = player_speed p /\
  ((has keys "ArrowRight" = true /\ x p < CANVAS_WIDTH - width p /\
    x q = x p + player_speed p) \/
   ((has keys "ArrowRight" = false \/ CANVAS_WIDTH - width p <= x p) /\ x q = x p)).
Proof.
  unfold moveRight. destruct (has keys "ArrowRight"); cbn [andb].
  - destruct (Qltb (x p) (CANVAS_WIDTH - width p)) eqn:E; cbn.
    + apply Qltb_lt in E. repeat split. now left.
    + repeat split. right. split; [|reflexivity]. right.
      apply Qnot_lt_le. intros H. apply Qltb_lt in H. congruence.
  - repeat split. right. now split; [left|].
Qed.

Lemma moveUp_spec keys (p : Player) :
  let q := moveUp keys p in
  x q = x p /\ width q = width p /\ height q = height p /\
  player_speed q = player_speed p /\
  ((has keys "ArrowUp" = true /\ CANVAS_HEIGHT / 2 < y p /\
    y q = y p - player_speed p) \/
   ((has keys "ArrowUp" = false \/ y p <= CANVAS_HEIGHT / 2) /\ y q = y p)).
Proof.
  unfold moveUp. destruct (has keys "ArrowUp"); cbn [andb].
  - destruct (Qltb (CANVAS_HEIGHT / 2) (y p)) eqn:E; cbn.
    + apply Qltb_lt in E. repeat split. now left.
    + repeat split. right. split; [|reflexivity]. right.
      apply Qnot_lt_le. intros H. apply Qltb_lt in H. congruence.
  - repeat split. right. now split; [left|].
Qed.

Lemma moveDownKey_spec keys (p : Player) :
  let q := moveDownKey keys p in
  x q = x p /\ width q = width p /\ height q = height p /\
  player_speed q = player_speed p /\
  ((has keys "ArrowDown" = true /\ y p < CANVAS_HEIGHT - height p /\
    y q = y p + player_speed p) \/
   ((has keys "ArrowDown" = false \/ CANVAS_HEIGHT - height p <= y p) /\ y q = y p)).
Proof.
  unfold moveDownKey. destruct (has keys "ArrowDown"); cbn [andb].
  - destruct (Qltb (y p) (CANVAS_HEIGHT - height p)) eqn:E; cbn.
    + apply Qltb_lt in E. repeat split. now left.
    + repeat split. right. split; [|reflexivity]. right.
      apply Qnot_lt_le. intros H. apply Qltb_lt in H. congruence.
  - repeat split. right. now split; [left|].
Qed.

Ltac key_cases :=
  repeat match goal with
         | H : _ /\ _ |- _ => destruct H
         | H : _ \/ _ |- _ => destruct H
         end;
  try congruence.

(** X5.  A frame moves a player that is inside its box by 0 or exactly 5
    along each axis.  Opposite keys held together cancel, except at the
    left wall (x = 0) and at the midline (y = 300), where the second test
    of the pair still fires and the player ends 5 to the right, or 5 down;
    the left key alone at x = 0 leaves the player at 0. *)
Theorem opposite_keys_cancel keys (p : Player) :
  width p = 30 -> height p = 20 -> player_speed p = 5 ->
  0 <= x p -> x p <= 770 -> 300 <= y p -> y p <= 580 ->
  let q := movePlayer keys p in
  (x q == x p \/ x q == x p - 5 \/ x q == x p + 5) /\
  (y q == y p \/ y q == y p - 5 \/ y q == y p + 5) /\
  (has keys "ArrowLeft" = true -> has keys "ArrowRight" = true ->
   (0 < x p -> x q == x p) /\ (x p == 0 -> x q == 5)) /\
  (has keys "ArrowUp" = true -> has keys "ArrowDown" = true ->
   (300 < y p -> y q == y p) /\ (y p == 300 -> y q == 305)) /\
  (has keys "ArrowLeft" = true -> has keys "ArrowRight" = false ->
   x p == 0 -> x q == 0).
Proof.
  intros Hw Hh Hs Hx0 Hx1 Hy0 Hy1 q. subst q. unfold movePlayer.
  pose proof (moveLeft_spec keys p) as H1. cbv zeta in H1.
  set (p1 := moveLeft keys p) in *.
  pose proof (moveRight_spec keys p1) as H2. cbv zeta in H2.
  set (p2 := moveRight keys p1) in *.
  pose proof (moveUp_spec keys p2) as H3. cbv zeta in H3.
  set (p3 := moveUp keys p2) in *.
  pose proof (moveDownKey_spec keys p3) as H4. cbv zeta in H4.
  set (p4 := moveDownKey keys p3) in *.
  destruct H1 as (Ly & Lw & Lh & Ls & Lx).
  destruct H2 as (Ry & Rw & Rh & Rs & Rx).
  destruct H3 as (Ux & Uw & Uh & Us & Uy).
  destruct H4 as (Dx & Dw & Dh & Ds & Dy).
  assert (E300 : CANVAS_HEIGHT / 2 == 300) by reflexivity.
  rewrite E300 in Uy. clear E300.
  rewrite Uh, Rh, Lh, Hh in Dy. rewrite Us, Rs, Ls, Hs in Dy.
  rewrite Rs, Ls, Hs in Uy. rewrite Lw, Hw, Ls, Hs in Rx. rewrite Hs in Lx.
  rewrite Dx, Ux. rewrite Ry, Ly in Uy.
  unfold CANVAS_WIDTH, CANVAS_HEIGHT in *.
  assert (Ex : (x p2 == x p \/ x p2 == x p - 5 \/ x p2 == x p + 5) /\
               (has keys "ArrowLeft" = true -> has keys "ArrowRight" = true ->
                (0 < x p -> x p2 == x p) /\ (x p == 0 -> x p2 == 5)) /\
               (has keys "ArrowLeft" = true -> has keys "ArrowRight" = false ->
                x p == 0 -> x p2 == 0)).
  { destruct Lx as [(La & Lb & Lc) | (La & Lc)];
      destruct Rx as [(Ra & Rb & Rc) | (Ra & Rc)];
      rewrite Rc, Lc in *; clear Rc Lc.
    - split; [left; ring|]. split; [intros _ _; split; intros; lra|].
      intros; congruence.
    - split; [right; left; reflexivity|].
      split; [intros _ HR; destruct Ra; [congruence | lra]|].
      intros _ _ E; lra.
    - split; [right; right; reflexivity|].
      split; [intros HL _; destruct La; [congruence|];
              split; intros; lra|].
      intros; congruence.
    - split; [left; reflexivity|].
      split; [intros HL HR; destruct Ra; [congruence | lra]|].
      intros _ _ E; lra. }
  assert (Ey : (y p4 == y p \/ y p4 == y p - 5 \/ y p4 == y p + 5) /\
               (has keys "ArrowUp" = true -> has keys "ArrowDown" = true ->
                (300 < y p -> y p4 == y p) /\ (y p == 300 -> y p4 == 305))).
  { destruct Uy as [(Ua & Ub & Uc) | (Ua & Uc)];
      destruct Dy as [(Da & Db & Dc) | (Da & Dc)];
      rewrite Dc, Uc in *; clear Dc Uc.
    - split; [left; ring|]. intros _ _; split; intros; lra.
    - split; [right; left; reflexivity|].
      intros _ HD; destruct Da; [congruence | lra].
    - split; [right; right; reflexivity|].
      intros HU _; destruct Ua; [congruence|]. split; intros; lra.
    - split; [left; reflexivity|].
      intros HU HD; destruct Da; [congruence | lra]. }
  destruct Ex as (E1 & E2 & E3). destruct Ey as (E4 & E5).
  split; [exact E1 | split; [exact E4 | split; [exact E2 | split;
    [exact E5 | exact E3]]]].
Qed.

Lemma opposite_keys_cancel_witness :
  x (movePlayer ["ArrowLeft"%string; "ArrowRight"%string]
       (mkPlayer (mkGameObject 0 550 30 20 true) 5 None)) == 5.
Proof.
  destruct (opposite_keys_cancel ["ArrowLeft"%string; "ArrowRight"%string]
              (mkPlayer (mkGameObject 0 550 30 20 true) 5 None))
    as (_ & _ & H & _);
    [reflexivity | reflexivity | reflexivity | vm_compute; discriminate ..|].
  apply H; reflexivity.
Defined.

(** ** Firing after a restart (lines 146-160, 381-388) *)

(** X6.  Restart replaces the player object, so the last-shot timestamp is
    gone: in the first frame after a restart with the fire key held, a
    player bullet is spawned whatever the clock reads, and it is the only
    player bullet of the frame; the frame records the clock as the new
    timestamp. *)
Theorem restart_rearms_fire keys now rnd (g : Game) :
  gameOver (gameState g) = true -> has keys "Space" = true ->
  let o := beforeCollision keys now rnd (gameObjects (handleRestart "KeyR" g)) in
  filter isPlayerBullet (bullets o)
  = [updateBullet (playerBullet (movePlayer keys initialPlayer))] /\
  lastShot (player o) = Some now.
Proof.
  intros Hgo Hk o. subst o.
  assert (Hr : handleRestart "KeyR" g
               = mkGame initialGameState
                   (mkGameObjects initialPlayer initEnemies []
                                  (stars (gameObjects g)))).
  { unfold handleRestart. now rewrite Hgo. }
  rewrite Hr. unfold beforeCollision.
  cbn [gameObjects player bullets stars enemies].
  destruct (updateStars rnd 0 (stars (gameObjects g))) as [ss n].
  rewrite shoot_fires; [|assumption|].
  - cbn [bullets player lastShot].
    rewrite playerBullets_enemyShoot. split; reflexivity.
  - unfold cooldownOver. now rewrite movePlayer_lastShot.
Qed.

Lemma restart_rearms_fire_witness :
  lastShot (player (beforeCollision ["Space"%string] 5 (fun _ => 1 # 2)
                      (gameObjects (handleRestart "KeyR" (game endedSession)))))
  = Some 5%Z.
Proof.
  apply (restart_rearms_fire ["Space"%string] 5%Z (fun _ => 1 # 2)
           (game endedSession)); reflexivity.
Defined.

(** ** Enemy fire (lines 195-209) *)

Lemma pick_In {A : Type} (l : list A) (i : Z) (a : A) :
  pick l i = Some a -> In a l.
Proof.
  unfold pick. destruct (i <? 0)%Z; [discriminate|]. apply nth_error_In.
Qed.

(** X7.  The enemy-fire step appends at most one bullet, and only an enemy
    bullet fired by an active enemy of the wave: active, 4 x 8, speed 3,
    horizontally centred on the shooter, at its bottom edge.  It appends
    none when the draw is at least 0.02 or when no enemy is active; with
    draws in [0, 1), a draw below 0.02 and an active enemy, it appends
    exactly one. *)
Theorem enemy_fire rnd (n : nat) (es : list Enemy) (bs : list Bullet) :
  (enemyShoot rnd n es bs = bs \/
   exists e, In e es /\ active e = true /\
             enemyShoot rnd n es bs = bs ++ [enemyBullet e] /\
             isPlayerBullet (enemyBullet e) = false /\
             active (enemyBullet e) = true /\
             x (enemyBullet e) + width (enemyBullet e) / 2 == x e + width e / 2 /\
             y (enemyBullet e) = y e + height e) /\
  (2 # 100 <= rnd n -> enemyShoot rnd n es bs = bs) /\
  ((forall e, In e es -> active e = false) -> enemyShoot rnd n es bs = bs) /\
  (fair rnd -> rnd n < 2 # 100 -> (exists e, In e es /\ active e = true) ->
   exists e, In e es /\ active e = true /\
             enemyShoot rnd n es bs = bs ++ [enemyBullet e]).
Proof.
  unfold enemyShoot.
  set (act := filter (fun e : Enemy => active e) es).
  assert (Hact : forall e, In e act -> In e es /\ active e = true).
  { intros e. unfold act. apply filter_In. }
  split; [|split; [|split]].
  - destruct (Qltb (rnd n) (2 # 100)); [|now left].
    destruct (0 <? List.length act)%nat; [|now left].
    destruct (pick act _) as [e|] eqn:E; [|now left].
    right. exists e. apply pick_In in E. destruct (Hact e E).
    repeat split; try assumption. cbn. field.
  - intros H. destruct (Qltb (rnd n) (2 # 100)) eqn:E; [|reflexivity].
    apply Qltb_lt in E. lra.
  - intros H. assert (Hn : act = []).
    { unfold act. apply filter_none. assumption. }
    rewrite Hn. cbn. now destruct (Qltb (rnd n) (2 # 100)).
  - intros Hf Hr (e0 & Hin & Ha).
    apply Qltb_lt in Hr. rewrite Hr.
    assert (Hne : act <> []).
    { intros Hn. assert (Hi : In e0 act) by (apply filter_In; now split).
      rewrite Hn in Hi. contradiction. }
    assert (Hlen : (0 <? List.length act)%nat = true).
    { apply Nat.ltb_lt. destruct act; [congruence | cbn; lia]. }
    rewrite Hlen.
    destruct (Hf (S n)) as [H0 H1].
    destruct (shooter_in_range act (rnd (S n)) H0 H1 Hne) as (e & He).
    rewrite He. exists e. apply pick_In in He. destruct (Hact e He).
    now repeat split.
Qed.

Lemma enemy_fire_witness :
  enemyShoot (fun _ => 1 # 2) 0 initEnemies [] = [].
Proof.
  apply (proj1 (proj2 (enemy_fire (fun _ => 1 # 2) 0 initEnemies []))).
  vm_compute. discriminate.
Defined.

(** ** The flight of a bullet (lines 163-171) *)

Lemma num_succ (k : nat) : num (S k) == num k + 1.
Proof.
  unfold num. rewrite Nat2Z.inj_succ. unfold Z.succ.
  rewrite inject_Z_plus. reflexivity.
Qed.

Lemma updateBullet_fields (b : Bullet) :
  x (updateBullet b) = x b /\ width (updateBullet b) = width b /\
  height (updateBullet b) = height b /\
  bullet_speed (updateBullet b) = bullet_speed b /\
  isPlayerBullet (updateBullet b) = isPlayerBullet b /\
  y (updateBullet b)
  = (if isPlayerBullet b then y b - bullet_speed b else y b + bullet_speed b) /\
  active (updateBullet b)
  = (if isPlayerBullet b
     then if Qltb (y b - bullet_speed b) 0 then false else active b
     else if Qltb CANVAS_HEIGHT (y b + bullet_speed b) then false else active b).
Proof.
  unfold updateBullet. destruct (isPlayerBullet b) eqn:E; cbn; rewrite ?E;
    repeat split.
Qed.

(** X8.  Advancing a bullet [k] times moves it by exactly [k] times its
    speed, up for a player bullet and down for an enemy bullet, and
    changes nothing else but the active flag.  With a speed that is not
    negative the flag is still up after [k] steps exactly when it was up
    at the start and the bullet has not passed its edge (y >= 0, or
    y <= 600): a bullet that has left is never active again. *)
Theorem bullet_flight (b : Bullet) (k : nat) :
  0 <= bullet_speed b ->
  let b' := Nat.iter k updateBullet b in
  x b' = x b /\ width b' = width b /\ height b' = height b /\
  bullet_speed b' = bullet_speed b /\ isPlayerBullet b' = isPlayerBullet b /\
  (isPlayerBullet b = true ->
   y b' == y b - num k * bullet_speed b /\
   (active b' = true <->
    active b = true /\ (k = 0%nat \/ 0 <= y b - num k * bullet_speed b))) /\
  (isPlayerBullet b = false ->
   y b' == y b + num k * bullet_speed b /\
   (active b' = true <->
    active b = true /\
    (k = 0%nat \/ y b + num k * bullet_speed b <= CANVAS_HEIGHT))).
Proof.
  intros Hs. cbv zeta. induction k as [|k IH].
  - cbn. do 5 (split; [reflexivity|]).
    split; intros _; (split; [unfold num; cbn; ring | tauto]).
  - change (Nat.iter (S k) updateBullet b)
      with (updateBullet (Nat.iter k updateBullet b)).
    set (bk := Nat.iter k updateBullet b) in *.
    destruct IH as (Ix & Iw & Ih & Isp & Io & Ip & Ie).
    pose proof (num_succ k) as Hk.
    assert (Hnum : 0 <= num k).
    { unfold num. change 0 with (inject_Z 0). rewrite <- Zle_Qle. lia. }
    destruct (updateBullet_fields bk) as (Fx & Fw & Fh & Fs & Fo & Fy & Fa).
    rewrite Fx, Fw, Fh, Fs, Fo, Fy, Fa. clear Fx Fw Fh Fs Fo Fy Fa.
    do 5 (split; [assumption|]).
    rewrite Io, Isp.
    split; intros Hp; rewrite Hp.
    + destruct (Ip Hp) as [Iy Ia].
      split; [rewrite Iy, Hk; ring|].
      destruct (Qltb (y bk - bullet_speed b) 0) eqn:E.
      * split; [discriminate|]. intros (_ & [H | H]); [discriminate|].
        apply Qltb_lt in E. rewrite Iy, Hk in *. lra.
      * assert (Hge : ~ y bk - bullet_speed b < 0).
        { intros H. apply Qltb_lt in H. congruence. }
        rewrite Ia. rewrite Iy, Hk in *.
        split.
        -- intros (Ha & _). split; [assumption|]. right. lra.
        -- intros (Ha & _). split; [assumption|].
           destruct k; [now left|]. right. nra.
    + destruct (Ie Hp) as [Iy Ia].
      split; [rewrite Iy, Hk; ring|].
      destruct (Qltb CANVAS_HEIGHT (y bk + bullet_speed b)) eqn:E.
      * split; [discriminate|]. intros (_ & [H | H]); [discriminate|].
        apply Qltb_lt in E. rewrite Iy, Hk in *. lra.
      * assert (Hge : ~ CANVAS_HEIGHT < y bk + bullet_speed b).
        { intros H. apply Qltb_lt in H. congruence. }
        rewrite Ia. rewrite Iy, Hk in *.
        split.
        -- intros (Ha & _). split; [assumption|]. right. lra.
        -- intros (Ha & _). split; [assumption|].
           destruct k; [now left|]. right. nra.
Qed.

Lemma bullet_flight_witness :
  y (Nat.iter 3 updateBullet (playerBullet initialPlayer)) == 550 - 3 * 8.
Proof.
  destruct (bullet_flight (playerBullet initialPlayer) 3) as (_ & _ & _ & _ & _ & H & _).
  - vm_compute. discriminate.
  - destruct (H eq_refl) as [Hy _]. rewrite Hy. reflexivity.
Defined.

(** ** How a frame ends (lines 230-266) *)

Lemma afterCollision_unfold (gs : GameState) (o : GameObjects) :
  let r := collide (player o) (enemies o) gs (bullets o) in
  let es6 := snd (fst r) in
  afterCollision gs o
  = mkGame (lossCheck (player o) es6
              (if waveCleared es6 then nextLevel (snd r) else snd r))
           (mkGameObjects (player o)
              (if waveCleared es6 then initEnemies else es6)
              (filter (fun b : Bullet => active b) (fst (fst r)))
              (stars o)).
Proof.
  cbv zeta. unfold afterCollision.
  destruct (collide (player o) (enemies o) gs (bullets o)) as [[bs6 es6] gs6].
  reflexivity.
Qed.

Lemma lossCheck_gameOver (p : Player) (es : list Enemy) : forall gs,
  gameOver (lossCheck p es gs) = gameOver gs || existsb (breached p) es.
Proof.
  unfold lossCheck. induction es as [|e rest IH]; intros gs; cbn [fold_left existsb].
  - now rewrite orb_false_r.
  - rewrite IH. destruct (breached p e); cbn; [|reflexivity].
    now rewrite orb_true_r.
Qed.

Lemma existsb_filter {A : Type} (f : A -> bool) (l : list A) :
  existsb f l = (0 <? List.length (filter f l))%nat.
Proof.
  induction l as [|a l IH]; [reflexivity|]. cbn [existsb filter].
  destruct (f a); [reflexivity | exact IH].
Qed.

Lemma collide_gameOver (p : Player) (bs : list Bullet) (es : list Enemy)
  (gs : GameState) :
  gameOver (snd (collide p es gs bs))
  = (if existsb (strikes p) bs
     then (lives (snd (collide p es gs bs)) <=? 0)%Z
     else gameOver gs).
Proof.
  pose proof (collide_state p bs es gs) as Hst.
  pose proof (collide_account p bs es gs) as Hacc.
  destruct (collide p es gs bs) as [[bs' es'] gs']. cbn [snd].
  destruct Hst as (_ & _ & _ & _ & Heq & Hlt). destruct Hacc as [_ Hl].
  rewrite existsb_filter.
  destruct (List.length (filter (strikes p) bs)) as [|k] eqn:E.
  - cbn. apply Heq. lia.
  - cbn. apply Hlt. lia.
Qed.

(** X9.  A frame that runs ends with game-over set exactly when an active
    enemy bullet overlapped the player and the lives it leaves are 0 or
    less, or when an enemy still active after the collisions has its
    bottom edge at or below the player's top edge.  The second test reads
    the wave the frame started with: a wave spawned by the same frame is
    not tested. *)
Theorem frame_ends_game keys now rnd (g : Game) :
  gameOver (gameState g) = false -> paused (gameState g) = false ->
  let o := beforeCollision keys now rnd (gameObjects g) in
  let g' := updateGame keys now rnd g in
  gameOver (gameState g')
  = (existsb (strikes (player o)) (bullets o)
     && (lives (gameState g') <=? 0)%Z)
    || existsb (breached (player o)) (enemiesAfterCollision (gameState g) o).
Proof.
  intros Hgo Hp o g'. subst g'. unfold updateGame. rewrite Hgo, Hp. cbn [orb].
  fold o. rewrite afterCollision_unfold. cbv zeta. cbn [gameState].
  unfold enemiesAfterCollision.
  pose proof (collide_gameOver (player o) (bullets o) (enemies o) (gameState g))
    as Hc.
  set (r := collide (player o) (enemies o) (gameState g) (bullets o)) in *.
  destruct (lossCheck_state (player o) (snd (fst r))
              (if waveCleared (snd (fst r)) then nextLevel (snd r) else snd r))
    as (_ & _ & Hl & _).
  rewrite lossCheck_gameOver, Hl. f_equal.
  assert (H8 : forall b : bool,
             gameOver (if b then nextLevel (snd r) else snd r) = gameOver (snd r)
             /\ lives (if b then nextLevel (snd r) else snd r) = lives (snd r)).
  { intros []; split; reflexivity. }
  destruct (H8 (waveCleared (snd (fst r)))) as [-> ->].
  rewrite Hc, Hgo. now destruct (existsb (strikes (player o)) (bullets o)).
Qed.

Lemma frame_ends_game_witness :
  gameOver (gameState (updateGame [] 0 (fun _ => 1 # 2) lastLife)) = true.
Proof.
  rewrite (frame_ends_game [] 0 (fun _ => 1 # 2) lastLife);
    vm_compute; reflexivity.
Defined.

(** ** The counters (lines 227, 239-246, 257) *)

Lemma activeCount_mark (bs : list Bullet) (es : list Enemy) :
  (activeCount (map (mark bs) es) <= activeCount es)%nat.
Proof.
  induction es as [|e rest IH]; [cbn; lia|].
  cbn [map]. rewrite !activeCount_cons.
  destruct (mark_box bs e (mkBullet e 0 true)) as [_ H].
  destruct (active (mark bs e)) eqn:E.
  - destruct (H eq_refl) as (-> & _). lia.
  - destruct (active e); lia.
Qed.

Lemma afterCollision_counters (gs : GameState) (o : GameObjects) :
  let gs' := gameState (afterCollision gs o) in
  let es6 := enemiesAfterCollision gs o in
  score gs' = (score gs + 10 * (Z.of_nat (activeCount (enemies o))
                                - Z.of_nat (activeCount es6)))%Z /\
  (activeCount es6 <= activeCount (enemies o))%nat /\
  level gs' = (level gs + (if waveCleared es6 then 1 else 0))%Z /\
  lives gs' = (lives gs - Z.of_nat (List.length
                                      (filter (strikes (player o)) (bullets o))))%Z.
Proof.
  cbv zeta. rewrite afterCollision_unfold. cbv zeta. cbn [gameState].
  unfold enemiesAfterCollision.
  pose proof (collide_account (player o) (bullets o) (enemies o) gs) as Hacc.
  pose proof (collide_state (player o) (bullets o) (enemies o) gs) as Hst.
  pose proof (collide_enemies (player o) (bullets o) (enemies o) gs) as He.
  destruct (collide (player o) (enemies o) gs (bullets o)) as [[bs6 es6] gs6].
  cbn [fst snd] in *. destruct Hacc as [Hs Hl]. destruct Hst as (Hlv & _).
  destruct (lossCheck_state (player o) es6
              (if waveCleared es6 then nextLevel gs6 else gs6))
    as (-> & -> & -> & _).
  split; [|split; [|split]].
  - now destruct (waveCleared es6).
  - subst es6. apply activeCount_mark.
  - destruct (waveCleared es6); cbn [level nextLevel]; lia.
  - now destruct (waveCleared es6).
Qed.

Lemma counters_reachable (s : Session) :
  reachable s ->
  (0 <= score (gameState (game s)))%Z /\
  (10 | score (gameState (game s)))%Z /\
  (1 <= level (gameState (game s)))%Z.
Proof.
  revert s. apply reachable_ind_inv.
  - intros rnd. cbn. repeat split; try lia. now exists 0%Z.
  - intros s [code | code | now rnd] (H0 & H10 & H1); cbn [step game].
    + unfold handleRestart.
      destruct (String.eqb code "KeyR" && gameOver (gameState (game s)));
        [|now repeat split].
      cbn. repeat split; try lia. now exists 0%Z.
    + now repeat split.
    + unfold updateGame.
      destruct (gameOver (gameState (game s)) || paused (gameState (game s)));
        [now repeat split|].
      destruct (afterCollision_counters (gameState (game s))
                  (beforeCollision (keysRef s) now rnd (gameObjects (game s))))
        as (Hs & Hle & Hl & _).
      rewrite Hs, Hl. repeat split.
      * lia.
      * apply Z.divide_add_r; [assumption|]. apply Z.divide_factor_l.
      * destruct (waveCleared _); lia.
Qed.

(** X10.  A frame never lowers the score or the level and never raises the
    lives: the score grows by 10 for each enemy the frame deactivates, the
    level by 1 exactly when the collisions leave no active enemy, and the
    lives drop by one for each active enemy bullet that overlaps the
    player.  In every reachable state the score is a non-negative multiple
    of 10 and the level is at least 1. *)
Theorem counters_monotone :
  (forall keys now rnd (g : Game),
     gameOver (gameState g) = false -> paused (gameState g) = false ->
     let o := beforeCollision keys now rnd (gameObjects g) in
     let es6 := enemiesAfterCollision (gameState g) o in
     let gs' := gameState (updateGame keys now rnd g) in
     score gs' = (score (gameState g)
                  + 10 * (Z.of_nat (activeCount (enemies o))
                          - Z.of_nat (activeCount es6)))%Z /\
     (score (gameState g) <= score gs')%Z /\
     level gs' = (level (gameState g) + (if waveCleared es6 then 1 else 0))%Z /\
     lives gs' = (lives (gameState g)
                  - Z.of_nat (List.length
                                (filter (strikes (player o)) (bullets o))))%Z) /\
  (forall s : Session, reachable s ->
     (0 <= score (gameState (game s)))%Z /\
     (10 | score (gameState (game s)))%Z /\
     (1 <= level (gameState (game s)))%Z).
Proof.
  split; [|exact counters_reachable].
  intros keys now rnd g Hgo Hp o es6 gs'. subst gs' es6.
  unfold updateGame. rewrite Hgo, Hp. cbn [orb]. fold o.
  destruct (afterCollision_counters (gameState g) o) as (Hs & Hle & Hl & Hli).
  repeat split; try assumption. lia.
Qed.

Lemma counters_monotone_witness :
  score (gameState (updateGame [] 0 (fun _ => 1 # 2) lastEnemy)) = 500%Z.
Proof.
  rewrite (proj1 (proj1 counters_monotone [] 0%Z (fun _ => 1 # 2) lastEnemy
                    eq_refl eq_refl)).
  vm_compute. reflexivity.
Defined.

(** ** The enemy array (lines 173-192, 254-259) *)

Lemma updateEnemies_length (es : list Enemy) :
  List.length (updateEnemies es) = List.length es.
Proof.
  unfold updateEnemies.
  destruct (existsb atBoundary (map advance es)); now rewrite ?length_map.
Qed.

Lemma enemies_count_reachable (s : Session) :
  reachable s -> List.length (enemies (gameObjects (game s))) = 50%nat.
Proof.
  revert s. apply reachable_ind_inv; [reflexivity|].
  intros s [code | code | now rnd] H; cbn [step game]; [| assumption |].
  - unfold handleRestart.
    now destruct (String.eqb code "KeyR" && gameOver (gameState (game s))).
  - unfold updateGame.
    destruct (gameOver (gameState (game s)) || paused (gameState (game s)));
      [assumption|].
    destruct (afterCollision_objects (gameState (game s))
                (beforeCollision (keysRef s) now rnd (gameObjects (game s))))
      as [-> _].
    destruct (waveCleared _); [reflexivity|].
    now rewrite length_map, beforeCollision_enemies, updateEnemies_length.
Qed.

(** X11.  A frame whose collisions leave some enemy active keeps the level
    and keeps the enemy array, entry for entry, as the collisions left it:
    a wave is replaced only when it is cleared.  Enemies are deactivated
    and never removed, so the array holds 50 entries in every reachable
    state. *)
Theorem respawn_only_on_clear :
  (forall keys now rnd (g : Game),
     gameOver (gameState g) = false -> paused (gameState g) = false ->
     let o := beforeCollision keys now rnd (gameObjects g) in
     let g' := updateGame keys now rnd g in
     activeCount (enemiesAfterCollision (gameState g) o) <> 0%nat ->
     level (gameState g') = level (gameState g) /\
     enemies (gameObjects g') = enemiesAfterCollision (gameState g) o /\
     enemies (gameObjects g') = map (mark (bullets o)) (updateEnemies (enemies (gameObjects g))) /\
     List.length (enemies (gameObjects g')) = List.length (enemies (gameObjects g))) /\
  (forall s : Session, reachable s ->
     List.length (enemies (gameObjects (game s))) = 50%nat).
Proof.
  split; [|exact enemies_count_reachable].
  intros keys now rnd g Hgo Hp o g' Hact. subst g'.
  unfold updateGame. rewrite Hgo, Hp. cbn [orb]. fold o.
  destruct (afterCollision_counters (gameState g) o) as (_ & _ & Hl & _).
  destruct (afterCollision_objects (gameState g) o) as [He _].
  assert (Hes : enemiesAfterCollision (gameState g) o
                = map (mark (bullets o)) (enemies o)).
  { unfold enemiesAfterCollision. apply collide_enemies. }
  rewrite Hes in *.
  assert (Hw : waveCleared (map (mark (bullets o)) (enemies o)) = false).
  { unfold waveCleared. fold (activeCount (map (mark (bullets o)) (enemies o))).
    now apply Nat.eqb_neq. }
  rewrite Hw in *. rewrite Hl, He.
  assert (Ho : enemies o = updateEnemies (enemies (gameObjects g))).
  { unfold o. apply beforeCollision_enemies. }
  rewrite Ho. repeat split; try lia.
  now rewrite length_map, updateEnemies_length.
Qed.

Lemma respawn_only_on_clear_witness :
  level (gameState (updateGame [] 0 (fun _ => 1 # 2) lastLife)) = 1%Z.
Proof.
  refine (proj1 (proj1 respawn_only_on_clear [] 0%Z (fun _ => 1 # 2) lastLife
                   eq_refl eq_refl _)).
  vm_compute. discriminate.
Defined.

(** ** The wave stays in the playfield (lines 173-192) *)

Lemma num_range (n m : nat) : (n < m)%nat -> 0 <= num n /\ num n <= num m - 1.
Proof.
  intros H. unfold num. split.
  - change 0 with (inject_Z 0). rewrite <- Zle_Qle. lia.
  - assert (E : inject_Z (Z.of_nat m) - 1 == inject_Z (Z.of_nat m + -1)).
    { rewrite inject_Z_plus. reflexivity. }
    rewrite E, <- Zle_Qle. lia.
Qed.

Lemma InField_newEnemy (row col : nat) :
  (col < ENEMY_COLS)%nat -> InField 1 (newEnemy row col).
Proof.
  intros Hc _. unfold newEnemy, startX, startY, spacingX, spacingY.
  cbn [enemy_obj x y width enemy_speed direction].
  destruct (num_range col ENEMY_COLS Hc) as [H0 H1].
  destruct (num_range row (S row) (Nat.lt_succ_diag_r row)) as [R0 _].
  change (num ENEMY_COLS) with 10 in H1.
  do 3 (split; [reflexivity|]). split.
  - exists (100 + Z.of_nat col * 60)%Z. unfold num.
    rewrite inject_Z_plus, inject_Z_mult. reflexivity.
  - repeat split; intros; lra.
Qed.

Lemma WaveInField_initEnemies : WaveInField initEnemies.
Proof.
  exists 1. split; [now left|].
  unfold initEnemies. apply Forall_flat_map, Forall_forall.
  intros row _. apply Forall_map, Forall_forall. intros col Hc.
  apply in_seq in Hc. apply InField_newEnemy. lia.
Qed.

Lemma integer_gt (k : Z) (q : Q) : q == inject_Z k -> 0 < q -> 1 <= q.
Proof.
  intros E H. rewrite E in *. change 0 with (inject_Z 0) in H.
  rewrite <- Zlt_Qlt in H. change 1 with (inject_Z 1). rewrite <- Zle_Qle. lia.
Qed.

Lemma integer_lt (k : Z) (q : Q) : q == inject_Z k -> q < 775 -> q <= 774.
Proof.
  intros E H. rewrite E in *. change 775 with (inject_Z 775) in H.
  rewrite <- Zlt_Qlt in H. change 774 with (inject_Z 774). rewrite <- Zle_Qle. lia.
Qed.

Lemma InField_step (d : Q) (e : Enemy) :
  d == 1 \/ d == -1 -> InField d e ->
  InField (d * -1) (descend (advance e)) /\
  (atBoundary (advance e) = false -> InField d (advance e)).
Proof.
  intros Hd H. unfold InField, atBoundary, descend, advance in *.
  destruct (active e) eqn:Ha.
  2:{ cbn. rewrite Ha. split; intros; congruence. }
  destruct (H eq_refl) as (Hw & Hs & Hdir & (k & Hk) & Hx0 & Hx1 & Hy & H1 & H2).
  cbn [enemy_with enemy_obj set_x set_y x y width active enemy_speed direction].
  rewrite Ha.
  cbn [enemy_with enemy_obj set_x set_y x y width active enemy_speed direction].
  rewrite Hs, Hw. unfold CANVAS_WIDTH.
  assert (Hint : exists k' : Z, x e + 1 * direction e == inject_Z k').
  { destruct Hd as [Hd | Hd].
    - exists (k + 1)%Z. rewrite inject_Z_plus, Hdir, Hd, Hk. reflexivity.
    - exists (k + -1)%Z. rewrite inject_Z_plus, Hdir, Hd, Hk. reflexivity. }
  split.
  - intros _. do 2 (split; [reflexivity|]). split; [now rewrite Hdir|].
    split; [exact Hint|].
    destruct Hd as [Hd | Hd].
    + specialize (H1 Hd). repeat split; intros; lra.
    + specialize (H2 Hd). repeat split; intros; lra.
  - intros Hb _. cbn [andb] in Hb. apply orb_false_iff in Hb.
    destruct Hb as [Hb1 Hb2].
    assert (L : 0 < x e + 1 * direction e).
    { apply Qnot_le_lt. intros C. apply Qleb_le in C. congruence. }
    assert (R : x e + 1 * direction e < 775).
    { apply Qnot_le_lt. intros C.
      assert (C' : 800 - 25 <= x e + 1 * direction e) by lra.
      apply Qleb_le in C'. congruence. }
    destruct Hint as (k' & Hk').
    pose proof (integer_gt k' _ Hk' L). pose proof (integer_lt k' _ Hk' R).
    do 2 (split; [reflexivity|]). split; [exact Hdir|].
    split; [now exists k'|]. repeat split; intros; lra.
Qed.

Lemma WaveInField_updateEnemies (es : list Enemy) :
  WaveInField es -> WaveInField (updateEnemies es).
Proof.
  intros (d & Hd & H). unfold updateEnemies.
  destruct (existsb atBoundary (map advance es)) eqn:E.
  - exists (d * -1). split; [destruct Hd as [-> | ->]; [right | left]; reflexivity|].
    rewrite map_map. apply Forall_map. revert H. apply Forall_impl.
    intros e He. now apply InField_step.
  - exists d. split; [assumption|]. apply Forall_map.
    rewrite Forall_forall in *. intros e Hin.
    apply (InField_step d e Hd (H e Hin)).
    destruct (atBoundary (advance e)) eqn:B; [|reflexivity].
    assert (existsb atBoundary (map advance es) = true); [|congruence].
    apply existsb_exists. exists (advance e). split; [now apply in_map | assumption].
Qed.

Lemma WaveInField_mark (bs : list Bullet) (es : list Enemy) :
  WaveInField es -> WaveInField (map (mark bs) es).
Proof.
  intros (d & Hd & H). exists d. split; [assumption|].
  apply Forall_map. revert H. apply Forall_impl. intros e He Ha.
  destruct (mark_box bs e (mkBullet e 0 true)) as [_ Me].
  destruct (Me Ha) as (Ha' & -> & _). now apply He.
Qed.

Lemma WaveInField_reachable (s : Session) :
  reachable s -> WaveInField (enemies (gameObjects (game s))).
Proof.
  revert s. apply reachable_ind_inv.
  - intros rnd. apply WaveInField_initEnemies.
  - intros s [code | code | now rnd] H; cbn [step game]; [| assumption |].
    + unfold handleRestart.
      destruct (String.eqb code "KeyR" && gameOver (gameState (game s)));
        [apply WaveInField_initEnemies | assumption].
    + unfold updateGame.
      destruct (gameOver (gameState (game s)) || paused (gameState (game s)));
        [assumption|].
      destruct (afterCollision_objects (gameState (game s))
                  (beforeCollision (keysRef s) now rnd (gameObjects (game s))))
        as [-> _].
      destruct (waveCleared _); [apply WaveInField_initEnemies|].
      apply WaveInField_mark. rewrite beforeCollision_enemies.
      now apply WaveInField_updateEnemies.
Qed.

(** X12.  In every reachable state every active enemy is inside the
    playfield horizontally (0 <= x and x + width <= 800), on an integer x,
    never above the first row (y >= 50), and all active enemies move in
    the same direction, which is 1 or -1. *)
Theorem enemies_in_field (s : Session) :
  reachable s ->
  exists d, (d == 1 \/ d == -1) /\
    forall e, In e (enemies (gameObjects (game s))) -> active e = true ->
      0 <= x e /\ x e + width e <= CANVAS_WIDTH /\ 50 <= y e /\
      direction e == d /\ exists k : Z, x e == inject_Z k.
Proof.
  intros Hr. destruct (WaveInField_reachable s Hr) as (d & Hd & H).
  exists d. split; [assumption|]. intros e Hin Ha.
  rewrite Forall_forall in H.
  destruct (H e Hin Ha) as (Hw & _ & Hdir & Hk & Hx0 & Hx1 & Hy & _).
  rewrite Hw. unfold CANVAS_WIDTH. repeat split; try assumption. lra.
Qed.

Lemma enemies_in_field_witness :
  exists d, (d == 1 \/ d == -1) /\
    forall e, In e (enemies (gameObjects (game (run (mount (fun _ => 0)) volley)))) ->
      active e = true ->
      0 <= x e /\ x e + width e <= CANVAS_WIDTH /\ 50 <= y e /\
      direction e == d /\ exists k : Z, x e == inject_Z k.
Proof.
  apply (enemies_in_field (run (mount (fun _ => 0)) volley)).
  apply reachable_run. apply reach_mount.
Defined.

Lemma beforeCollision_bullets keys now rnd (o : GameObjects) :
  bullets (beforeCollision keys now rnd o)
  = enemyShoot rnd (snd (updateStars rnd 0 (stars o)))
      (updateEnemies (enemies o))
      (map updateBullet
           (snd (shoot keys now (movePlayer keys (player o)) (bullets o)))).
Proof.
  unfold beforeCollision.
  destruct (updateStars rnd 0 (stars o)) as [ss n].
  destruct (shoot keys now (movePlayer keys (player o)) (bullets o)).
  reflexivity.
Qed.

(** ** Enemies and the player's line (lines 262-266) *)

Lemma PlayerOK_bounds (p : Player) :
  PlayerOK p -> 0 <= x p /\ x p <= 770 /\ 300 <= y p /\ y p <= 580.
Proof.
  intros (_ & _ & _ & i & j & Hi & Hj & Hx & Hy). rewrite Hx, Hy.
  assert (inject_Z 0 <= inject_Z i) by (rewrite <- Zle_Qle; lia).
  assert (inject_Z i <= inject_Z 154) by (rewrite <- Zle_Qle; lia).
  assert (inject_Z 60 <= inject_Z j) by (rewrite <- Zle_Qle; lia).
  assert (inject_Z j <= inject_Z 116) by (rewrite <- Zle_Qle; lia).
  change (inject_Z 0) with 0 in *. change (inject_Z 154) with 154 in *.
  change (inject_Z 60) with 60 in *. change (inject_Z 116) with 116 in *.
  repeat split; lra.
Qed.

Lemma initEnemies_low (e : Enemy) :
  In e initEnemies -> y e + height e <= 270.
Proof.
  intros Hin.
  assert (H : forallb (fun e : Enemy => Qleb (y e + height e) 270) initEnemies
              = true) by (vm_compute; reflexivity).
  rewrite forallb_forall in H. apply Qleb_le. now apply H.
Qed.

Lemma above_after_frame (gs : GameState) (o : GameObjects) :
  gameOver (gameState (afterCollision gs o)) = false ->
  300 <= y (player o) ->
  forall e, In e (enemies (gameObjects (afterCollision gs o))) ->
            active e = true -> y e + height e < y (player o).
Proof.
  rewrite afterCollision_unfold. cbv zeta. cbn [gameState gameObjects enemies].
  set (r := collide (player o) (enemies o) gs (bullets o)).
  rewrite lossCheck_gameOver. intros Hgo Hy e Hin Ha.
  apply orb_false_iff in Hgo. destruct Hgo as [_ Hb].
  destruct (waveCleared (snd (fst r))).
  - pose proof (initEnemies_low e Hin). lra.
  - apply Qnot_le_lt. intros C.
    assert (existsb (breached (player o)) (snd (fst r)) = true); [|congruence].
    apply existsb_exists. exists e. split; [assumption|].
    unfold breached. rewrite Ha. now apply Qleb_le.
Qed.

Lemma above_reachable (s : Session) :
  reachable s ->
  gameOver (gameState (game s)) = false ->
  forall e, In e (enemies (gameObjects (game s))) -> active e = true ->
            y e + height e < y (player (gameObjects (game s))).
Proof.
  intros Hr. induction Hr as [rnd | s ev Hr IH].
  - intros _ e Hin _. pose proof (initEnemies_low e Hin). cbn. lra.
  - pose proof (PlayerOK_reachable _ (reach_step s ev Hr)) as HP.
    apply PlayerOK_bounds in HP. destruct HP as (_ & _ & Hy & _).
    destruct ev as [code | code | now rnd]; cbn [step game] in *;
      [| assumption |].
    + unfold handleRestart in *.
      destruct (String.eqb code "KeyR" && gameOver (gameState (game s)));
        [|assumption].
      intros _ e Hin _. pose proof (initEnemies_low e Hin). cbn. lra.
    + unfold updateGame in *.
      destruct (gameOver (gameState (game s)) || paused (gameState (game s)));
        [assumption|].
      intros Hgo e Hin Ha. rewrite afterCollision_player in *.
      now apply (above_after_frame _ _ Hgo Hy e Hin Ha).
Qed.

(** X13.  While the game is not over, every active enemy is wholly above
    the player: its bottom edge is strictly above the player's top edge in
    every reachable state. *)
Theorem enemies_above_player (s : Session) :
  reachable s ->
  gameOver (gameState (game s)) = false ->
  forall e, In e (enemies (gameObjects (game s))) -> active e = true ->
            y e + height e < y (player (gameObjects (game s))).
Proof. exact (above_reachable s). Qed.

Lemma enemies_above_player_witness :
  let e := mkEnemy (mkGameObject 378 250 25 20 true) 1 1 in
  y e + height e < y (player (gameObjects (game (run (mount (fun _ => 0)) volley)))).
Proof.
  apply (enemies_above_player (run (mount (fun _ => 0)) volley)).
  - apply reachable_run. apply reach_mount.
  - vm_compute. reflexivity.
  - vm_compute. do 44 right. left. reflexivity.
  - reflexivity.
Defined.

(** ** The bullet list (lines 146-171, 195-209, 252) *)

Lemma updateEnemies_In (es : list Enemy) (e' : Enemy) :
  In e' (updateEnemies es) ->
  exists e, In e es /\ active e' = active e /\ height e' = height e /\
            (y e' = y e \/ y e' = y e + 20).
Proof.
  unfold updateEnemies.
  assert (Ha : forall e, active (advance e) = active e /\
                         height (advance e) = height e /\ y (advance e) = y e).
  { intros e. unfold advance. destruct (active e) eqn:E; cbn; now rewrite ?E. }
  assert (Hd : forall e, active (descend e) = active e /\
                         height (descend e) = height e /\
                         (y (descend e) = y e \/ y (descend e) = y e + 20)).
  { intros e. unfold descend. destruct (active e) eqn:E; cbn; rewrite ?E; auto. }
  destruct (existsb atBoundary (map advance es)); intros Hin.
  - rewrite map_map in Hin. apply in_map_iff in Hin.
    destruct Hin as (e & <- & Hin). exists e. split; [assumption|].
    destruct (Ha e) as (A1 & A2 & A3).
    destruct (Hd (advance e)) as (D1 & D2 & D3).
    rewrite D1, D2, A1, A2. rewrite A3 in D3. now repeat split.
  - apply in_map_iff in Hin. destruct Hin as (e & <- & Hin).
    exists e. split; [assumption|]. destruct (Ha e) as (A1 & A2 & A3).
    rewrite A1, A2, A3. repeat split. now left.
Qed.

Lemma enemyShoot_cases rnd (n : nat) (es : list Enemy) (bs : list Bullet) :
  enemyShoot rnd n es bs = bs \/
  exists e, In e es /\ active e = true /\
            enemyShoot rnd n es bs = bs ++ [enemyBullet e].
Proof.
  unfold enemyShoot.
  destruct (Qltb (rnd n) (2 # 100)); [|now left].
  destruct (0 <? _)%nat; [|now left].
  destruct (pick _ _) as [e|] eqn:E; [|now left].
  right. exists e. apply pick_In, filter_In in E. destruct E. now repeat split.
Qed.

Lemma BulletFlying_updateBullet (b : Bullet) :
  width b = 4 ->
  (if isPlayerBullet b then height b = 10 /\ bullet_speed b = 8
   else height b = 8 /\ bullet_speed b = 3) ->
  BulletFlying (updateBullet b).
Proof.
  intros Hw Hs. unfold BulletFlying.
  destruct (updateBullet_fields b) as (_ & Fw & Fh & Fs & Fo & Fy & Fa).
  rewrite Fw, Fh, Fs, Fo, Fy, Fa. split; [assumption|].
  destruct (isPlayerBullet b); destruct Hs as [Hh Hsp];
    (split; [assumption|]; split; [assumption|]).
  - destruct (Qltb (y b - bullet_speed b) 0) eqn:E; [discriminate|].
    intros _. apply Qnot_lt_le. intros C. apply Qltb_lt in C. congruence.
  - destruct (Qltb CANVAS_HEIGHT (y b + bullet_speed b)) eqn:E; [discriminate|].
    intros _. apply Qnot_lt_le. intros C. apply Qltb_lt in C. congruence.
Qed.

Lemma BulletTidy_shape (b : Bullet) :
  BulletTidy b ->
  width b = 4 /\
  (if isPlayerBullet b then height b = 10 /\ bullet_speed b = 8
   else height b = 8 /\ bullet_speed b = 3).
Proof.
  unfold BulletTidy. intros (_ & Hw & H). split; [assumption|].
  destruct (isPlayerBullet b); tauto.
Qed.

Lemma BulletFlying_collide (p : Player) (bs : list Bullet) : forall es gs,
  Forall BulletFlying bs -> Forall BulletFlying (fst (fst (collide p es gs bs))).
Proof.
  induction bs as [|b rest IH]; intros es gs H; cbn [collide]; [constructor|].
  inversion H as [|? ? Hb Hrest]; subst.
  pose proof (collideBullet_bullet p es gs b) as Hb'.
  destruct (collideBullet p es gs b) as [[b' es1] gs1]. cbn [fst] in Hb'.
  specialize (IH es1 gs1 Hrest).
  destruct (collide p es1 gs1 rest) as [[rest' es2] gs2]. cbn [fst] in *.
  constructor; [|assumption].
  destruct Hb' as [-> | ->]; [assumption|].
  unfold BulletFlying in *. cbn. destruct Hb as [Hw Hb]. split; [assumption|].
  destruct (isPlayerBullet b); destruct Hb as (? & ? & ?);
    repeat split; try assumption; discriminate.
Qed.

Lemma BulletFlying_frame keys now rnd (g : Game) :
  PlayerOK (player (gameObjects g)) ->
  (forall e, In e (enemies (gameObjects g)) -> active e = true ->
             y e + height e < y (player (gameObjects g))) ->
  Forall BulletTidy (bullets (gameObjects g)) ->
  Forall BulletFlying (bullets (beforeCollision keys now rnd (gameObjects g))).
Proof.
  intros HP Hab Ht.
  rewrite beforeCollision_bullets.
  set (bs2 := snd (shoot keys now (movePlayer keys (player (gameObjects g)))
                     (bullets (gameObjects g)))) in *.
  assert (H3 : Forall BulletFlying (map updateBullet bs2)).
  { apply Forall_map. apply Forall_forall. intros b Hin.
    assert (Hs : width b = 4 /\
                 (if isPlayerBullet b then height b = 10 /\ bullet_speed b = 8
                  else height b = 8 /\ bullet_speed b = 3)).
    { unfold bs2, shoot in Hin.
      destruct (has keys "Space" && cooldownOver now _); cbn [snd] in Hin.
      - apply in_app_iff in Hin. destruct Hin as [Hin | [<- | []]].
        + rewrite Forall_forall in Ht. now apply BulletTidy_shape, Ht.
        + cbn. now repeat split.
      - rewrite Forall_forall in Ht. now apply BulletTidy_shape, Ht. }
    destruct Hs. now apply BulletFlying_updateBullet. }
  destruct (enemyShoot_cases rnd
              (snd (updateStars rnd 0 (stars (gameObjects g))))
              (updateEnemies (enemies (gameObjects g)))
              (map updateBullet bs2)) as [-> | (e' & Hin & Ha & ->)];
    [assumption|].
  apply Forall_app. split; [assumption|]. constructor; [|constructor].
  unfold BulletFlying. cbn. split; [reflexivity|].
  do 2 (split; [reflexivity|]). intros _.
  destruct (updateEnemies_In _ _ Hin) as (e & He & Eact & Eh & Ey).
  rewrite Eact in Ha. specialize (Hab e He Ha).
  apply PlayerOK_bounds in HP. destruct HP as (_ & _ & _ & Hy).
  unfold CANVAS_HEIGHT. rewrite Eh. destruct Ey as [-> | ->]; lra.
Qed.

Lemma BulletTidy_reachable (s : Session) :
  reachable s -> Forall BulletTidy (bullets (gameObjects (game s))).
Proof.
  intros Hr. induction Hr as [rnd | s ev Hr IH]; [constructor|].
  destruct ev as [code | code | now rnd]; cbn [step game]; [| assumption |].
  - unfold handleRestart.
    destruct (String.eqb code "KeyR" && gameOver (gameState (game s)));
      [constructor | assumption].
  - unfold updateGame.
    destruct (gameOver (gameState (game s))) eqn:Hgo; [assumption|].
    destruct (paused (gameState (game s))); [assumption|]. cbn [orb].
    set (o := beforeCollision (keysRef s) now rnd (gameObjects (game s))).
    destruct (afterCollision_objects (gameState (game s)) o) as [_ ->].
    assert (Hf : Forall BulletFlying (bullets o)).
    { apply BulletFlying_frame; [now apply PlayerOK_reachable | | assumption].
      now apply above_reachable. }
    apply (BulletFlying_collide (player o) _ (enemies o) (gameState (game s)))
      in Hf.
    apply Forall_forall. intros b Hin. apply filter_In in Hin.
    destruct Hin as [Hin Ha]. rewrite Forall_forall in Hf.
    specialize (Hf b Hin). unfold BulletFlying, BulletTidy in *.
    destruct Hf as [Hw Hb]. split; [assumption|]. split; [assumption|].
    destruct (isPlayerBullet b); destruct Hb as (? & ? & Hy); auto.
Qed.

(** X14.  In every reachable state the bullet list holds only active
    bullets.  A player bullet in it is 4 x 10 with speed 8 and has not
    passed the top (y >= 0); an enemy bullet is 4 x 8 with speed 3 and has
    not passed the bottom (y <= 600). *)
Theorem bullets_tidy (s : Session) :
  reachable s ->
  forall b, In b (bullets (gameObjects (game s))) ->
    active b = true /\ width b = 4 /\
    (isPlayerBullet b = true ->
     height b = 10 /\ bullet_speed b = 8 /\ 0 <= y b) /\
    (isPlayerBullet b = false ->
     height b = 8 /\ bullet_speed b = 3 /\ y b <= CANVAS_HEIGHT).
Proof.
  intros Hr b Hin. pose proof (BulletTidy_reachable s Hr) as H.
  rewrite Forall_forall in H. destruct (H b Hin) as (Ha & Hw & Hb).
  split; [assumption|]. split; [assumption|].
  destruct (isPlayerBullet b); split; intros; (assumption || discriminate).
Qed.

Lemma bullets_tidy_witness :
  let b := mkBullet (mkGameObject (786 # 2) 273 4 10 true) 8 true in
  active b = true /\ width b = 4 /\
  (isPlayerBullet b = true ->
   height b = 10 /\ bullet_speed b = 8 /\ 0 <= y b) /\
  (isPlayerBullet b = false ->
   height b = 8 /\ bullet_speed b = 3 /\ y b <= CANVAS_HEIGHT).
Proof.
  apply (bullets_tidy (run (mount (fun _ => 0)) volley)).
  - apply reachable_run. apply reach_mount.
  - vm_compute. left. reflexivity.
Defined.

Lemma collide_bullets_from (p : Player) (bs : list Bullet) : forall es gs b',
  In b' (fst (fst (collide p es gs bs))) ->
  exists b, In b bs /\ (b' = b \/ b' = deactivateBullet b).
Proof.
  induction bs as [|b rest IH]; intros es gs b'; cbn [collide]; [intros []|].
  pose proof (collideBullet_bullet p es gs b) as Hb.
  destruct (collideBullet p es gs b) as [[b1 es1] gs1]. cbn [fst] in Hb.
  specialize (IH es1 gs1 b').
  destruct (collide p es1 gs1 rest) as [[rest' es2] gs2]. cbn [fst] in *.
  intros [<- | Hin].
  - exists b. split; [now left | assumption].
  - destruct (IH Hin) as (b0 & H0 & H1). exists b0. split; [now right | assumption].
Qed.

(** X15.  The bullets a frame keeps are bullets of its collision pass,
    unchanged: each is active and is, field for field, one of the bullets
    the pass started with; and there are no more of them than the pass
    started with.  A bullet that was inactive when the pass began (it left
    the playfield in this frame) is not kept. *)
Theorem survivors_untouched (gs : GameState) (o : GameObjects) :
  let kept := bullets (gameObjects (afterCollision gs o)) in
  (forall b, In b kept -> In b (bullets o) /\ active b = true) /\
  (List.length kept <= List.length (bullets o))%nat /\
  (forall b, In b (bullets o) -> active b = false -> ~ In b kept).
Proof.
  cbv zeta. destruct (afterCollision_objects gs o) as [_ ->].
  split; [|split].
  - intros b Hin. apply filter_In in Hin. destruct Hin as [Hin Ha].
    split; [|assumption].
    destruct (collide_bullets_from _ _ _ _ _ Hin) as (b0 & H0 & [-> | ->]);
      [assumption|]. discriminate.
  - rewrite <- (collide_length (player o) (bullets o) (enemies o) gs).
    apply filter_length_le.
  - intros b _ Ha Hin. apply filter_In in Hin. destruct Hin as [_ Hin].
    congruence.
Qed.

(** ** Drawing (lines 270-345) *)

Lemma seqP_run (a b : Paint) (c : Context2D) :
  (a ;; b) c = (fst (b (fst (a c))), snd (a c) ++ snd (b (fst (a c)))).
Proof.
  unfold seqP. destruct (a c) as [c1 d1]. cbn [fst snd].
  now destruct (b c1) as [c2 d2].
Qed.

(** Straight-line drawing code is evaluated, call by call. *)
Ltac run_paint :=
  cbv [when done seqP setFillStyle setFont setTextAlign fillText fillRect
       app fst snd fillStyle font textAlign filter isRect isText negb
       List.length].

Lemma Quiet_done : Quiet done.
Proof. intros c. cbn. now repeat split. Qed.

Lemma Quiet_setFillStyle (st : Style) : Quiet (setFillStyle st).
Proof. intros c. cbn. now repeat split. Qed.

Lemma Quiet_fillRect (rx ry rw rh : Q) : Quiet (fillRect rx ry rw rh).
Proof. intros c. cbn. repeat split. now repeat constructor. Qed.

Lemma Quiet_seq (a b : Paint) : Quiet a -> Quiet b -> Quiet (a ;; b).
Proof.
  intros Ha Hb c. rewrite seqP_run. cbn [fst snd].
  destruct (Ha c) as (A1 & A2 & A3). destruct (Hb (fst (a c))) as (B1 & B2 & B3).
  repeat split; try congruence. now apply Forall_app.
Qed.

Lemma Quiet_when (b : bool) (p : Paint) : Quiet p -> Quiet (when b p).
Proof. intros H. destruct b; [exact H | exact Quiet_done]. Qed.

Lemma Quiet_forEach {A : Type} (f : A -> Paint) (l : list A) :
  (forall a, Quiet (f a)) -> Quiet (forEach f l).
Proof.
  intros H. induction l as [|a rest IH]; cbn [forEach];
    [exact Quiet_done | now apply Quiet_seq].
Qed.

#[local] Hint Resolve Quiet_done Quiet_setFillStyle Quiet_fillRect Quiet_seq
  Quiet_when : game.

Lemma Quiet_drawStar (s : Star) : Quiet (drawStar s).
Proof. unfold drawStar. auto with game. Qed.

Lemma Quiet_drawPlayer (p : Player) : Quiet (drawPlayer p).
Proof. unfold drawPlayer. auto 10 with game. Qed.

Lemma Quiet_drawEnemy (e : Enemy) : Quiet (drawEnemy e).
Proof. unfold drawEnemy. auto 10 with game. Qed.

Lemma Quiet_drawBullet (b : Bullet) : Quiet (drawBullet b).
Proof. unfold drawBullet. auto with game. Qed.

(** The world (background, stars, player, enemies, bullets) as one piece. *)
Lemma render_world (gs : GameState) (o : GameObjects) (c : Context2D) :
  exists (world : list Draw) (c1 : Context2D),
    Forall (fun d => isRect d = true) world /\
    font c1 = font c /\ textAlign c1 = textAlign c /\
    render gs o c
    = (fst ((drawUI gs ;; drawGameOver gs) c1),
       world ++ snd ((drawUI gs ;; drawGameOver gs) c1)).
Proof.
  set (W := setFillStyle (Css "#000011") ;;
            fillRect 0 0 CANVAS_WIDTH CANVAS_HEIGHT ;;
            forEach drawStar (stars o) ;;
            drawPlayer (player o) ;;
            forEach drawEnemy (enemies o) ;;
            forEach drawBullet (bullets o)).
  assert (HW : Quiet W).
  { unfold W.
    apply Quiet_seq; [apply Quiet_setFillStyle|].
    apply Quiet_seq; [apply Quiet_fillRect|].
    apply Quiet_seq; [apply Quiet_forEach, Quiet_drawStar|].
    apply Quiet_seq; [apply Quiet_drawPlayer|].
    apply Quiet_seq; apply Quiet_forEach;
      [apply Quiet_drawEnemy | apply Quiet_drawBullet]. }
  destruct (HW c) as (Hf & Ha & Hr).
  exists (snd (W c)), (fst (W c)). split; [|split; [assumption | split; [assumption|]]].
  - revert Hr. apply Forall_impl. intros [] H; [reflexivity | contradiction].
  - rewrite <- seqP_run. unfold render, W.
    rewrite !seqP_run. cbn [fst snd]. rewrite <- !app_assoc. reflexivity.
Qed.

Lemma hud_overlay (gs : GameState) (c : Context2D) :
  (drawUI gs ;; drawGameOver gs) c
  = (mkContext2D (Css "#ffffff")
       (if gameOver gs then "24px monospace" else "20px monospace")
       (if gameOver gs then "left" else textAlign c),
     hudDraws gs (textAlign c) ++ (if gameOver gs then overlayDraws gs else [])).
Proof.
  unfold hudDraws, overlayDraws, drawGameOver.
  destruct (gameOver gs);
    cbv [drawUI drawGameOver when done seqP setFillStyle setFont setTextAlign
         fillText fillRect app fillStyle font textAlign];
    reflexivity.
Qed.

Lemma render_draws (gs : GameState) (o : GameObjects) (c : Context2D) :
  exists world : list Draw,
    Forall (fun d => isRect d = true) world /\
    render gs o c
    = (mkContext2D (Css "#ffffff")
         (if gameOver gs then "24px monospace" else "20px monospace")
         (if gameOver gs then "left" else textAlign c),
       world ++ hudDraws gs (textAlign c)
             ++ (if gameOver gs then overlayDraws gs else [])).
Proof.
  destruct (render_world gs o c) as (world & c1 & Hw & Hf & Ha & ->).
  exists world. split; [assumption|].
  rewrite hud_overlay. cbn [fst snd]. now rewrite Ha.
Qed.

Lemma forEach_draws {A : Type} (f : A -> Paint) (g : A -> list Draw) (l : list A) :
  (forall a c, snd (f a c) = g a) ->
  forall c, snd (forEach f l c) = flat_map g l.
Proof.
  intros H. induction l as [|a rest IH]; intros c; cbn [forEach flat_map];
    [reflexivity|].
  rewrite seqP_run. cbn [snd]. now rewrite H, IH.
Qed.

Lemma flat_map_single {A B : Type} (f : A -> B) (l : list A) :
  flat_map (fun a => [f a]) l = map f l.
Proof.
  induction l as [|a rest IH]; [reflexivity|].
  cbn [flat_map map app]. now rewrite IH.
Qed.

(** The calls of a render, one by one. *)
Lemma render_exact (gs : GameState) (o : GameObjects) (c : Context2D) :
  render gs o c
  = (mkContext2D (Css "#ffffff")
       (if gameOver gs then "24px monospace" else "20px monospace")
       (if gameOver gs then "left" else textAlign c),
     worldDraws o ++ hudDraws gs (textAlign c)
       ++ (if gameOver gs then overlayDraws gs else [])).
Proof.
  set (W := setFillStyle (Css "#000011") ;;
            fillRect 0 0 CANVAS_WIDTH CANVAS_HEIGHT ;;
            forEach drawStar (stars o) ;;
            drawPlayer (player o) ;;
            forEach drawEnemy (enemies o) ;;
            forEach drawBullet (bullets o)).
  assert (HW : Quiet W).
  { unfold W.
    apply Quiet_seq; [apply Quiet_setFillStyle|].
    apply Quiet_seq; [apply Quiet_fillRect|].
    apply Quiet_seq; [apply Quiet_forEach, Quiet_drawStar|].
    apply Quiet_seq; [apply Quiet_drawPlayer|].
    apply Quiet_seq; apply Quiet_forEach;
      [apply Quiet_drawEnemy | apply Quiet_drawBullet]. }
  assert (Hd : snd (W c) = worldDraws o).
  { unfold W, worldDraws. rewrite !seqP_run. cbn [fst snd setFillStyle fillRect app].
    rewrite (forEach_draws drawStar (fun s => [starDraw s])) by reflexivity.
    rewrite (forEach_draws drawEnemy enemyDraws).
    2:{ intros e c'. unfold drawEnemy, enemyDraws. destruct (active e);
          run_paint; reflexivity. }
    rewrite (forEach_draws drawBullet bulletDraws).
    2:{ intros b c'. unfold drawBullet, bulletDraws. destruct (active b);
          run_paint; reflexivity. }
    assert (Hp : forall c', snd (drawPlayer (player o) c') = playerDraws (player o)).
    { intros c'. unfold drawPlayer, playerDraws. destruct (active (player o));
        run_paint; reflexivity. }
    rewrite Hp.
    now rewrite (flat_map_single starDraw). }
  destruct (HW c) as (_ & Ha & _).
  assert (Hr : render gs o c
               = (fst ((drawUI gs ;; drawGameOver gs) (fst (W c))),
                  snd (W c) ++ snd ((drawUI gs ;; drawGameOver gs) (fst (W c))))).
  { rewrite <- seqP_run. unfold render, W.
    rewrite !seqP_run. cbn [fst snd]. rewrite <- !app_assoc. reflexivity. }
  rewrite Hr, hud_overlay, Hd. cbn [fst snd]. now rewrite Ha.
Qed.

(** X16.  A render draws, in this order, rectangles for the world, then
    the three HUD texts in white 20px monospace with the text alignment the
    context had on entry, then, only when the game is over, the dimming
    rectangle and the three centred overlay texts.  It leaves the fill
    style white; when the game is over it leaves the font at 24px and the
    alignment at left, otherwise the font at 20px and the alignment as it
    was. *)
Theorem render_layers (gs : GameState) (o : GameObjects) (c : Context2D) :
  exists world : list Draw,
    Forall (fun d => isRect d = true) world /\
    render gs o c
    = (mkContext2D (Css "#ffffff")
         (if gameOver gs then "24px monospace" else "20px monospace")
         (if gameOver gs then "left" else textAlign c),
       world ++ hudDraws gs (textAlign c)
             ++ (if gameOver gs then overlayDraws gs else [])).
Proof. exact (render_draws gs o c). Qed.

Lemma forEach_skip {A : Type} (f : A -> Paint) (act : A -> bool) (l : list A) :
  (forall a, act a = false -> forall c, f a c = (c, [])) ->
  forall c, forEach f (filter act l) c = forEach f l c.
Proof.
  intros H. induction l as [|a rest IH]; intros c; cbn [filter forEach];
    [reflexivity|].
  destruct (act a) eqn:E.
  - cbn [forEach]. rewrite !seqP_run. now rewrite IH.
  - rewrite seqP_run, (H a E). cbn [fst snd]. rewrite IH.
    now destruct (forEach f rest c).
Qed.

(** X17.  Inactive enemies and bullets leave no trace in a render: removing
    them from the world changes neither the calls issued nor the context
    left behind. *)
Theorem inactive_invisible (gs : GameState) (o : GameObjects) (c : Context2D) :
  render gs (mkGameObjects (player o)
               (filter (fun e : Enemy => active e) (enemies o))
               (filter (fun b : Bullet => active b) (bullets o))
               (stars o)) c
  = render gs o c.
Proof.
  unfold render. cbn [player enemies bullets stars].
  rewrite !seqP_run. cbn [fst snd].
  rewrite !(forEach_skip drawEnemy (fun e : Enemy => active e)).
  - rewrite !(forEach_skip drawBullet (fun b : Bullet => active b)); [reflexivity|].
    intros b Hb c'. unfold drawBullet. now rewrite Hb.
  - intros e He c'. unfold drawEnemy. now rewrite He.
Qed.

Lemma forEach_count {A : Type} (f : A -> Paint) (w : A -> nat) (l : list A) :
  (forall a c, List.length (filter isRect (snd (f a c))) = w a) ->
  forall c, List.length (filter isRect (snd (forEach f l c))) = list_sum (map w l).
Proof.
  intros H. induction l as [|a rest IH]; intros c; cbn [forEach map];
    [reflexivity|].
  change (list_sum (?h :: ?t)) with (h + list_sum t)%nat.
  rewrite seqP_run. cbn [snd]. rewrite filter_app, length_app, H, IH. reflexivity.
Qed.

Lemma list_sum_flags {A : Type} (act : A -> bool) (k : nat) (l : list A) :
  list_sum (map (fun a => if act a then k else 0%nat) l)
  = (k * List.length (filter act l))%nat.
Proof.
  induction l as [|a rest IH]; [cbn; lia|].
  cbn [map filter]. change (list_sum (?h :: ?t)) with (h + list_sum t)%nat.
  rewrite IH. destruct (act a); cbn [List.length]; lia.
Qed.

(** X18.  A render fills one rectangle for the background, one per star,
    four for an active player, four per active enemy, one per active
    bullet, and one more for the overlay when the game is over; it writes
    three texts, or six when the game is over. *)
Theorem render_counts (gs : GameState) (o : GameObjects) (c : Context2D) :
  let ds := snd (render gs o c) in
  List.length (filter isRect ds)
  = (1 + List.length (stars o)
     + (if active (player o) then 4 else 0)
     + 4 * activeCount (enemies o)
     + List.length (filter (fun b : Bullet => active b) (bullets o))
     + (if gameOver gs then 1 else 0))%nat /\
  List.length (filter isText ds) = (if gameOver gs then 6 else 3)%nat.
Proof.
  cbv zeta. split.
  - unfold render. rewrite !seqP_run. cbn [fst snd].
    rewrite !filter_app, !length_app.
    rewrite (forEach_count drawStar (fun _ => 1%nat)) by reflexivity.
    rewrite (forEach_count drawEnemy (fun e => if active e then 4 else 0)%nat).
    2:{ intros e c'. unfold drawEnemy. destruct (active e); run_paint;
          reflexivity. }
    rewrite (forEach_count drawBullet (fun b => if active b then 1 else 0)%nat).
    2:{ intros b c'. unfold drawBullet. destruct (active b); run_paint;
          reflexivity. }
    rewrite !list_sum_flags. unfold activeCount.
    assert (Hs : list_sum (map (fun _ : Star => 1%nat) (stars o))
                 = List.length (stars o)).
    { induction (stars o) as [|s rest IH]; [reflexivity|].
      cbn [map List.length].
      change (list_sum (?h :: ?t)) with (h + list_sum t)%nat. lia. }
    rewrite Hs.
    assert (Hp : forall c',
               List.length (filter isRect (snd (drawPlayer (player o) c')))
               = (if active (player o) then 4 else 0)%nat).
    { intros c'. unfold drawPlayer. destruct (active (player o)); run_paint;
        reflexivity. }
    rewrite Hp.
    assert (Hu : forall c', List.length (filter isRect (snd (drawUI gs c'))) = 0%nat).
    { intros c'. unfold drawUI. run_paint. reflexivity. }
    rewrite Hu.
    assert (Hg : forall c',
               List.length (filter isRect (snd (drawGameOver gs c')))
               = (if gameOver gs then 1 else 0)%nat).
    { intros c'. unfold drawGameOver. destruct (gameOver gs); run_paint;
        reflexivity. }
    rewrite Hg. cbn [setFillStyle fillRect snd filter isRect List.length]. lia.
  - destruct (render_draws gs o c) as (world & Hw & ->). cbn [snd].
    rewrite !filter_app, !length_app.
    assert (H0 : filter isText world = []).
    { apply filter_none. intros d Hd. rewrite Forall_forall in Hw.
      unfold isText. now rewrite (Hw d Hd). }
    rewrite H0. now destruct (gameOver gs).
Qed.

(** ** The level label (line 327) *)





(** ** The game loop (lines 348-362) *)

(** X20.  The picture of a frame shows the objects as the frame's update
    left them, but the counters and the game-over flag of the state the
    frame started from: its calls are the rectangles of the updated world,
    then the HUD of the old state, then the overlay only if the game was
    already over.  So the frame that ends the game draws the old HUD and no
    overlay; the frame after it leaves the session as it is and draws the
    same world again, with the new counters and the overlay on top.  The
    update does not depend on the canvas: without a canvas or without its
    context it runs all the same and nothing is drawn. *)
Theorem hud_lags_one_frame (s : Session) (now : Z) (rnd : nat -> Q)
  (c : Context2D) :
  let s' := step s (Frame now rnd) in
  let gs := gameState (game s) in
  let gs' := gameState (game s') in
  (forall canvas, fst (gameLoop s now rnd canvas) = s') /\
  snd (gameLoop s now rnd None) = None /\
  snd (gameLoop s now rnd (Some None)) = None /\
  snd (gameLoop s now rnd (Some (Some c)))
  = Some (mkContext2D (Css "#ffffff")
            (if gameOver gs then "24px monospace" else "20px monospace")
            (if gameOver gs then "left" else textAlign c),
          worldDraws (gameObjects (game s')) ++ hudDraws gs (textAlign c)
            ++ (if gameOver gs then overlayDraws gs else [])) /\
  (gameOver gs = false -> gameOver gs' = true ->
   snd (gameLoop s now rnd (Some (Some c)))
   = Some (mkContext2D (Css "#ffffff") "20px monospace" (textAlign c),
           worldDraws (gameObjects (game s')) ++ hudDraws gs (textAlign c)) /\
   forall now2 rnd2 c2,
     gameLoop s' now2 rnd2 (Some (Some c2))
     = (s', Some (mkContext2D (Css "#ffffff") "24px monospace" "left",
                  worldDraws (gameObjects (game s'))
                    ++ hudDraws gs' (textAlign c2) ++ overlayDraws gs'))) /\
  (gameOver gs = true -> s' = s).
Proof.
  cbv zeta.
  assert (Hhalt : forall t : Session, gameOver (gameState (game t)) = true ->
                  forall n r, step t (Frame n r) = t).
  { intros [g ks] Hg n r. cbn [step game keysRef] in *.
    now rewrite updateGame_halted by (now left). }
  unfold gameLoop. cbn [fst snd renderOn].
  split; [reflexivity|]. do 2 (split; [reflexivity|]).
  split; [now rewrite render_exact|]. split.
  - intros Hgo Hgo'. split.
    + now rewrite render_exact, Hgo, app_nil_r.
    + intros now2 rnd2 c2. rewrite (Hhalt _ Hgo').
      now rewrite render_exact, Hgo'.
  - intros Hgo. now apply Hhalt.
Qed.

Lemma hud_lags_one_frame_witness :
  let s := mkSession lastLife [] in
  let s' := step s (tick 0) in
  let c := mkContext2D (Css "#000000") "10px sans-serif" "start" in
  (bullets (gameObjects lastLife) <> []
   /\ bullets (gameObjects (game s')) = []
   /\ lives (gameState lastLife) = 1%Z
   /\ gameState (game s') = mkGameState 70 1 0 true false) /\
  snd (gameLoop s 0 (fun _ => 1 # 2) (Some (Some c)))
  = Some (mkContext2D (Css "#ffffff") "20px monospace" "start",
          worldDraws (gameObjects (game s')) ++ hudDraws (gameState lastLife) "start") /\
  gameLoop s' 16 (fun _ => 1 # 2) (Some (Some c))
  = (s', Some (mkContext2D (Css "#ffffff") "24px monospace" "left",
               worldDraws (gameObjects (game s'))
                 ++ hudDraws (gameState (game s')) "start"
                 ++ overlayDraws (gameState (game s')))).
Proof.
  cbv zeta. split; [vm_compute; repeat split; discriminate|].
  destruct (hud_lags_one_frame (mkSession lastLife []) 0 (fun _ => 1 # 2)
              (mkContext2D (Css "#000000") "10px sans-serif" "start"))
    as (_ & _ & _ & _ & H & _).
  destruct H as [H1 H2]; [reflexivity | vm_compute; reflexivity |].
  split; [exact H1|].
  exact (H2 16%Z (fun _ => 1 # 2)
            (mkContext2D (Css "#000000") "10px sans-serif" "start")).
Defined.
